(** * Chess engine: a shallow embedding of the rules core

    The development follows the JavaScript sources
    [constants.js], [position.js], [pieces.js], [board.js] and [game.js]:
    coordinates, the six piece classes with their movement predicates,
    the board with move execution and attack queries, and the game
    manager with notation, status, FEN and undo.

    Conventions of the embedding.
    - JavaScript numbers that hold board coordinates and counters are
      integers of [Z]; the counters of the game can also be [NaN].
    - Strings are [string]; a character is an 8-bit [ascii] (the Latin-1
      part of a UTF-16 code unit).  Where an expression yields a string
      in one case and a number in another, its value is a [Js.value].
    - The engine is imperative: a method that mutates [this] becomes a
      function that returns the new state next to its result.
    - Object identity.  Every piece object occurs once in the [pieces]
      array and every reference the code holds to a piece of the array
      was obtained with [Array.prototype.find], which returns the first
      match.  Removing that object ([filter(p => p !== x)]) is therefore
      removing the first match, and mutating it is updating the first
      match. *)

From Stdlib Require Import ZArith List String Ascii Bool Lia.
From Stdlib Require Import Permutation Sorted.
Import ListNotations.

Open Scope Z_scope.
Open Scope list_scope.

(* ================================================================== *)
(** * JavaScript primitives used by the engine *)
(* ================================================================== *)

Module Js.

(** A JavaScript number as the engine uses it: an integer or [NaN]. *)
Inductive number : Type :=
| NaN : number
| Num : Z -> number.

Definition isNaN (n : number) : bool :=
  match n with NaN => true | Num _ => false end.

(** [n++] *)
Definition incr (n : number) : number :=
  match n with NaN => NaN | Num z => Num (z + 1) end.

(** [n >= k]; every comparison with [NaN] is false. *)
Definition geb (n : number) (k : Z) : bool :=
  match n with NaN => false | Num z => k <=? z end.

(** [Math.sign] and [Math.abs] on integers. *)
Definition sign (z : Z) : Z := Z.sgn z.
Definition abs (z : Z) : Z := Z.abs z.

Definition str (c : ascii) : string := String c EmptyString.

(** Code-unit tests. *)
Definition code (c : ascii) : Z := Z.of_nat (nat_of_ascii c).

Definition isDigit (c : ascii) : bool := (48 <=? code c) && (code c <=? 57).

Definition digitValue (c : ascii) : Z := code c - 48.

Definition digitChar (d : Z) : ascii := ascii_of_nat (Z.to_nat (48 + d)).

Definition isUpper (c : ascii) : bool := (65 <=? code c) && (code c <=? 90).
Definition isLower (c : ascii) : bool := (97 <=? code c) && (code c <=? 122).

Definition toLowerCase (c : ascii) : ascii :=
  if isUpper c then ascii_of_nat (Z.to_nat (code c + 32)) else c.

Definition toUpperCase (c : ascii) : ascii :=
  if isLower c then ascii_of_nat (Z.to_nat (code c - 32)) else c.

(** White space removed by [trim] and skipped by [parseInt]: TAB, LF,
    VT, FF, CR, SPACE and NBSP (the white-space code units below 256). *)
Definition isWhiteSpace (c : ascii) : bool :=
  ((9 <=? code c) && (code c <=? 13)) || (code c =? 32) || (code c =? 160).

Fixpoint trimStart (s : string) : string :=
  match s with
  | EmptyString => EmptyString
  | String c r => if isWhiteSpace c then trimStart r else s
  end.

Fixpoint trimEnd (s : string) : string :=
  match s with
  | EmptyString => EmptyString
  | String c r =>
      match trimEnd r with
      | EmptyString => if isWhiteSpace c then EmptyString else str c
      | r' => String c r'
      end
  end.

Definition trim (s : string) : string := trimEnd (trimStart s).

(** [s.split(sep)] for a one-character separator. *)
Fixpoint split (sep : ascii) (s : string) : list string :=
  match s with
  | EmptyString => [EmptyString]
  | String c r =>
      if Ascii.eqb c sep then EmptyString :: split sep r
      else match split sep r with
           | h :: t => String c h :: t
           | [] => [str c]
           end
  end.

(** [s.includes(c)] for a one-character needle. *)
Fixpoint includes (s : string) (c : ascii) : bool :=
  match s with
  | EmptyString => false
  | String d r => Ascii.eqb d c || includes r c
  end.

(** [s[i]] used in a concatenation: a one-character string, or the
    text of [undefined] past the end. *)
Definition charAt (s : string) (i : nat) : string :=
  match String.get i s with
  | Some c => str c
  | None => "undefined"%string
  end.

(** [arr[i]] of an array of one-character strings, used in a
    concatenation. *)
Definition index (arr : list ascii) (i : Z) : string :=
  if i <? 0 then "undefined"%string
  else match nth_error arr (Z.to_nat i) with
       | Some c => str c
       | None => "undefined"%string
       end.

(** [arr.indexOf(c)] *)
Fixpoint indexOf (arr : list ascii) (c : ascii) : Z :=
  match arr with
  | [] => -1
  | d :: r =>
      if Ascii.eqb d c then 0
      else let i := indexOf r c in if i <? 0 then -1 else i + 1
  end.

(** Decimal digits of a non-negative integer, most significant first.
    The fuel is the number of digits still allowed; [digitsOf] gives
    more than any [Z] of that size needs. *)
Fixpoint digitsFuel (fuel : nat) (z : Z) (acc : string) : string :=
  let acc' := String (digitChar (z mod 10)) acc in
  match fuel with
  | O => acc'
  | S f => if z <? 10 then acc' else digitsFuel f (z / 10) acc'
  end.

Definition digitsOf (z : Z) : string :=
  digitsFuel (Z.to_nat (Z.log2 z)) z EmptyString.

(** [String(n)] for a number of the engine. *)
Definition numberToString (n : number) : string :=
  match n with
  | NaN => "NaN"%string
  | Num z => if z <? 0 then String "-"%char (digitsOf (- z)) else digitsOf z
  end.

(** The digits at the front of a string, as [parseInt] reads them (a
    run too long for a double is rounded by JavaScript and not here). *)
Fixpoint readDigits (s : string) (acc : Z) : Z :=
  match s with
  | EmptyString => acc
  | String c r => if isDigit c then readDigits r (10 * acc + digitValue c) else acc
  end.

Definition startsWithDigit (s : string) : bool :=
  match s with
  | EmptyString => false
  | String c _ => isDigit c
  end.

(** [parseInt(s, 10)]: leading white space, an optional sign, then the
    longest run of digits; [NaN] when there is no digit. *)
Definition parseInt (s : string) : number :=
  match trimStart s with
  | String "-"%char r =>
      if startsWithDigit r then Num (- readDigits r 0) else NaN
  | String "+"%char r =>
      if startsWithDigit r then Num (readDigits r 0) else NaN
  | r => if startsWithDigit r then Num (readDigits r 0) else NaN
  end.

(** A value that is a string or a number: what [a + b] yields when each
    operand is a string or [undefined]. *)
Inductive value : Type :=
| Str : string -> value
| Number : number -> value.

(** [String(v)], which [+] applies next to a string and a property
    access applies to its key. *)
Definition toString (v : value) : string :=
  match v with
  | Str s => s
  | Number n => numberToString n
  end.

(** [v[i]] used in a concatenation; a number has no indexed property. *)
Definition valueAt (v : value) (i : nat) : string :=
  match v with
  | Str s => charAt s i
  | Number _ => "undefined"%string
  end.

(** Whether [arr[i]] is an element of the array and not [undefined]. *)
Definition inRange (arr : list ascii) (i : Z) : bool :=
  (0 <=? i) && (i <? Z.of_nat (List.length arr)).

End Js.

(* ================================================================== *)
(** * constants.js *)
(* ================================================================== *)

Inductive Color : Type := WHITE | BLACK.

Definition Color_eqb (a b : Color) : bool :=
  match a, b with
  | WHITE, WHITE | BLACK, BLACK => true
  | _, _ => false
  end.

Definition Color_name (c : Color) : string :=
  match c with WHITE => "white"%string | BLACK => "black"%string end.

Definition FILES : list ascii :=
  ["a"; "b"; "c"; "d"; "e"; "f"; "g"; "h"]%char.

Definition RANKS : list ascii :=
  ["1"; "2"; "3"; "4"; "5"; "6"; "7"; "8"]%char.

Inductive GameStatus : Type :=
| ACTIVE
| CHECK
| CHECKMATE_WHITE
| CHECKMATE_BLACK
| DRAW_STALEMATE
| DRAW_INSUFFICIENT
| DRAW_REPETITION
| DRAW_FIFTY_MOVE.


(* ================================================================== *)
(** * position.js: class Position *)
(* ================================================================== *)

Record Position : Type := mkPosition { row : Z; col : Z }.

(** [Position.fromAlgebraic]; [None] stands for the thrown [Error]. *)
Definition Position_fromAlgebraic (algebraic : string) : option Position :=
  match algebraic with
  | String c0 (String rank EmptyString) =>
      let file := Js.toLowerCase c0 in
      if existsb (Ascii.eqb file) FILES && existsb (Ascii.eqb rank) RANKS
      then Some (mkPosition (8 - Js.digitValue rank) (Js.indexOf FILES file))
      else None
  | _ => None
  end.

(** [toAlgebraic()]: [FILES[this.col] + RANKS[7 - this.row]].  An index
    off its array reads [undefined]; next to a string [+] concatenates
    it as text, and [undefined + undefined] is the number [NaN]. *)
Definition Position_toAlgebraic (p : Position) : Js.value :=
  if Js.inRange FILES (col p) || Js.inRange RANKS (7 - row p)
  then Js.Str (Js.index FILES (col p) ++ Js.index RANKS (7 - row p))
  else Js.Number Js.NaN.

(** [Position.fromAlgebraic(v)] on a value that may be a number: a
    number has no [length], so the first test throws. *)
Definition Position_fromAlgebraic_value (v : Js.value) : option Position :=
  match v with
  | Js.Str algebraic => Position_fromAlgebraic algebraic
  | Js.Number _ => None
  end.

Definition Position_isValid (p : Position) : bool :=
  (0 <=? row p) && (row p <? 8) && (0 <=? col p) && (col p <? 8).

Definition Position_equals (p other : Position) : bool :=
  (row p =? row other) && (col p =? col other).

Definition Position_clone (p : Position) : Position :=
  mkPosition (row p) (col p).

(* ================================================================== *)
(** * pieces.js: class Piece and its six subclasses *)
(* ================================================================== *)

(** The subclass of a piece object ([instanceof], [constructor]). *)
Inductive Kind : Type := Pawn | Knight | Bishop | Rook | Queen | King.

Definition Kind_eqb (a b : Kind) : bool :=
  match a, b with
  | Pawn, Pawn | Knight, Knight | Bishop, Bishop
  | Rook, Rook | Queen, Queen | King, King => true
  | _, _ => false
  end.

Record Piece : Type := mkPiece {
  kind : Kind;
  color : Color;
  position : Position;
  hasMoved : bool
}.

(** [new Pawn(color, position)] and the like: [hasMoved] starts false. *)
Definition Piece_new (k : Kind) (c : Color) (p : Position) : Piece :=
  mkPiece k c p false.

(** The [symbol] getter. *)
Definition Piece_symbol (p : Piece) : ascii :=
  match kind p, color p with
  | Pawn, WHITE => "P" | Pawn, BLACK => "p"
  | Knight, WHITE => "N" | Knight, BLACK => "n"
  | Bishop, WHITE => "B" | Bishop, BLACK => "b"
  | Rook, WHITE => "R" | Rook, BLACK => "r"
  | Queen, WHITE => "Q" | Queen, BLACK => "q"
  | King, WHITE => "K" | King, BLACK => "k"
  end%char.

(** The [abbreviation] getter. *)
Definition Kind_abbreviation (k : Kind) : string :=
  match k with
  | Pawn => ""
  | Knight => "N"
  | Bishop => "B"
  | Rook => "R"
  | Queen => "Q"
  | King => "K"
  end%string.

Definition Piece_abbreviation (p : Piece) : string :=
  Kind_abbreviation (kind p).

(** [moveTo(newPosition)] *)
Definition Piece_moveTo (p : Piece) (newPosition : Position) : Piece :=
  mkPiece (kind p) (color p) newPosition true.

(** [clone()] of every subclass. *)
Definition Piece_clone (p : Piece) : Piece :=
  mkPiece (kind p) (color p) (Position_clone (position p)) (hasMoved p).

(* ================================================================== *)
(** * board.js: the state of class Board and its look-ups *)
(* ================================================================== *)

Record Board : Type := mkBoard {
  pieces : list Piece;
  enPassantTarget : option Position;
  capturedPieces : list Piece
}.

(** The predicate of [getPieceAt]'s [find]. *)
Definition isAt (pos : Position) (piece : Piece) : bool :=
  (row (position piece) =? row pos) && (col (position piece) =? col pos).

Definition pieceAt (ps : list Piece) (pos : Position) : option Piece :=
  find (isAt pos) ps.

Definition Board_getPieceAt (b : Board) (pos : Position) : option Piece :=
  pieceAt (pieces b) pos.

Definition Board_getPiecesByColor (b : Board) (c : Color) : list Piece :=
  filter (fun piece => Color_eqb (color piece) c) (pieces b).

Definition isKingOf (c : Color) (piece : Piece) : bool :=
  Kind_eqb (kind piece) King && Color_eqb (color piece) c.

Definition Board_getKing (b : Board) (c : Color) : option Piece :=
  find (isKingOf c) (pieces b).

Definition Board_getEnPassantTarget (b : Board) : option Position :=
  enPassantTarget b.

(** Removing, respectively mutating, the object a [find] returned. *)
Fixpoint removeFirst {A : Type} (f : A -> bool) (l : list A) : list A :=
  match l with
  | [] => []
  | x :: r => if f x then r else x :: removeFirst f r
  end.

Fixpoint updateFirst {A : Type} (f : A -> bool) (g : A -> A) (l : list A)
  : list A :=
  match l with
  | [] => []
  | x :: r => if f x then g x :: r else x :: updateFirst f g r
  end.

(* ================================================================== *)
(** * pieces.js: movement predicates *)
(* ================================================================== *)

Definition isSome {A : Type} (o : option A) : bool :=
  match o with Some _ => true | None => false end.

(** The [while] loop of [isPathClear].  Each iteration inspects the
    current square and steps; the loop ends when the current square is
    the target.  [None] is an exhausted fuel. *)
Fixpoint isPathClear_loop (fuel : nat) (b : Board) (target : Position)
    (rowStep colStep currentRow currentCol : Z) : option bool :=
  if negb ((currentRow =? row target) && (currentCol =? col target)) then
    match fuel with
    | O => None
    | S fuel' =>
        if isSome (Board_getPieceAt b (mkPosition currentRow currentCol))
        then Some false
        else isPathClear_loop fuel' b target rowStep colStep
               (currentRow + rowStep) (currentCol + colStep)
    end
  else Some true.

(** [isPathClear(board, target)].  The callers only pass targets on a
    rank, file or diagonal through the piece, where the loop runs fewer
    than [max(|dr|, |dc|)] times; that many iterations are granted. *)
Definition Piece_isPathClear_opt (p : Piece) (b : Board) (target : Position)
  : option bool :=
  let dr := row target - row (position p) in
  let dc := col target - col (position p) in
  let rowStep := Js.sign dr in
  let colStep := Js.sign dc in
  isPathClear_loop (Z.to_nat (Z.max (Js.abs dr) (Js.abs dc))) b target
    rowStep colStep (row (position p) + rowStep) (col (position p) + colStep).

(** The value [isPathClear] returns to the sliding classes. *)
Definition Piece_isPathClear (p : Piece) (b : Board) (target : Position)
  : bool :=
  match Piece_isPathClear_opt p b target with
  | Some r => r
  | None => false
  end.

Definition Pawn_canMoveTo (p : Piece) (b : Board) (target : Position) : bool :=
  let rowDirection := match color p with WHITE => -1 | BLACK => 1 end in
  let startingRank := match color p with WHITE => 6 | BLACK => 1 end in
  let rowDiff := row target - row (position p) in
  let colDiff := col target - col (position p) in
  if (colDiff =? 0) && (rowDiff =? rowDirection) then
    negb (isSome (Board_getPieceAt b target))
  else if (colDiff =? 0) && (rowDiff =? 2 * rowDirection)
          && (row (position p) =? startingRank) then
    let intermediatePos :=
      mkPosition (row (position p) + rowDirection) (col (position p)) in
    negb (isSome (Board_getPieceAt b intermediatePos))
    && negb (isSome (Board_getPieceAt b target))
  else if (Js.abs colDiff =? 1) && (rowDiff =? rowDirection) then
    let regularCapture :=
      match Board_getPieceAt b target with
      | Some targetPiece => negb (Color_eqb (color targetPiece) (color p))
      | None => false
      end in
    let enPassantCapture :=
      match Board_getEnPassantTarget b with
      | Some ep => Position_equals target ep
      | None => false
      end in
    regularCapture || enPassantCapture
  else false.

Definition Knight_canMoveTo (p : Piece) (b : Board) (target : Position)
  : bool :=
  let rowDiff := Js.abs (row target - row (position p)) in
  let colDiff := Js.abs (col target - col (position p)) in
  ((rowDiff =? 2) && (colDiff =? 1)) || ((rowDiff =? 1) && (colDiff =? 2)).

Definition Bishop_canMoveTo (p : Piece) (b : Board) (target : Position)
  : bool :=
  let rowDiff := Js.abs (row target - row (position p)) in
  let colDiff := Js.abs (col target - col (position p)) in
  if rowDiff =? colDiff then Piece_isPathClear p b target else false.

Definition Rook_canMoveTo (p : Piece) (b : Board) (target : Position) : bool :=
  if (row (position p) =? row target) || (col (position p) =? col target)
  then Piece_isPathClear p b target
  else false.

Definition Queen_canMoveTo (p : Piece) (b : Board) (target : Position)
  : bool :=
  let rowDiff := Js.abs (row target - row (position p)) in
  let colDiff := Js.abs (col target - col (position p)) in
  if rowDiff =? colDiff then Piece_isPathClear p b target
  else if (row (position p) =? row target) || (col (position p) =? col target)
  then Piece_isPathClear p b target
  else false.

(** The integers [lo, lo+1, ..., hi-1] of a counting [for] loop. *)
Definition range (lo hi : Z) : list Z :=
  map (fun i => lo + Z.of_nat i) (seq 0 (Z.to_nat (hi - lo))).

Definition King_canMoveTo (p : Piece) (b : Board) (target : Position) : bool :=
  let rowDiff := Js.abs (row target - row (position p)) in
  let colDiff := Js.abs (col target - col (position p)) in
  if (rowDiff <=? 1) && (colDiff <=? 1) then true
  else if negb (hasMoved p) && (rowDiff =? 0) && (colDiff =? 2) then
    let isKingside := col (position p) <? col target in
    let rookCol := if isKingside then 7 else 0 in
    let rookPosition := mkPosition (row (position p)) rookCol in
    match Board_getPieceAt b rookPosition with
    | None => false
    | Some rook =>
        if negb (Ascii.eqb (Js.toLowerCase (Piece_symbol rook)) "r")
           || negb (Color_eqb (color rook) (color p))
           || hasMoved rook
        then false
        else
          let colStart := Z.min (col (position p)) rookCol in
          let colEnd := Z.max (col (position p)) rookCol in
          forallb
            (fun c =>
               negb (isSome
                 (Board_getPieceAt b (mkPosition (row (position p)) c))))
            (range (colStart + 1) colEnd)
    end
  else false.

(** Dynamic dispatch of [canMoveTo]. *)
Definition Piece_canMoveTo (p : Piece) (b : Board) (target : Position)
  : bool :=
  match kind p with
  | Pawn => Pawn_canMoveTo p b target
  | Knight => Knight_canMoveTo p b target
  | Bishop => Bishop_canMoveTo p b target
  | Rook => Rook_canMoveTo p b target
  | Queen => Queen_canMoveTo p b target
  | King => King_canMoveTo p b target
  end.

(** [Piece.isValidMove(board, target)] *)
Definition Piece_isValidMove (p : Piece) (b : Board) (target : Position)
  : bool :=
  if negb (Position_isValid target) then false
  else if Position_equals (position p) target then false
  else
    match Board_getPieceAt b target with
    | Some targetPiece =>
        if Color_eqb (color targetPiece) (color p) then false
        else Piece_canMoveTo p b target
    | None => Piece_canMoveTo p b target
    end.

(* ================================================================== *)
(** * board.js: class Board *)
(* ================================================================== *)

(** [setupInitialPosition()], in the order of its [push] calls. *)
Definition initialPieces : list Piece :=
  flat_map
    (fun c => [Piece_new Pawn BLACK (mkPosition 1 c);
               Piece_new Pawn WHITE (mkPosition 6 c)])
    (range 0 8)
  ++ [Piece_new Rook BLACK (mkPosition 0 0);
      Piece_new Rook BLACK (mkPosition 0 7);
      Piece_new Rook WHITE (mkPosition 7 0);
      Piece_new Rook WHITE (mkPosition 7 7);
      Piece_new Knight BLACK (mkPosition 0 1);
      Piece_new Knight BLACK (mkPosition 0 6);
      Piece_new Knight WHITE (mkPosition 7 1);
      Piece_new Knight WHITE (mkPosition 7 6);
      Piece_new Bishop BLACK (mkPosition 0 2);
      Piece_new Bishop BLACK (mkPosition 0 5);
      Piece_new Bishop WHITE (mkPosition 7 2);
      Piece_new Bishop WHITE (mkPosition 7 5);
      Piece_new Queen BLACK (mkPosition 0 3);
      Piece_new Queen WHITE (mkPosition 7 3);
      Piece_new King BLACK (mkPosition 0 4);
      Piece_new King WHITE (mkPosition 7 4)].

(** [setupInitialPosition()] replaces the pieces, the en-passant
    target and the captured pieces. *)
Definition Board_setupInitialPosition (b : Board) : Board :=
  mkBoard initialPieces None [].

(** [new Board()] *)
Definition Board_new : Board :=
  Board_setupInitialPosition (mkBoard [] None []).

(** [clone()] *)
Definition Board_clone (b : Board) : Board :=
  mkBoard (map Piece_clone (pieces b))
          (option_map Position_clone (enPassantTarget b))
          (capturedPieces b).

(** What [pieceConstructors[promotionPiece]] evaluates to.  The table is
    an object literal, so a key that is not one of its own four is
    looked up on [Object.prototype]: ['constructor'] yields the function
    [Object], the other inherited members yield values that are truthy
    but cannot be called with [new]. *)
Inductive ConstructorLookup : Type :=
| OwnConstructor (k : Kind)
| InheritedObject
| InheritedMember
| NoProperty.

Definition objectPrototypeMembers : list string :=
  ["__proto__"; "hasOwnProperty"; "isPrototypeOf"; "propertyIsEnumerable";
   "toLocaleString"; "toString"; "valueOf"; "__defineGetter__";
   "__defineSetter__"; "__lookupGetter__"; "__lookupSetter__"]%string.

Definition pieceConstructors (key : string) : ConstructorLookup :=
  if String.eqb key "Q" then OwnConstructor Queen
  else if String.eqb key "R" then OwnConstructor Rook
  else if String.eqb key "B" then OwnConstructor Bishop
  else if String.eqb key "N" then OwnConstructor Knight
  else if String.eqb key "constructor" then InheritedObject
  else if existsb (String.eqb key) objectPrototypeMembers then InheritedMember
  else NoProperty.

(** The object [movePiece] returns on success.  [res_piece] is the
    moving piece object as it is when [movePiece] returns. *)
Record MoveResult : Type := mkMoveResult {
  res_piece : Piece;
  res_from : Position;
  res_to : Position;
  res_capturedPiece : option Piece;
  res_isPromotion : bool;
  res_isCastling : bool;
  res_isEnPassant : bool;
  res_newEnPassantTarget : option Position;
  res_promotedTo : option Piece;
  res_rookMove : option (Piece * Position * Position)
}.

(** The ways a call of [movePiece] ends, each with the board it leaves.
    - [MoveSuccess]: [{success: true, ...}].
    - [MoveFailure]: [{success: false, error}]; nothing was touched.
    - [MoveTypeError]: [new PieceConstructor(...)] threw because the
      looked-up value is not a constructor; the captures were already
      carried out.
    - [MoveForeignObject]: the looked-up value was [Object];
      [new Object(color, position)] is a [String] wrapper object, which
      was pushed on the array after the pieces of the board given here
      and is no piece at all.  [movePiece] reports success. *)
Inductive MoveOutcome : Type :=
| MoveSuccess (result : MoveResult) (b : Board)
| MoveFailure (error : string)
| MoveTypeError (b : Board)
| MoveForeignObject (b : Board).

(** The condition of the promotion branch of [movePiece]. *)
Definition isPromotionMove (piece : Piece) (to : Position) : bool :=
  Kind_eqb (kind piece) Pawn
  && ((Color_eqb (color piece) WHITE && (row to =? 0))
      || (Color_eqb (color piece) BLACK && (row to =? 7))).

(** The castling step of [movePiece], on the array after the king's
    move. *)
Definition castleRook (piece : Piece) (from to : Position) (ps : list Piece)
  : list Piece * option (Piece * Position * Position) :=
  if Kind_eqb (kind piece) King && (Js.abs (col to - col from) =? 2) then
    let isKingside := col from <? col to in
    let rookCol := if isKingside then 7 else 0 in
    let rookPosition := mkPosition (row from) rookCol in
    match pieceAt ps rookPosition with
    | Some rook =>
        let newRookCol := if isKingside then col to - 1 else col to + 1 in
        let newRookPosition := mkPosition (row from) newRookCol in
        (updateFirst (isAt rookPosition)
           (fun r => Piece_moveTo r newRookPosition) ps,
         Some (Piece_moveTo rook newRookPosition, rookPosition,
               newRookPosition))
    | None => (ps, None)
    end
  else (ps, None).

(** The last step of [movePiece]: the new en-passant target. *)
Definition nextEnPassantTarget (piece : Piece) (from to : Position)
  : option Position :=
  if Kind_eqb (kind piece) Pawn && (Js.abs (row to - row from) =? 2) then
    let enPassantRow :=
      match color piece with WHITE => row from - 1 | BLACK => row from + 1 end
    in Some (mkPosition enPassantRow (col from))
  else None.

(** [movePiece(from, to, promotionPiece)] *)
Definition Board_movePiece (b : Board) (from to : Position)
    (promotionPiece : string) : MoveOutcome :=
  match Board_getPieceAt b from with
  | None => MoveFailure "No piece at source position"
  | Some piece =>
    if negb (Piece_isValidMove piece b to) then MoveFailure "Invalid move"
    else
      (* capture on the target square *)
      let capturedPiece := Board_getPieceAt b to in
      let ps1 :=
        if isSome capturedPiece then removeFirst (isAt to) (pieces b)
        else pieces b in
      let cs1 :=
        match capturedPiece with
        | Some c => capturedPieces b ++ [c]
        | None => capturedPieces b
        end in
      (* en passant *)
      let viaEnPassant :=
        Kind_eqb (kind piece) Pawn
        && match enPassantTarget b with
           | Some ep => Position_equals to ep
           | None => false
           end in
      let captureRow :=
        match color piece with WHITE => row to + 1 | BLACK => row to - 1 end in
      let capturePosition := mkPosition captureRow (col to) in
      let capturedPawn :=
        if viaEnPassant then pieceAt ps1 capturePosition else None in
      let ps2 :=
        if isSome capturedPawn then removeFirst (isAt capturePosition) ps1
        else ps1 in
      (* [piece] is the first object at [from]; the pawn found behind
         the target is that same object exactly when it stands on
         [from]. *)
      let moverCaptured :=
        isSome capturedPawn && Position_equals capturePosition from in
      if isPromotionMove piece to then
        let cs2 :=
          match capturedPawn with Some c => cs1 ++ [c] | None => cs1 end in
        let captured :=
          match capturedPawn with Some c => Some c | None => capturedPiece end
        in
        let withoutPawn :=
          if moverCaptured then ps2 else removeFirst (isAt from) ps2 in
        match pieceConstructors promotionPiece with
        | InheritedMember => MoveTypeError (mkBoard ps2 (enPassantTarget b) cs2)
        | InheritedObject =>
            MoveForeignObject
              (mkBoard withoutPawn (nextEnPassantTarget piece from to) cs2)
        | lookup =>
            let k := match lookup with OwnConstructor k => k | _ => Queen end in
            let newPiece := mkPiece k (color piece) (Position_clone to) true in
            let ps3 := withoutPawn ++ [newPiece] in
            let '(ps4, rookMove) := castleRook piece from to ps3 in
            let newTarget := nextEnPassantTarget piece from to in
            MoveSuccess
              (mkMoveResult piece (Position_clone from) (Position_clone to)
                 captured true
                 (Kind_eqb (kind piece) King
                  && (Js.abs (col to - col from) =? 2))
                 (isSome capturedPawn) newTarget (Some newPiece) rookMove)
              (mkBoard ps4 newTarget cs2)
        end
      else
        (* [piece.moveTo(to.clone())]; the object may already have left
           the array, and then also sits in [capturedPieces] *)
        let moved := Piece_moveTo piece (Position_clone to) in
        let cs2 :=
          match capturedPawn with
          | Some c => cs1 ++ [if moverCaptured then moved else c]
          | None => cs1
          end in
        let captured :=
          match capturedPawn with
          | Some c => Some (if moverCaptured then moved else c)
          | None => capturedPiece
          end in
        let ps3 :=
          if moverCaptured then ps2
          else updateFirst (isAt from)
                 (fun p => Piece_moveTo p (Position_clone to)) ps2 in
        let '(ps4, rookMove) := castleRook piece from to ps3 in
        let newTarget := nextEnPassantTarget piece from to in
        MoveSuccess
          (mkMoveResult moved (Position_clone from) (Position_clone to)
             captured false
             (Kind_eqb (kind piece) King && (Js.abs (col to - col from) =? 2))
             (isSome capturedPawn) newTarget None rookMove)
          (mkBoard ps4 newTarget cs2)
  end.

(** The board a call leaves behind, whatever its outcome. *)
Definition boardAfter (b : Board) (o : MoveOutcome) : Board :=
  match o with
  | MoveSuccess _ b' => b'
  | MoveFailure _ => b
  | MoveTypeError b' => b'
  | MoveForeignObject b' => b'
  end.

(** The body of the loop of [isSquareAttacked] for one attacker: kings
    by adjacency, pawns by their capture squares, the other classes by
    [isValidMove]. *)
Definition attacks (b : Board) (pos : Position) (attackerColor : Color)
    (attacker : Piece) : bool :=
  match kind attacker with
  | King =>
      let rowDiff := Js.abs (row pos - row (position attacker)) in
      let colDiff := Js.abs (col pos - col (position attacker)) in
      (rowDiff <=? 1) && (colDiff <=? 1)
  | Pawn =>
      let rowDirection := match attackerColor with WHITE => -1 | BLACK => 1 end
      in
      let attackRow := row (position attacker) + rowDirection in
      let leftCol := col (position attacker) - 1 in
      let rightCol := col (position attacker) + 1 in
      (attackRow =? row pos)
      && ((leftCol =? col pos) || (rightCol =? col pos))
  | _ => Piece_isValidMove attacker b pos
  end.

(** [isSquareAttacked(position, attackerColor)]: the loop returns at the
    first attacker. *)
Definition Board_isSquareAttacked (b : Board) (pos : Position)
    (attackerColor : Color) : bool :=
  existsb (attacks b pos attackerColor) (Board_getPiecesByColor b attackerColor).

(** The body of the loop of [findAttackers] for one piece. *)
Definition canAttack (b : Board) (pos : Position) (piece : Piece) : bool :=
  match kind piece with
  | Pawn =>
      let rowDirection := match color piece with WHITE => -1 | BLACK => 1 end in
      (row (position piece) + rowDirection =? row pos)
      && (Js.abs (col (position piece) - col pos) =? 1)
  | King =>
      let rowDiff := Js.abs (row pos - row (position piece)) in
      let colDiff := Js.abs (col pos - col (position piece)) in
      (rowDiff <=? 1) && (colDiff <=? 1)
  | _ => Piece_isValidMove piece b pos
  end.

(** [findAttackers(position, attackerColor)] *)
Definition Board_findAttackers (b : Board) (pos : Position)
    (attackerColor : Color) : list Piece :=
  filter (canAttack b pos) (Board_getPiecesByColor b attackerColor).

Definition opponent (c : Color) : Color :=
  match c with WHITE => BLACK | BLACK => WHITE end.

(** [isKingInCheck(kingColor)] *)
Definition Board_isKingInCheck (b : Board) (kingColor : Color) : bool :=
  match Board_getKing b kingColor with
  | None => false
  | Some king => Board_isSquareAttacked b (position king) (opponent kingColor)
  end.

(** The squares in the order of the two nested loops over rows and
    columns. *)
Definition allSquares : list Position :=
  flat_map (fun r => map (fun c => mkPosition r c) (range 0 8)) (range 0 8).

(** The test a target square passes to enter [legalMoves]. *)
Definition isLegalTarget (b : Board) (piece : Piece) (targetPos : Position)
  : bool :=
  if Position_equals (position piece) targetPos then false
  else if Piece_isValidMove piece b targetPos then
    let tempBoard := Board_clone b in
    match Board_movePiece tempBoard (position piece) targetPos "Q" with
    | MoveSuccess _ b' => negb (Board_isKingInCheck b' (color piece))
    | MoveFailure _ => negb (Board_isKingInCheck tempBoard (color piece))
    | MoveTypeError _ | MoveForeignObject _ => false
    end
  else false.

(** [getLegalMovesForPiece(piece)]; [None] is a null [piece]. *)
Definition Board_getLegalMovesForPiece (b : Board) (piece : option Piece)
  : list Position :=
  match piece with
  | None => []
  | Some piece => filter (isLegalTarget b piece) allSquares
  end.

Definition nonEmpty {A : Type} (l : list A) : bool :=
  match l with [] => false | _ :: _ => true end.

(** [obj[key] = value] on an object used as a map: its own keys in the
    order they were first assigned. *)
Fixpoint setProperty {V : Type} (key : string) (value : V)
    (obj : list (string * V)) : list (string * V) :=
  match obj with
  | [] => [(key, value)]
  | (k, v) :: rest =>
      if String.eqb k key then (k, value) :: rest
      else (k, v) :: setProperty key value rest
  end.

(** One iteration of the loop of [getAllLegalMoves]. *)
Definition recordLegalMoves (b : Board) (result : list (string * list Position))
    (piece : Piece) : list (string * list Position) :=
  let moves := Board_getLegalMovesForPiece b (Some piece) in
  if nonEmpty moves
  then setProperty (Js.toString (Position_toAlgebraic (position piece)))
         moves result
  else result.

(** [getAllLegalMoves(color)] *)
Definition Board_getAllLegalMoves (b : Board) (c : Color)
  : list (string * list Position) :=
  fold_left (recordLegalMoves b) (Board_getPiecesByColor b c) [].

(** [hasLegalMoves(color)] *)
Definition Board_hasLegalMoves (b : Board) (c : Color) : bool :=
  existsb (fun piece => nonEmpty (Board_getLegalMovesForPiece b (Some piece)))
          (Board_getPiecesByColor b c).

(** [isCheckmate(color)] *)
Definition Board_isCheckmate (b : Board) (c : Color) : bool :=
  if negb (Board_isKingInCheck b c) then false
  else negb (Board_hasLegalMoves b c).

(** [isStalemate(color)] *)
Definition Board_isStalemate (b : Board) (c : Color) : bool :=
  if Board_isKingInCheck b c then false
  else negb (Board_hasLegalMoves b c).

Definition isKind (k : Kind) (p : Piece) : bool := Kind_eqb (kind p) k.

(** [isInsufficientMaterial()] *)
Definition Board_isInsufficientMaterial (b : Board) : bool :=
  let ps := pieces b in
  let n := Z.of_nat (List.length ps) in
  if n =? 2 then true
  else if n =? 3 then
    let bishops := Z.of_nat (List.length (filter (isKind Bishop) ps)) in
    let knights := Z.of_nat (List.length (filter (isKind Knight) ps)) in
    (bishops =? 1) || (knights =? 1)
  else if n =? 4 then
    match filter (isKind Bishop) ps with
    | [bishop1; bishop2] =>
        if negb (Color_eqb (color bishop1) (color bishop2)) then
          let isOdd1 :=
            Z.rem (row (position bishop1) + col (position bishop1)) 2 =? 1 in
          let isOdd2 :=
            Z.rem (row (position bishop2) + col (position bishop2)) 2 =? 1 in
          Bool.eqb isOdd1 isOdd2
        else false
    | _ => false
    end
  else false.

(** The number of entries of a history that equal a signature, as the
    loops of [isThreefoldRepetition] and [updateGameStatus] count
    them. *)
Definition countOccurrences (s : string) (l : list string) : Z :=
  Z.of_nat (List.length (filter (String.eqb s) l)).

(** [if (emptyCount > 0) fen += emptyCount] *)
Definition emptyRun (emptyCount : Z) : string :=
  if 0 <? emptyCount then Js.numberToString (Js.Num emptyCount)
  else EmptyString.

(** The inner loop of [toFEN] over the columns still to visit, with the
    running count of empty squares. *)
Fixpoint toFEN_cols (b : Board) (r : Z) (cols : list Z) (emptyCount : Z)
  : string :=
  match cols with
  | [] => emptyRun emptyCount
  | c :: rest =>
      match Board_getPieceAt b (mkPosition r c) with
      | Some piece =>
          String.append (emptyRun emptyCount)
            (String (Piece_symbol piece) (toFEN_cols b r rest 0))
      | None => toFEN_cols b r rest (emptyCount + 1)
      end
  end.

(** [if (row < 7) fen += '/'] *)
Definition rowSeparator (r : Z) : string :=
  if r <? 7 then "/"%string else EmptyString.

(** The outer loop of [toFEN] over the rows still to visit. *)
Fixpoint toFEN_rows (b : Board) (rows : list Z) : string :=
  match rows with
  | [] => EmptyString
  | r :: rest =>
      String.append (toFEN_cols b r (range 0 8) 0)
        (String.append (rowSeparator r) (toFEN_rows b rest))
  end.

(** [toFEN()] *)
Definition Board_toFEN (b : Board) : string := toFEN_rows b (range 0 8).

(** [/[1-8]/.test(char)] for a one-character string. *)
Definition isOneToEight (c : ascii) : bool :=
  (49 <=? Js.code c) && (Js.code c <=? 56).

(** The piece letters [prnbqkPRNBQK] with the class the [switch] picks
    and the colour [char === char.toUpperCase()] gives. *)
Definition pieceOfChar (c : ascii) : option (Kind * Color) :=
  let colour := if Ascii.eqb c (Js.toUpperCase c) then WHITE else BLACK in
  let l := Js.toLowerCase c in
  if Ascii.eqb l "p" then Some (Pawn, colour)
  else if Ascii.eqb l "r" then Some (Rook, colour)
  else if Ascii.eqb l "n" then Some (Knight, colour)
  else if Ascii.eqb l "b" then Some (Bishop, colour)
  else if Ascii.eqb l "q" then Some (Queen, colour)
  else if Ascii.eqb l "k" then Some (King, colour)
  else None.

(** The loop of [loadFEN] over the characters of one row: the success
    flag, the column reached and the array so far. *)
Fixpoint loadFEN_row (r : Z) (chars : string) (c : Z) (ps : list Piece)
  : bool * Z * list Piece :=
  match chars with
  | EmptyString => (true, c, ps)
  | String char rest =>
      if isOneToEight char then
        loadFEN_row r rest (c + Js.digitValue char) ps
      else
        match pieceOfChar char with
        | Some (k, colour) =>
            loadFEN_row r rest (c + 1)
              (ps ++ [Piece_new k colour (mkPosition r c)])
        | None => (false, c, ps)
        end
  end.

(** The loop of [loadFEN] over the rows. *)
Fixpoint loadFEN_rows (r : Z) (rows : list string) (ps : list Piece)
  : bool * list Piece :=
  match rows with
  | [] => (true, ps)
  | chars :: rest =>
      let '(ok, c, ps') := loadFEN_row r chars 0 ps in
      if ok && (c =? 8) then loadFEN_rows (r + 1) rest ps'
      else (false, ps')
  end.

(** [Board.loadFEN(fen)]: the returned flag and the board left behind. *)
Definition Board_loadFEN (b : Board) (fen : string) : bool * Board :=
  let rows := Js.split "/" fen in
  if negb (Z.of_nat (List.length rows) =? 8) then (false, mkBoard [] None [])
  else
    let '(ok, ps) := loadFEN_rows 0 rows [] in
    (ok, mkBoard ps None []).

(** The order [localeCompare] puts on two different piece symbols: by
    letter, the lower-case form of a letter before its upper-case form
    (the default collation).  The value is the sign only. *)
Definition symbolRank (c : ascii) : Z :=
  2 * Js.code (Js.toLowerCase c) + (if Js.isUpper c then 1 else 0).

(** [a.localeCompare(b)] on two piece symbols. *)
Definition localeCompare (a b : ascii) : Z :=
  Z.sgn (symbolRank a - symbolRank b).

(** The comparator handed to [sort] in [getPositionSignature]. *)
Definition comparePieces (a b : Piece) : Z :=
  if negb (Ascii.eqb (Piece_symbol a) (Piece_symbol b)) then
    localeCompare (Piece_symbol a) (Piece_symbol b)
  else if negb (row (position a) =? row (position b)) then
    row (position a) - row (position b)
  else col (position a) - col (position b).

(** [Array.prototype.sort] with a comparator: a stable sort, here by
    insertion. *)
Fixpoint insertBy {A : Type} (cmp : A -> A -> Z) (x : A) (l : list A)
  : list A :=
  match l with
  | [] => [x]
  | y :: r => if cmp x y <=? 0 then x :: l else y :: insertBy cmp x r
  end.

Fixpoint sortBy {A : Type} (cmp : A -> A -> Z) (l : list A) : list A :=
  match l with
  | [] => []
  | x :: r => insertBy cmp x (sortBy cmp r)
  end.

(** [piece.symbol + piece.position.toAlgebraic()] *)
Definition signatureOfPiece (p : Piece) : string :=
  String (Piece_symbol p) (Js.toString (Position_toAlgebraic (position p))).

(** [enPassantTarget ? enPassantTarget.toAlgebraic() : '-'] *)
Definition enPassantText (ep : option Position) : string :=
  match ep with
  | Some p => Js.toString (Position_toAlgebraic p)
  | None => "-"%string
  end.

(** [getPositionSignature()] *)
Definition Board_getPositionSignature (b : Board) : string :=
  (String.concat "" (map signatureOfPiece (sortBy comparePieces (pieces b)))
   ++ ";ep:" ++ enPassantText (enPassantTarget b))%string.

(** [isThreefoldRepetition(positionHistory)]: the counting loop returns
    as soon as the count reaches three. *)
Definition Board_isThreefoldRepetition (b : Board)
    (positionHistory : list string) : bool :=
  3 <=? countOccurrences (Board_getPositionSignature b) positionHistory.

(* ================================================================== *)
(** * board.js on an array that ends with a foreign object *)
(* ================================================================== *)

(** When [movePiece] has pushed the [String] wrapper, the array holds
    the pieces of the board followed by an object that has no [color],
    no [position] and no [symbol].  [getPiecesByColor] leaves it out
    and [getKing] passes it by, since [instanceof King] is false.  The
    [find] of [getPieceAt] returns the first piece on the square when
    there is one; when there is none it reaches the wrapper, and
    reading [piece.position.row] there throws a [TypeError].  Below, a
    board stands for such an array by the pieces in front of the
    wrapper, and [None] stands for the [TypeError]. *)
Definition Board_getPieceAt_foreign (b : Board) (pos : Position)
  : option Piece :=
  Board_getPieceAt b pos.

(** [isPathClear]: the first iteration of the loop returns or throws. *)
Definition Piece_isPathClear_foreign (p : Piece) (b : Board)
    (target : Position) : option bool :=
  let rowStep := Js.sign (row target - row (position p)) in
  let colStep := Js.sign (col target - col (position p)) in
  let currentRow := row (position p) + rowStep in
  let currentCol := col (position p) + colStep in
  if negb ((currentRow =? row target) && (currentCol =? col target)) then
    match Board_getPieceAt_foreign b (mkPosition currentRow currentCol) with
    | Some _ => Some false
    | None => None
    end
  else Some true.

Definition Pawn_canMoveTo_foreign (p : Piece) (b : Board) (target : Position)
  : option bool :=
  let rowDirection := match color p with WHITE => -1 | BLACK => 1 end in
  let startingRank := match color p with WHITE => 6 | BLACK => 1 end in
  let rowDiff := row target - row (position p) in
  let colDiff := col target - col (position p) in
  if (colDiff =? 0) && (rowDiff =? rowDirection) then
    match Board_getPieceAt_foreign b target with
    | Some _ => Some false
    | None => None
    end
  else if (colDiff =? 0) && (rowDiff =? 2 * rowDirection)
          && (row (position p) =? startingRank) then
    let intermediatePos :=
      mkPosition (row (position p) + rowDirection) (col (position p)) in
    match Board_getPieceAt_foreign b intermediatePos with
    | Some _ => Some false
    | None => None
    end
  else if (Js.abs colDiff =? 1) && (rowDiff =? rowDirection) then
    match Board_getPieceAt_foreign b target with
    | Some targetPiece =>
        let regularCapture := negb (Color_eqb (color targetPiece) (color p)) in
        let enPassantCapture :=
          match Board_getEnPassantTarget b with
          | Some ep => Position_equals target ep
          | None => false
          end in
        Some (regularCapture || enPassantCapture)
    | None => None
    end
  else Some false.

Definition Bishop_canMoveTo_foreign (p : Piece) (b : Board)
    (target : Position) : option bool :=
  let rowDiff := Js.abs (row target - row (position p)) in
  let colDiff := Js.abs (col target - col (position p)) in
  if rowDiff =? colDiff then Piece_isPathClear_foreign p b target
  else Some false.

Definition Rook_canMoveTo_foreign (p : Piece) (b : Board) (target : Position)
  : option bool :=
  if (row (position p) =? row target) || (col (position p) =? col target)
  then Piece_isPathClear_foreign p b target
  else Some false.

Definition Queen_canMoveTo_foreign (p : Piece) (b : Board)
    (target : Position) : option bool :=
  let rowDiff := Js.abs (row target - row (position p)) in
  let colDiff := Js.abs (col target - col (position p)) in
  if rowDiff =? colDiff then Piece_isPathClear_foreign p b target
  else if (row (position p) =? row target) || (col (position p) =? col target)
  then Piece_isPathClear_foreign p b target
  else Some false.

Definition King_canMoveTo_foreign (p : Piece) (b : Board) (target : Position)
  : option bool :=
  let rowDiff := Js.abs (row target - row (position p)) in
  let colDiff := Js.abs (col target - col (position p)) in
  if (rowDiff <=? 1) && (colDiff <=? 1) then Some true
  else if negb (hasMoved p) && (rowDiff =? 0) && (colDiff =? 2) then
    let isKingside := col (position p) <? col target in
    let rookCol := if isKingside then 7 else 0 in
    let rookPosition := mkPosition (row (position p)) rookCol in
    match Board_getPieceAt_foreign b rookPosition with
    | None => None
    | Some rook =>
        if negb (Ascii.eqb (Js.toLowerCase (Piece_symbol rook)) "r")
           || negb (Color_eqb (color rook) (color p))
           || hasMoved rook
        then Some false
        else
          let colStart := Z.min (col (position p)) rookCol in
          let colEnd := Z.max (col (position p)) rookCol in
          (* the first iteration of the loop returns or throws *)
          match range (colStart + 1) colEnd with
          | [] => Some true
          | c :: _ =>
              match Board_getPieceAt_foreign b
                      (mkPosition (row (position p)) c) with
              | Some _ => Some false
              | None => None
              end
          end
    end
  else Some false.

Definition Piece_canMoveTo_foreign (p : Piece) (b : Board) (target : Position)
  : option bool :=
  match kind p with
  | Pawn => Pawn_canMoveTo_foreign p b target
  | Knight => Some (Knight_canMoveTo p b target)
  | Bishop => Bishop_canMoveTo_foreign p b target
  | Rook => Rook_canMoveTo_foreign p b target
  | Queen => Queen_canMoveTo_foreign p b target
  | King => King_canMoveTo_foreign p b target
  end.

Definition Piece_isValidMove_foreign (p : Piece) (b : Board)
    (target : Position) : option bool :=
  if negb (Position_isValid target) then Some false
  else if Position_equals (position p) target then Some false
  else
    match Board_getPieceAt_foreign b target with
    | Some targetPiece =>
        if Color_eqb (color targetPiece) (color p) then Some false
        else Piece_canMoveTo_foreign p b target
    | None => None
    end.

(** The body of the loop of [isSquareAttacked]: kings and pawns are
    judged without a look at the array. *)
Definition attacks_foreign (b : Board) (pos : Position) (attackerColor : Color)
    (attacker : Piece) : option bool :=
  match kind attacker with
  | King | Pawn => Some (attacks b pos attackerColor attacker)
  | _ => Piece_isValidMove_foreign attacker b pos
  end.

(** The loop of [isSquareAttacked]: it returns at the first attacker and
    is left by the first exception. *)
Fixpoint firstAttacker (f : Piece -> option bool) (attackers : list Piece)
  : option bool :=
  match attackers with
  | [] => Some false
  | attacker :: rest =>
      match f attacker with
      | Some true => Some true
      | Some false => firstAttacker f rest
      | None => None
      end
  end.

Definition Board_isSquareAttacked_foreign (b : Board) (pos : Position)
    (attackerColor : Color) : option bool :=
  firstAttacker (attacks_foreign b pos attackerColor)
    (Board_getPiecesByColor b attackerColor).

Definition Board_isKingInCheck_foreign (b : Board) (kingColor : Color)
  : option bool :=
  match Board_getKing b kingColor with
  | None => Some false
  | Some king =>
      Board_isSquareAttacked_foreign b (position king) (opponent kingColor)
  end.

(* ================================================================== *)
(** * game.js: class Game *)
(* ================================================================== *)

(** A record of [moveHistory].  [move_piece] and the two optional
    pieces are references to piece objects in the source; the engine
    later reads their class only, so the snapshot taken when the move
    is recorded serves. *)
Record Move : Type := mkMove {
  move_piece : Piece;
  move_from : Js.value;
  move_to : Js.value;
  move_capturedPiece : option Piece;
  move_isPromotion : bool;
  move_promotedTo : option Piece;
  move_isCastling : bool;
  move_isEnPassant : bool;
  move_notation : string
}.

Record Game : Type := mkGame {
  board : Board;
  currentTurn : Color;
  moveHistory : list Move;
  positionHistory : list string;
  halfMoveClock : Js.number;
  fullMoveNumber : Js.number;
  gameStatus : GameStatus
}.

(** [new Game()] *)
Definition Game_new : Game :=
  mkGame Board_new WHITE [] [Board_getPositionSignature Board_new]
         (Js.Num 0) (Js.Num 1) ACTIVE.

(** The disambiguation candidates of [generateMoveNotation].  The
    source also asks [p !== piece]; the moving piece stands on [to]
    when the notation is built, where [isValidMove] is false for it, so
    that conjunct never decides. *)
Definition otherPieces (b : Board) (piece : Piece) (to : Position)
  : list Piece :=
  filter
    (fun p =>
       Kind_eqb (kind p) (kind piece)
       && Color_eqb (color p) (color piece)
       && Piece_isValidMove p b to)
    (pieces b).

Definition disambiguation (b : Board) (piece : Piece) (from to : Position)
  : string :=
  let others := otherPieces b piece to in
  if nonEmpty others then
    let sameFile := existsb (fun p => col (position p) =? col from) others in
    let sameRank := existsb (fun p => row (position p) =? row from) others in
    if negb sameFile then Js.valueAt (Position_toAlgebraic from) 0
    else if negb sameRank then Js.valueAt (Position_toAlgebraic from) 1
    else Js.toString (Position_toAlgebraic from)
  else EmptyString.

Definition checkSuffix (b : Board) (turn : Color) : string :=
  let opponentColor := opponent turn in
  if Board_isCheckmate b opponentColor then "#"%string
  else if Board_isKingInCheck b opponentColor then "+"%string
  else EmptyString.

(** [generateMoveNotation(moveResult)], read on the board and the turn
    the game has when it is called. *)
Definition Game_generateMoveNotation (b : Board) (turn : Color)
    (r : MoveResult) : string :=
  if res_isCastling r then
    if col (res_from r) <? col (res_to r) then "O-O"%string
    else "O-O-O"%string
  else
    let capture := isSome (res_capturedPiece r) || res_isEnPassant r in
    let prefix :=
      if negb (Kind_eqb (kind (res_piece r)) Pawn) then
        String.append (Piece_abbreviation (res_piece r))
          (disambiguation b (res_piece r) (res_from r) (res_to r))
      else if capture then Js.valueAt (Position_toAlgebraic (res_from r)) 0
      else EmptyString in
    let captureMark := if capture then "x"%string else EmptyString in
    let promotion :=
      match res_isPromotion r, res_promotedTo r with
      | true, Some promoted =>
          String.append "=" (Piece_abbreviation promoted)
      | _, _ => EmptyString
      end in
    String.append prefix
      (String.append captureMark
         (String.append (Js.toString (Position_toAlgebraic (res_to r)))
            (String.append promotion (checkSuffix b turn)))).

(** The status [updateGameStatus()] assigns, from the fields it reads. *)
Definition computeStatus (b : Board) (turn : Color)
    (history : list string) (clock : Js.number) : GameStatus :=
  let opponentColor := turn in
  if Board_isCheckmate b opponentColor then
    match opponentColor with
    | WHITE => CHECKMATE_BLACK
    | BLACK => CHECKMATE_WHITE
    end
  else if Board_isStalemate b opponentColor then DRAW_STALEMATE
  else if Board_isInsufficientMaterial b then DRAW_INSUFFICIENT
  else if 3 <=? countOccurrences (Board_getPositionSignature b) history
  then DRAW_REPETITION
  else if Js.geb clock 100 then DRAW_FIFTY_MOVE
  else if Board_isKingInCheck b opponentColor then CHECK
  else ACTIVE.

(** [updateGameStatus()] *)
Definition Game_updateGameStatus (g : Game) : Game :=
  mkGame (board g) (currentTurn g) (moveHistory g) (positionHistory g)
         (halfMoveClock g) (fullMoveNumber g)
         (computeStatus (board g) (currentTurn g) (positionHistory g)
            (halfMoveClock g)).

(** A square handed to [makeMove]: algebraic text or a [Position]. *)
Inductive SquareArg : Type :=
| Algebraic (text : string)
| Coordinates (pos : Position).

Definition resolveSquare (a : SquareArg) : option Position :=
  match a with
  | Algebraic text => Position_fromAlgebraic text
  | Coordinates pos => Some pos
  end.

(** The ways a call of [makeMove] ends.
    - [MoveMade]: [{success: true, move, gameStatus}].
    - [MoveRejected]: [{success: false, error}].
    - [MoveThrew]: an exception left the call while the live board was
      still untouched ([fromAlgebraic] on a malformed square, or a
      [TypeError] on the clone).
    - [MoveAbandoned]: an exception left the call after [movePiece] had
      run on the live board.  The game given next to it has the board
      [movePiece] left, whose array ends, behind the pieces listed, with
      the [String] wrapper that no [Piece] stands for.
    - [MoveUnmodelled]: the live board answered [movePiece] otherwise
      than its clone did, which never happens
      ([makeMove_never_unmodelled]). *)
Inductive MakeMoveResult : Type :=
| MoveMade (move : Move) (status : GameStatus)
| MoveRejected (error : string)
| MoveThrew
| MoveAbandoned
| MoveUnmodelled.

(** The half-move clock after a move of [piece] with that capture. *)
Definition nextHalfMoveClock (clock : Js.number) (piece : Piece)
    (captured : option Piece) : Js.number :=
  if Kind_eqb (kind piece) Pawn || isSome captured then Js.Num 0
  else Js.incr clock.

(** [makeMove(from, to, promotionPiece)]: the result and the game the
    call leaves behind. *)
Definition Game_makeMove (g : Game) (from to : SquareArg)
    (promotionPiece : string) : MakeMoveResult * Game :=
  match resolveSquare from with
  | None => (MoveThrew, g)
  | Some fromPos =>
  match resolveSquare to with
  | None => (MoveThrew, g)
  | Some toPos =>
  let turnError :=
    MoveRejected
      (String.append "Not " (String.append (Color_name (currentTurn g))
                                           "'s turn")) in
  match Board_getPieceAt (board g) fromPos with
  | None => (turnError, g)
  | Some piece =>
    if negb (Color_eqb (color piece) (currentTurn g)) then (turnError, g)
    else
      let tempBoard := Board_clone (board g) in
      match Board_movePiece tempBoard fromPos toPos promotionPiece with
      | MoveFailure error => (MoveRejected error, g)
      | MoveTypeError _ => (MoveThrew, g)
      | MoveForeignObject tempBoard' =>
        (* [moveResult.success] is true, and the array of the clone now
           ends with the wrapper *)
        match Board_isKingInCheck_foreign tempBoard' (currentTurn g) with
        | None => (MoveThrew, g)
        | Some true => (MoveRejected "Move would leave king in check", g)
        | Some false =>
          match Board_movePiece (board g) fromPos toPos promotionPiece with
          | MoveForeignObject b' =>
              (* only a pawn promotes, so [piece instanceof Pawn] resets
                 the clock; then [getPositionSignature] reads [symbol]
                 and [position] of the wrapper, in its comparator or in
                 its loop, and throws before anything is pushed *)
              (MoveAbandoned,
               mkGame b' (currentTurn g) (moveHistory g) (positionHistory g)
                      (Js.Num 0) (fullMoveNumber g) (gameStatus g))
          | MoveSuccess _ _ | MoveFailure _ | MoveTypeError _ =>
              (MoveUnmodelled, g)
          end
        end
      | MoveSuccess _ tempBoard' =>
        if Board_isKingInCheck tempBoard' (currentTurn g) then
          (MoveRejected "Move would leave king in check", g)
        else
          match Board_movePiece (board g) fromPos toPos promotionPiece with
          | MoveSuccess result b' =>
              let clock :=
                nextHalfMoveClock (halfMoveClock g) piece
                  (res_capturedPiece result) in
              let positions :=
                positionHistory g ++ [Board_getPositionSignature b'] in
              let move :=
                mkMove (res_piece result)
                  (Position_toAlgebraic fromPos) (Position_toAlgebraic toPos)
                  (res_capturedPiece result) (res_isPromotion result)
                  (res_promotedTo result) (res_isCastling result)
                  (res_isEnPassant result)
                  (Game_generateMoveNotation b' (currentTurn g) result) in
              let moves := moveHistory g ++ [move] in
              let number :=
                match currentTurn g with
                | BLACK => Js.incr (fullMoveNumber g)
                | WHITE => fullMoveNumber g
                end in
              let turn := opponent (currentTurn g) in
              let g' :=
                Game_updateGameStatus
                  (mkGame b' turn moves positions clock number (gameStatus g))
              in (MoveMade move (gameStatus g'), g')
          | MoveFailure _ | MoveTypeError _ | MoveForeignObject _ =>
              (MoveUnmodelled, g)
          end
      end
  end
  end
  end.

(** The helper [findRook] of [getFEN] and [loadFEN]. *)
Definition homeRow (c : Color) : Z :=
  match c with WHITE => 7 | BLACK => 0 end.

Definition findRook (b : Board) (c : Color) (column : Z) : option Piece :=
  match Board_getPieceAt b (mkPosition (homeRow c) column) with
  | Some piece =>
      if Kind_eqb (kind piece) Rook && Color_eqb (color piece) c
      then Some piece else None
  | None => None
  end.

(** One letter of the castling field of [getFEN]. *)
Definition castlingRight (b : Board) (c : Color) (column : Z)
    (letter : string) : string :=
  match Board_getKing b c, findRook b c column with
  | Some king, Some rook =>
      if negb (hasMoved king) && negb (hasMoved rook) then letter
      else EmptyString
  | _, _ => EmptyString
  end.

Definition castlingField (b : Board) : string :=
  let castling :=
    String.append (castlingRight b WHITE 7 "K")
      (String.append (castlingRight b WHITE 0 "Q")
         (String.append (castlingRight b BLACK 7 "k")
                        (castlingRight b BLACK 0 "q"))) in
  if String.eqb castling "" then "-"%string else castling.

Definition turnLetter (c : Color) : string :=
  match c with WHITE => "w"%string | BLACK => "b"%string end.

(** [getFEN()] *)
Definition Game_getFEN (g : Game) : string :=
  String.append (Board_toFEN (board g))
  (String.append " " (String.append (turnLetter (currentTurn g))
  (String.append " " (String.append (castlingField (board g))
  (String.append " "
     (String.append (enPassantText (Board_getEnPassantTarget (board g)))
  (String.append " "
     (String.append (Js.numberToString (halfMoveClock g))
  (String.append " " (Js.numberToString (fullMoveNumber g))))))))))).

Definition setHasMoved (v : bool) (p : Piece) : Piece :=
  mkPiece (kind p) (color p) (position p) v.

(** [loadFEN]: every king and rook is first marked as moved. *)
Definition markKingsAndRooks (ps : list Piece) : list Piece :=
  map (fun piece =>
         if Kind_eqb (kind piece) King || Kind_eqb (kind piece) Rook
         then setHasMoved true piece else piece)
      ps.

(** [if (castling.includes(..) || ..) { king.hasMoved = false }] *)
Definition restoreKing (castling : string) (c : Color) (l1 l2 : ascii)
    (ps : list Piece) : list Piece :=
  if Js.includes castling l1 || Js.includes castling l2 then
    updateFirst (isKingOf c) (setHasMoved false) ps
  else ps.

(** [if (castling.includes(letter)) { rook = findRook(..); if (rook)
    rook.hasMoved = false }] *)
Definition restoreRook (castling : string) (letter : ascii) (c : Color)
    (column : Z) (ps : list Piece) : list Piece :=
  if Js.includes castling letter then
    match findRook (mkBoard ps None []) c column with
    | Some _ =>
        updateFirst (isAt (mkPosition (homeRow c) column))
          (setHasMoved false) ps
    | None => ps
    end
  else ps.

(** The castling part of [loadFEN] on the freshly loaded array. *)
Definition applyCastlingField (castling : string) (ps : list Piece)
  : list Piece :=
  let ps0 := markKingsAndRooks ps in
  if negb (String.eqb castling "-") then
    let ps1 := restoreKing castling WHITE "K" "Q" ps0 in
    let ps2 := restoreKing castling BLACK "k" "q" ps1 in
    let ps3 := restoreRook castling "K" WHITE 7 ps2 in
    let ps4 := restoreRook castling "Q" WHITE 0 ps3 in
    let ps5 := restoreRook castling "k" BLACK 7 ps4 in
    restoreRook castling "q" BLACK 0 ps5
  else ps0.

(** [Game.loadFEN(fen)]: the returned flag and the game left behind. *)
Definition Game_loadFEN (g : Game) (fen : string) : bool * Game :=
  match Js.split " " (Js.trim fen) with
  | [placement; active; castling; enPassant; halfMove; fullMove] =>
    let '(ok, b1) := Board_loadFEN (board g) placement in
    if negb ok then
      (false, mkGame b1 (currentTurn g) (moveHistory g) (positionHistory g)
                (halfMoveClock g) (fullMoveNumber g) (gameStatus g))
    else
      let turn := if String.eqb active "w" then WHITE else BLACK in
      let ps := applyCastlingField castling (pieces b1) in
      let target :=
        if negb (String.eqb enPassant "-")
        then option_map Some (Position_fromAlgebraic enPassant)
        else Some None in
      match target with
      | None =>
        (false,
         mkGame (mkBoard ps (enPassantTarget b1) (capturedPieces b1)) turn
           (moveHistory g) (positionHistory g)
           (halfMoveClock g) (fullMoveNumber g) (gameStatus g))
      | Some ep =>
        let b2 := mkBoard ps ep (capturedPieces b1) in
        let clock := Js.parseInt halfMove in
        if Js.isNaN clock then
          (false, mkGame b2 turn (moveHistory g) (positionHistory g)
                    clock (fullMoveNumber g) (gameStatus g))
        else
          let number := Js.parseInt fullMove in
          if Js.isNaN number then
            (false, mkGame b2 turn (moveHistory g) (positionHistory g)
                      clock number (gameStatus g))
          else
            (true,
             Game_updateGameStatus
               (mkGame b2 turn [] [Board_getPositionSignature b2]
                  clock number (gameStatus g)))
      end
  | _ => (false, g)
  end.

(** [getMoveNotations()] *)
Definition Game_getMoveNotations (g : Game) : list string :=
  map move_notation (moveHistory g).




(** [reset()] *)
Definition Game_reset (g : Game) : Game :=
  let b := Board_new in
  mkGame b WHITE [] [Board_getPositionSignature b] (Js.Num 0) (Js.Num 1)
         ACTIVE.

(** The state the replay loop of [undoLastMove] carries. *)
Record Replay : Type := mkReplay {
  rp_board : Board;
  rp_turn : Color;
  rp_clock : Js.number;
  rp_number : Js.number
}.

(** The promotion argument the replay passes: the abbreviation of the
    promoted piece, else [null], which as a property key is the text
    ["null"]. *)
Definition replayPromotion (m : Move) : string :=
  match move_isPromotion m, move_promotedTo m with
  | true, Some promoted => Piece_abbreviation promoted
  | _, _ => "null"%string
  end.

(** One iteration of the replay loop; [None] when [fromAlgebraic]
    throws. *)
Definition replayStep (s : Replay) (m : Move) : option Replay :=
  match Position_fromAlgebraic_value (move_from m) with
  | None => None
  | Some fromPos =>
    match Position_fromAlgebraic_value (move_to m) with
    | None => None
    | Some toPos =>
      let tempBoard :=
        boardAfter (rp_board s)
          (Board_movePiece (rp_board s) fromPos toPos (replayPromotion m)) in
      let turn := opponent (rp_turn s) in
      let clock :=
        nextHalfMoveClock (rp_clock s) (move_piece m) (move_capturedPiece m) in
      let number :=
        match turn with
        | WHITE => Js.incr (rp_number s)
        | BLACK => rp_number s
        end in
      Some (mkReplay tempBoard turn clock number)
    end
  end.

(** The replay loop: the state reached, and whether an iteration
    threw there. *)
Fixpoint replayMoves (s : Replay) (moves : list Move) : Replay * bool :=
  match moves with
  | [] => (s, false)
  | m :: rest =>
      match replayStep s m with
      | Some s' => replayMoves s' rest
      | None => (s, true)
      end
  end.

(** The ways a call of [undoLastMove] ends: it returns a flag, or an
    exception leaves the replay loop. *)
Inductive UndoResult : Type :=
| UndoReturned (undone : bool)
| UndoThrew.

(** [undoLastMove()]: the result and the game the call leaves behind. *)
Definition Game_undoLastMove (g : Game) : UndoResult * Game :=
  match moveHistory g with
  | [] => (UndoReturned false, g)
  | _ :: _ =>
    let moves := removelast (moveHistory g) in
    let positions := removelast (positionHistory g) in
    let '(s, threw) :=
      replayMoves (mkReplay Board_new WHITE (Js.Num 0) (Js.Num 1)) moves in
    if threw then
      (UndoThrew,
       mkGame (board g) (rp_turn s) moves positions (rp_clock s)
              (rp_number s) (gameStatus g))
    else
      (UndoReturned true,
       Game_updateGameStatus
         (mkGame (rp_board s) (rp_turn s) moves positions (rp_clock s)
                 (rp_number s) (gameStatus g)))
  end.

(* ================================================================== *)
(** * chess-engine.js *)
(* ================================================================== *)

(** [loadGameFromFEN(fen)] of chess-engine.js; [None] stands for the
    thrown [Error]. *)
Definition loadGameFromFEN (fen : string) : option Game :=
  let game := Game_new in
  let '(success, game') := Game_loadFEN game fen in
  if negb success then None else Some game'.

(* ================================================================== *)
(** * Notions used in the statements *)
(* ================================================================== *)

(** ** Invariants of the board *)

(** No two pieces of the array share a coordinate. *)
Definition noSharedSquare (ps : list Piece) : Prop :=
  NoDup (map position ps).

(** No piece of the array stands on [pos]. *)
Definition vacant (ps : list Piece) (pos : Position) : Prop :=
  forall q, In q ps -> position q <> pos.

(** The piece stands on one of the 64 squares. *)
Definition onBoard (p : Piece) : Prop := Position_isValid (position p) = true.

(** While [loadFEN] reads row [r] and has reached column [c]: the piece
    was created on an earlier square. *)
Definition before (r c : Z) (p : Piece) : Prop :=
  row (position p) < r \/ (row (position p) = r /\ col (position p) < c).

(** Two arrays show the same colours on the same squares. *)
Definition sameOccupancy (ps qs : list Piece) : Prop :=
  forall sq, option_map color (pieceAt ps sq) = option_map color (pieceAt qs sq).

(** ** Errors of makeMove *)

(** The message of [makeMove] for a move out of turn. *)
Definition wrongTurnError (g : Game) : string :=
  String.append "Not " (String.append (Color_name (currentTurn g)) "'s turn").

(** The message of [makeMove] for a move that exposes the king. *)
Definition selfCheckError : string := "Move would leave king in check".

(** The source square holds no piece of the side to move. *)
Definition noPieceToMove (g : Game) (fromPos : Position) : Prop :=
  match Board_getPieceAt (board g) fromPos with
  | None => True
  | Some piece => color piece <> currentTurn g
  end.

(** ** Games reachable from the initial position *)

(** The games a sequence of successful [makeMove] calls leads to from
    [new Game()]. *)
Inductive Reachable : Game -> Prop :=
| Reachable_new : Reachable Game_new
| Reachable_move (g g' : Game) (from to : SquareArg) (promo : string)
    (move : Move) (status : GameStatus) :
    Reachable g ->
    Game_makeMove g from to promo = (MoveMade move status, g') ->
    Reachable g'.

(** The state the replay loop of [undoLastMove] starts from. *)
Definition replayStart : Replay :=
  mkReplay Board_new WHITE (Js.Num 0) (Js.Num 1).

(** The part of a game the replay loop rebuilds. *)
Definition stateOf (g : Game) : Replay :=
  mkReplay (board g) (currentTurn g) (halfMoveClock g) (fullMoveNumber g).

(** The key the replay of [undoLastMove] passes for the move that had
    this result. *)
Definition replayKey (r : MoveResult) : string :=
  match res_isPromotion r, res_promotedTo r with
  | true, Some promoted => Piece_abbreviation promoted
  | _, _ => "null"%string
  end.

(** What holds of every reachable game: the pieces stand on distinct
    squares of the board, so does the en-passant target if there is
    one, the clocks are numbers, replaying the move history from the
    start rebuilds board, turn and clocks, and the status is the one
    [updateGameStatus] computes. *)
Record Sound (g : Game) : Prop := mkSound {
  sound_unique : noSharedSquare (pieces (board g));
  sound_onBoard : Forall onBoard (pieces (board g));
  sound_enPassant :
    forall ep, enPassantTarget (board g) = Some ep ->
               Position_isValid ep = true;
  sound_clock : exists h, halfMoveClock g = Js.Num h;
  sound_number : exists n, fullMoveNumber g = Js.Num n;
  sound_replay :
    replayMoves replayStart (moveHistory g) = (stateOf g, false);
  sound_status :
    gameStatus g
    = computeStatus (board g) (currentTurn g) (positionHistory g)
        (halfMoveClock g)
}.

(** ** FEN text *)

(** The fields [Game.loadFEN] splits its input into. *)
Definition fieldsOf (fen : string) : list string :=
  Js.split " " (Js.trim fen).

(** Every character of the string passes the test. *)
Fixpoint allChars (f : ascii -> bool) (s : string) : bool :=
  match s with
  | EmptyString => true
  | String c r => f c && allChars f r
  end.

(** A character that may stand in a rank of a placement text: a digit
    from 1 to 8 or a piece letter. *)
Definition rankChar (ch : ascii) : bool :=
  isOneToEight ch || isSome (pieceOfChar ch).

(** The columns a rank fills: a digit as many as it says, a letter
    one. *)
Fixpoint rankColumns (chars : string) : Z :=
  match chars with
  | EmptyString => 0
  | String ch rest =>
      (if isOneToEight ch then Js.digitValue ch else 1) + rankColumns rest
  end.

(** The pieces the characters of rank [r] stand for, from column [c]
    on and up to the first character that is no rank character: fresh
    pieces, each on the column the characters in front of it add up
    to. *)
Fixpoint piecesOfRank (r c : Z) (chars : string) : list Piece :=
  match chars with
  | EmptyString => []
  | String ch rest =>
      if isOneToEight ch then piecesOfRank r (c + Js.digitValue ch) rest
      else
        match pieceOfChar ch with
        | Some (k, colour) =>
            Piece_new k colour (mkPosition r c) :: piecesOfRank r (c + 1) rest
        | None => []
        end
  end.

(** A rank of rank characters only that fills eight columns. *)
Definition fullRank (chars : string) : bool :=
  allChars rankChar chars && (rankColumns chars =? 8).

(** The pieces of the ranks [r], [r + 1], ... up to and including the
    first rank that is not full. *)
Fixpoint piecesRead (r : Z) (ranks : list string) : list Piece :=
  match ranks with
  | [] => []
  | chars :: rest =>
      piecesOfRank r 0 chars
      ++ (if fullRank chars then piecesRead (r + 1) rest else [])
  end.

(** A character that is neither white space nor the separator of the
    ranks. *)
Definition plain (c : ascii) : bool :=
  negb (Js.isWhiteSpace c) && negb (Ascii.eqb c "/").

(** A character [trim] keeps, and one [split(' ')] does not cut at. *)
Definition nonWhite (c : ascii) : bool := negb (Js.isWhiteSpace c).
Definition nonSpace (c : ascii) : bool := negb (Ascii.eqb c " ").

(** The piece [loadFEN] creates for the piece [toFEN] printed. *)
Definition reloadPiece (p : Piece) : Piece :=
  Piece_new (kind p) (color p) (position p).

(** What [loadFEN] creates for one square of the printed board. *)
Definition reloadSquare (b : Board) (sq : Position) : list Piece :=
  match Board_getPieceAt b sq with
  | Some p => [reloadPiece p]
  | None => []
  end.

(** The pieces found on the squares of a row, column by column. *)
Definition rowPieces (b : Board) (r : Z) (cols : list Z) : list Piece :=
  flat_map
    (fun c =>
       match Board_getPieceAt b (mkPosition r c) with
       | Some p => [reloadPiece p]
       | None => []
       end)
    cols.

(** The array [loadFEN] builds from the text [toFEN] printed. *)
Definition reloaded (b : Board) : list Piece :=
  flat_map (fun r => rowPieces b r (range 0 8)) (range 0 8).

(** The columns are [start], [start + 1], ... *)
Fixpoint consecutive (start : Z) (l : list Z) : Prop :=
  match l with
  | [] => True
  | x :: rest => x = start /\ consecutive (start + 1) rest
  end.

(** What the position signature reads of a piece. *)
Definition pieceKey (p : Piece) : Kind * Color * Position :=
  (kind p, color p, position p).

(** The place of the piece's symbol in the order of [localeCompare]. *)
Definition rank (p : Piece) : Z := symbolRank (Piece_symbol p).

(** ** Example positions *)

(** A game played on from [g] with the default promotion. *)
Definition playFrom (g : Game) (moves : list (string * string)) : Game :=
  fold_left
    (fun g m =>
       snd (Game_makeMove g (Algebraic (fst m)) (Algebraic (snd m)) "Q"))
    moves g.

Definition d2 : Position := mkPosition 6 3.
Definition e1 : Position := mkPosition 7 4.
Definition f1 : Position := mkPosition 7 5.
Definition g1 : Position := mkPosition 7 6.

(** 1. e4 e5 2. Qh5, Black to move: the pawn on f7 shields the king
    from the queen. *)
Definition pinnedPawnGame : Game :=
  playFrom Game_new [("e2", "e4"); ("e7", "e5"); ("d1", "h5")]%string.

(** 1. e4 e6 2. Nf3 b6 3. Ba6 Bxa6: the black bishop on a6 looks down
    the open diagonal at f1, and White may still castle short. *)
Definition bishopEyesF1 : Game :=
  playFrom Game_new
    [("e2", "e4"); ("e7", "e6"); ("g1", "f3"); ("b7", "b6");
     ("f1", "a6"); ("c8", "a6")]%string.

(** 1. d4 d5 2. Nf3 e6: both white knights can go to d2. *)
Definition twoKnightsReachD2 : Game :=
  playFrom Game_new
    [("d2", "d4"); ("d7", "d5"); ("g1", "f3"); ("e7", "e6")]%string.

(** A white pawn on a7 about to promote, kings on e8 and e1. *)
Definition pawnOnSeventh : Board :=
  mkBoard [Piece_new King BLACK (mkPosition 0 4);
           Piece_new Pawn WHITE (mkPosition 1 0);
           Piece_new King WHITE (mkPosition 7 4)]
          None [].

(** A FEN text with a well-formed placement and a clock that is no
    number, and one whose placement is no rank at all. *)
Definition fenBadClock : string := "8/8/8/8/8/8/8/8 b - - x 1".
Definition fenBadPlacement : string := "x w - - 0 1".

(** Eight ranks, the second of which stops at a character that is no
    piece letter: the eight pieces of the first rank and the four pawns
    in front of the [x] are read. *)
Definition fenBadRank : string := "rnbqkbnr/ppppxppp/8/8/8/8/8/8".

(** The knights go out and home: before Black's last retreat the
    initial position has stood on the board twice. *)
Definition knightsOutAndHome : Game :=
  playFrom Game_new
    [("g1", "f3"); ("g8", "f6"); ("f3", "g1"); ("f6", "g8");
     ("g1", "f3"); ("g8", "f6"); ("f3", "g1")]%string.

(** The initial position with a half-move clock of 99. *)
Definition clockAtNinetyNine : Game :=
  snd (Game_loadFEN Game_new
         "rnbqkbnr/pppppppp/8/8/8/8/PPPPPPPP/RNBQKBNR w KQkq - 99 60").

(** 1. a4 b5 2. axb5 a6 3. bxa6 Bb7 4. axb7 Nf6, White to move: the
    pawn on b7 can take the rook on a8 and promote. *)
Definition pawnTakesToPromote : Game :=
  playFrom Game_new
    [("a2", "a4"); ("b7", "b5"); ("a4", "b5"); ("a7", "a6");
     ("b5", "a6"); ("c8", "b7"); ("a6", "b7"); ("g8", "f6")]%string.

(** ** Shapes of moves, loaded boards and counters *)

(** The squares strictly between a piece and a target on its rank,
    file or diagonal. *)
Definition squaresBetween (p : Piece) (target : Position) (sq : Position)
  : Prop :=
  let dr := row target - row (position p) in
  let dc := col target - col (position p) in
  exists k,
    0 < k < Z.max (Js.abs dr) (Js.abs dc)
    /\ sq = mkPosition (row (position p) + k * Js.sign dr)
                       (col (position p) + k * Js.sign dc).

(** The direction a pawn of the colour walks in, and the row its
    double step starts from. *)
Definition rowDirectionOf (c : Color) : Z :=
  match c with WHITE => -1 | BLACK => 1 end.

Definition startingRankOf (c : Color) : Z :=
  match c with WHITE => 6 | BLACK => 1 end.

(** The shape of a move of each class, as displacements of row and
    column. *)
Definition moveShape (p : Piece) (target : Position) : Prop :=
  let dr := row target - row (position p) in
  let dc := col target - col (position p) in
  match kind p with
  | Pawn =>
      (dr = rowDirectionOf (color p) /\ Z.abs dc <= 1)
      \/ (dr = 2 * rowDirectionOf (color p) /\ dc = 0
          /\ row (position p) = startingRankOf (color p))
  | Knight =>
      (Z.abs dr = 2 /\ Z.abs dc = 1) \/ (Z.abs dr = 1 /\ Z.abs dc = 2)
  | Bishop => Z.abs dr = Z.abs dc
  | Rook => dr = 0 \/ dc = 0
  | Queen => Z.abs dr = Z.abs dc \/ dr = 0 \/ dc = 0
  | King =>
      (Z.abs dr <= 1 /\ Z.abs dc <= 1)
      \/ (dr = 0 /\ Z.abs dc = 2 /\ hasMoved p = false)
  end.

(** Boolean tests on integers, read as propositions. *)
Ltac bool_to_Z :=
  repeat match goal with
         | H : _ && _ = true |- _ => apply andb_true_iff in H as [? ?]
         | H : _ || _ = true |- _ => apply orb_true_iff in H as [?|?]
         | H : (_ =? _) = true |- _ => apply Z.eqb_eq in H
         | H : (_ <=? _) = true |- _ => apply Z.leb_le in H
         | H : (_ <? _) = true |- _ => apply Z.ltb_lt in H
         | H : negb _ = true |- _ => apply negb_true_iff in H
         end.

(** The entry [getAllLegalMoves] records for a piece. *)
Definition legalMovesEntry (b : Board) (piece : Piece)
  : string * list Position :=
  (Js.toString (Position_toAlgebraic (position piece)),
   Board_getLegalMovesForPiece b (Some piece)).

(** The test [moves.length > 0] of [getAllLegalMoves] and
    [hasLegalMoves]. *)
Definition hasLegalMove (b : Board) (piece : Piece) : bool :=
  nonEmpty (Board_getLegalMovesForPiece b (Some piece)).

(** While [loadFEN] reads row [r] and has reached column [c]: the piece
    is fresh and stands on a square read before. *)
Definition placed (r c : Z) (p : Piece) : Prop :=
  hasMoved p = false
  /\ 0 <= row (position p) /\ 0 <= col (position p)
  /\ ((row (position p) < r /\ col (position p) < 8)
      \/ (row (position p) = r /\ col (position p) < c)).

(** [undoLastMove()] called [n] times in a row. *)
Fixpoint undoTimes (n : nat) (g : Game) : Game :=
  match n with
  | O => g
  | S n' => undoTimes n' (snd (Game_undoLastMove g))
  end.

(** What the counters of a game say about its move history. *)
Record Counted (g : Game) : Prop := mkCounted {
  counted_positions :
    List.length (positionHistory g) = S (List.length (moveHistory g));
  counted_turn :
    currentTurn g
    = if Nat.even (List.length (moveHistory g)) then WHITE else BLACK;
  counted_number :
    fullMoveNumber g
    = Js.Num (1 + Z.of_nat (List.length (moveHistory g)) / 2);
  counted_clock :
    exists h, halfMoveClock g = Js.Num h
              /\ 0 <= h <= Z.of_nat (List.length (moveHistory g));
  counted_last :
    last (positionHistory g) EmptyString
    = Board_getPositionSignature (board g);
  counted_mover :
    Board_isKingInCheck (board g) (opponent (currentTurn g)) = false
}.

(** ** Kings, castling flags and the marks of the notation *)

(** The number of kings of a colour in the array. *)
Definition countKings (c : Color) (ps : list Piece) : nat :=
  List.length (filter (isKingOf c) ps).

(** What [getFEN] reads of the king of a colour and of the rook in a
    corner: whether there is one, and its [hasMoved] flag. *)
Definition kingFlag (c : Color) (ps : list Piece) : option bool :=
  option_map hasMoved (find (isKingOf c) ps).

(** The same for the rook [findRook] finds in a corner. *)
Definition rookFlag (c : Color) (column : Z) (ps : list Piece) : option bool :=
  option_map hasMoved (findRook (mkBoard ps None []) c column).

(** A flag after [hasMoved = v], if there is a piece to carry it. *)
Definition overwrite (v : bool) (flag : option bool) : option bool :=
  option_map (fun _ => v) flag.

(** Two corners named by colour and column are the same corner. *)
Definition sameCorner (c c' : Color) (column column' : Z) : bool :=
  Color_eqb c c' && (column =? column').

(** The letter of the castling field for a colour and a rook column. *)
Definition castlingLetter (c : Color) (column : Z) : ascii :=
  match c with
  | WHITE => if column =? 7 then "K"%char else "Q"%char
  | BLACK => if column =? 7 then "k"%char else "q"%char
  end.

(** The castling field makes [loadFEN] clear the flag of the king of
    the colour, respectively of the rook in the corner. *)
Definition namesKing (castling : string) (c : Color) : bool :=
  negb (String.eqb castling "-")
  && (Js.includes castling (castlingLetter c 7)
      || Js.includes castling (castlingLetter c 0)).

Definition namesRook (castling : string) (c : Color) (column : Z) : bool :=
  negb (String.eqb castling "-")
  && Js.includes castling (castlingLetter c column).

(** Whether [getFEN] prints the castling letter of a colour and a rook
    column. *)
Definition hasRight (ps : list Piece) (c : Color) (column : Z) : bool :=
  match kingFlag c ps, rookFlag c column ps with
  | Some k, Some r => negb k && negb r
  | _, _ => false
  end.

(** The last character of a text. *)
Fixpoint lastChar (s : string) : option ascii :=
  match s with
  | EmptyString => None
  | String c rest =>
      match lastChar rest with
      | Some d => Some d
      | None => Some c
      end
  end.


(** 1. f3 e5 2. g4, Black to move: Qh4 mates. *)
Definition beforeFoolsMate : Game :=
  playFrom Game_new [("f2", "f3"); ("e7", "e5"); ("g2", "g4")]%string.

(** 1. f3 e5 2. g4 Qh4: White is mated. *)
Definition afterFoolsMate : Game :=
  playFrom Game_new
    [("f2", "f3"); ("e7", "e5"); ("g2", "g4"); ("d8", "h4")]%string.

(* ================================================================== *)
(** * Basic facts *)
(* ================================================================== *)

Lemma Position_clone_id (p : Position) : Position_clone p = p.
Proof. destruct p; reflexivity. Qed.

Lemma Position_equals_iff (p q : Position) :
  Position_equals p q = true <-> p = q.
Proof.
  destruct p as [r c], q as [r' c']; unfold Position_equals; simpl.
  rewrite andb_true_iff, !Z.eqb_eq.
  split; [intros [-> ->]; reflexivity | intros [= -> ->]; split; reflexivity].
Qed.

Lemma isAt_iff (pos : Position) (p : Piece) :
  isAt pos p = true <-> position p = pos.
Proof.
  unfold isAt. destruct (position p) as [r c], pos as [r' c']; simpl.
  rewrite andb_true_iff, !Z.eqb_eq.
  split; [intros [-> ->]; reflexivity | intros [= -> ->]; split; reflexivity].
Qed.

Lemma isAt_position (p : Piece) : isAt (position p) p = true.
Proof. apply isAt_iff; reflexivity. Qed.

Lemma Piece_clone_id (p : Piece) : Piece_clone p = p.
Proof. destruct p; unfold Piece_clone; simpl; now rewrite Position_clone_id. Qed.

Lemma Board_clone_id (b : Board) : Board_clone b = b.
Proof.
  destruct b as [ps ep cs]; unfold Board_clone; simpl. f_equal.
  - rewrite <- (map_id ps) at 2. apply map_ext, Piece_clone_id.
  - destruct ep; simpl; [now rewrite Position_clone_id | reflexivity].
Qed.

Lemma Color_eqb_eq (a b : Color) : Color_eqb a b = true <-> a = b.
Proof. destruct a, b; simpl; split; intros; congruence. Qed.

Lemma Color_eqb_refl (a : Color) : Color_eqb a a = true.
Proof. destruct a; reflexivity. Qed.

Lemma Kind_eqb_eq (a b : Kind) : Kind_eqb a b = true <-> a = b.
Proof. destruct a, b; simpl; split; intros; congruence. Qed.

Lemma pieceAt_Some (ps : list Piece) (pos : Position) (p : Piece) :
  pieceAt ps pos = Some p -> In p ps /\ position p = pos.
Proof.
  unfold pieceAt; intros H. apply find_some in H as [Hin Hat].
  split; [assumption | now apply isAt_iff].
Qed.

Lemma pieceAt_None (ps : list Piece) (pos : Position) :
  pieceAt ps pos = None -> forall p, In p ps -> position p <> pos.
Proof.
  unfold pieceAt; intros H p Hin Heq.
  pose proof (find_none _ _ H p Hin) as Hn.
  apply isAt_iff in Heq. congruence.
Qed.

(** With the default key the promotion table answers with a class. *)
Lemma movePiece_default_normal (b : Board) (from to : Position) :
  (exists r b', Board_movePiece b from to "Q" = MoveSuccess r b')
  \/ (exists e, Board_movePiece b from to "Q" = MoveFailure e).
Proof.
  unfold Board_movePiece.
  destruct (Board_getPieceAt b from) as [piece|]; [|right; eauto].
  destruct (negb (Piece_isValidMove piece b to)); [right; eauto|].
  left. destruct (isPromotionMove piece to).
  - change (pieceConstructors "Q") with (OwnConstructor Queen). cbv beta iota zeta.
    destruct (castleRook _ _ _ _); eauto.
  - cbv zeta. destruct (castleRook _ _ _ _); eauto.
Qed.

(* ================================================================== *)
(** * The status after a committed move *)
(* ================================================================== *)

Lemma makeMove_made_inv (g g' : Game) (from to : SquareArg) (promo : string)
    (move : Move) (status : GameStatus) :
  Game_makeMove g from to promo = (MoveMade move status, g') ->
  exists fromPos toPos piece result b',
    resolveSquare from = Some fromPos
    /\ resolveSquare to = Some toPos
    /\ Board_getPieceAt (board g) fromPos = Some piece
    /\ color piece = currentTurn g
    /\ Board_movePiece (board g) fromPos toPos promo = MoveSuccess result b'
    /\ Board_isKingInCheck b' (currentTurn g) = false
    /\ move = mkMove (res_piece result)
                (Position_toAlgebraic fromPos) (Position_toAlgebraic toPos)
                (res_capturedPiece result) (res_isPromotion result)
                (res_promotedTo result) (res_isCastling result)
                (res_isEnPassant result)
                (Game_generateMoveNotation b' (currentTurn g) result)
    /\ g' = Game_updateGameStatus
              (mkGame b' (opponent (currentTurn g)) (moveHistory g ++ [move])
                 (positionHistory g ++ [Board_getPositionSignature b'])
                 (nextHalfMoveClock (halfMoveClock g) piece
                    (res_capturedPiece result))
                 (match currentTurn g with
                  | BLACK => Js.incr (fullMoveNumber g)
                  | WHITE => fullMoveNumber g
                  end)
                 (gameStatus g))
    /\ status = gameStatus g'.
Proof.
  unfold Game_makeMove. intros H.
  destruct (resolveSquare from) as [fromPos|]; [|discriminate].
  destruct (resolveSquare to) as [toPos|]; [|discriminate].
  destruct (Board_getPieceAt (board g) fromPos) as [piece|] eqn:Hget;
    [|discriminate].
  destruct (Color_eqb (color piece) (currentTurn g)) eqn:Hcol;
    [|discriminate].
  simpl negb in H. cbv iota in H. rewrite Board_clone_id in H.
  destruct (Board_movePiece (board g) fromPos toPos promo)
    as [result b'| | |b'] eqn:Hmove; try discriminate.
  2: { destruct (Board_isKingInCheck_foreign b' (currentTurn g)) as [[|]|];
       discriminate. }
  destruct (Board_isKingInCheck b' (currentTurn g)) eqn:Hcheck;
    [discriminate|].
  injection H as Hm Hs Hg.
  exists fromPos, toPos, piece, result, b'.
  apply Color_eqb_eq in Hcol.
  repeat split; try reflexivity; try assumption; try (symmetry; assumption).
  - subst move. symmetry. exact Hg.
  - subst g'. symmetry. subst move. exact Hs.
Qed.

(** A board and its clone answer [movePiece] alike, so the branches of
    [Game_makeMove] for a live board that disagrees with its clone are
    never taken. *)
Lemma makeMove_never_unmodelled (g : Game) (from to : SquareArg)
    (promo : string) :
  fst (Game_makeMove g from to promo) <> MoveUnmodelled.
Proof.
  unfold Game_makeMove.
  destruct (resolveSquare from) as [fromPos|]; [|discriminate].
  destruct (resolveSquare to) as [toPos|]; [|discriminate].
  destruct (Board_getPieceAt (board g) fromPos) as [piece|]; [|discriminate].
  destruct (negb (Color_eqb (color piece) (currentTurn g))); [discriminate|].
  rewrite Board_clone_id.
  destruct (Board_movePiece (board g) fromPos toPos promo)
    as [result b'| | |b'] eqn:Hmove; try discriminate.
  - destruct (Board_isKingInCheck b' (currentTurn g)); discriminate.
  - destruct (Board_isKingInCheck_foreign b' (currentTurn g)) as [[|]|];
      discriminate.
Qed.

Lemma countOccurrences_count_occ (s : string) (l : list string) :
  countOccurrences s l = Z.of_nat (count_occ string_dec l s).
Proof.
  unfold countOccurrences. f_equal.
  induction l as [|x l IH]; [reflexivity|].
  cbn [filter count_occ].
  destruct (string_dec x s) as [->|Hne].
  - rewrite String.eqb_refl. cbn [List.length]. now rewrite IH.
  - destruct (String.eqb s x) eqn:E; [|exact IH].
    apply String.eqb_eq in E. congruence.
Qed.

Lemma repeated_three_times (s : string) (l : list string) :
  (3 <=? countOccurrences s l) = true <-> (3 <= count_occ string_dec l s)%nat.
Proof. rewrite countOccurrences_count_occ, Z.leb_le. lia. Qed.

Lemma clock_at_least (clock : Js.number) (k : Z) :
  Js.geb clock k = true <-> exists n, clock = Js.Num n /\ k <= n.
Proof.
  destruct clock as [|n]; cbn [Js.geb].
  - split; [discriminate | intros (n & H & _); discriminate].
  - rewrite Z.leb_le. split.
    + intros H. now exists n.
    + intros (m & [= <-] & H). exact H.
Qed.

(** C5.  After a committed move the status of the game is the one
    [updateGameStatus] assigns, and it is decided in this order:
    checkmate of the side to move, then stalemate, then insufficient
    material, then threefold repetition (at least three entries of the
    position history are the signature of the board), then the
    fifty-move rule (the half-move clock is a number of at least 100),
    then check, and [ACTIVE] when none of them holds.  A condition
    decides only when all the earlier ones are false. *)
Theorem status_precedence_after_move
    (g g' : Game) (from to : SquareArg) (promo : string)
    (move : Move) (status : GameStatus) :
  Game_makeMove g from to promo = (MoveMade move status, g') ->
  let b := board g' in
  let side := currentTurn g' in
  let mate := Board_isCheckmate b side in
  let stale := Board_isStalemate b side in
  let material := Board_isInsufficientMaterial b in
  let repeated :=
    (3 <= count_occ string_dec (positionHistory g')
            (Board_getPositionSignature b))%nat in
  let fifty := exists n, halfMoveClock g' = Js.Num n /\ 100 <= n in
  let check := Board_isKingInCheck b side in
  status = gameStatus g'
  /\ (mate = true ->
      gameStatus g' =
        match side with WHITE => CHECKMATE_BLACK | BLACK => CHECKMATE_WHITE end)
  /\ (mate = false -> stale = true -> gameStatus g' = DRAW_STALEMATE)
  /\ (mate = false -> stale = false -> material = true ->
      gameStatus g' = DRAW_INSUFFICIENT)
  /\ (mate = false -> stale = false -> material = false -> repeated ->
      gameStatus g' = DRAW_REPETITION)
  /\ (mate = false -> stale = false -> material = false -> ~ repeated ->
      fifty -> gameStatus g' = DRAW_FIFTY_MOVE)
  /\ (mate = false -> stale = false -> material = false -> ~ repeated ->
      ~ fifty -> check = true -> gameStatus g' = CHECK)
  /\ (mate = false -> stale = false -> material = false -> ~ repeated ->
      ~ fifty -> check = false -> gameStatus g' = ACTIVE).
Proof.
  intros H.
  destruct (makeMove_made_inv _ _ _ _ _ _ _ H)
    as (fromPos & toPos & piece & result & b' & _ & _ & _ & _ & _ & _ & _
        & Hg & Hs).
  subst g'. cbv zeta. split; [exact Hs|].
  unfold Game_updateGameStatus.
  cbn [gameStatus board currentTurn positionHistory halfMoveClock].
  unfold computeStatus.
  rewrite <- repeated_three_times, <- clock_at_least.
  repeat split; intros;
    repeat match goal with
           | E : ?x <> true |- _ => apply not_true_is_false in E
           | E : ?x = _ |- context [?x] => rewrite E
           end; reflexivity.
Qed.

Lemma status_precedence_after_move_witness :
  gameStatus
    (snd (Game_makeMove beforeFoolsMate (Algebraic "d8") (Algebraic "h4") "Q"))
  = CHECKMATE_BLACK
  /\ gameStatus
       (snd (Game_makeMove knightsOutAndHome (Algebraic "f6") (Algebraic "g8")
               "Q"))
     = DRAW_REPETITION
  /\ gameStatus
       (snd (Game_makeMove clockAtNinetyNine (Algebraic "g1") (Algebraic "f3")
               "Q"))
     = DRAW_FIFTY_MOVE.
Proof.
  split; [|split].
  - destruct (Game_makeMove beforeFoolsMate (Algebraic "d8") (Algebraic "h4")
                "Q") as [res g'] eqn:E.
    assert (Hres : exists m s, res = MoveMade m s).
    { apply (f_equal fst) in E. vm_compute in E. subst res. eauto. }
    destruct Hres as (m & s & ->).
    pose proof (status_precedence_after_move _ _ _ _ _ _ _ E) as P.
    cbv zeta in P. destruct P as (_ & Hmate & _).
    assert (Hg : g' = snd (Game_makeMove beforeFoolsMate (Algebraic "d8")
                             (Algebraic "h4") "Q")) by now rewrite E.
    unfold snd.
    assert (Hside : currentTurn g' = WHITE)
      by (clear - Hg; subst g'; vm_compute; reflexivity).
    rewrite Hside in Hmate. apply Hmate.
    clear - Hg; subst g'; vm_compute; reflexivity.
  - destruct (Game_makeMove knightsOutAndHome (Algebraic "f6") (Algebraic "g8")
                "Q") as [res g'] eqn:E.
    assert (Hres : exists m s, res = MoveMade m s).
    { apply (f_equal fst) in E. vm_compute in E. subst res. eauto. }
    destruct Hres as (m & s & ->).
    pose proof (status_precedence_after_move _ _ _ _ _ _ _ E) as P.
    cbv zeta in P. destruct P as (_ & _ & _ & _ & Hrepeated & _).
    assert (Hg : g' = snd (Game_makeMove knightsOutAndHome (Algebraic "f6")
                             (Algebraic "g8") "Q")) by now rewrite E.
    unfold snd.
    apply Hrepeated; clear - Hg; subst g'; vm_compute;
      first [reflexivity | lia].
  - destruct (Game_makeMove clockAtNinetyNine (Algebraic "g1") (Algebraic "f3")
                "Q") as [res g'] eqn:E.
    assert (Hres : exists m s, res = MoveMade m s).
    { apply (f_equal fst) in E. vm_compute in E. subst res. eauto. }
    destruct Hres as (m & s & ->).
    pose proof (status_precedence_after_move _ _ _ _ _ _ _ E) as P.
    cbv zeta in P. destruct P as (_ & _ & _ & _ & _ & Hfifty & _).
    assert (Hg : g' = snd (Game_makeMove clockAtNinetyNine (Algebraic "g1")
                             (Algebraic "f3") "Q")) by now rewrite E.
    unfold snd.
    apply Hfifty; clear - Hg; subst g';
      [vm_compute; reflexivity | vm_compute; reflexivity
      | vm_compute; reflexivity | vm_compute; lia
      | exists 100; split; [vm_compute; reflexivity | lia]].
Defined.

(* ================================================================== *)
(** * A move that is not made *)
(* ================================================================== *)

(** [movePiece] pushes the foreign object only in its promotion branch
    and only for the key that finds [Object]. *)
Lemma movePiece_foreign_inv (b b' : Board) (from to : Position)
    (promo : string) :
  Board_movePiece b from to promo = MoveForeignObject b' ->
  pieceConstructors promo = InheritedObject
  /\ exists piece,
       Board_getPieceAt b from = Some piece
       /\ kind piece = Pawn
       /\ Piece_isValidMove piece b to = true
       /\ isPromotionMove piece to = true.
Proof.
  unfold Board_movePiece.
  destruct (Board_getPieceAt b from) as [piece|]; [|discriminate].
  destruct (Piece_isValidMove piece b to) eqn:Hvalid; [|discriminate].
  cbn [negb]. cbv zeta.
  destruct (isPromotionMove piece to) eqn:Hpromotion.
  - destruct (pieceConstructors promo) eqn:Hkey;
      try match goal with
          | |- context [castleRook ?p ?f ?t ?l] =>
              destruct (castleRook p f t l)
          end; try discriminate.
    intros _. split; [reflexivity|]. exists piece.
    split; [reflexivity|]. split; [|split; assumption].
    unfold isPromotionMove in Hpromotion.
    apply andb_true_iff in Hpromotion as [Hpawn _].
    now apply Kind_eqb_eq.
  - match goal with
    | |- context [castleRook ?p ?f ?t ?l] => destruct (castleRook p f t l)
    end. discriminate.
Qed.

(** A call of [makeMove] that makes no move leaves the game as it was,
    unless it was abandoned. *)
Lemma makeMove_unmade_unchanged (g g' : Game) (from to : SquareArg)
    (promo : string) (res : MakeMoveResult) :
  Game_makeMove g from to promo = (res, g') ->
  (exists move status, res = MoveMade move status)
  \/ (res = MoveAbandoned /\ pieceConstructors promo = InheritedObject)
  \/ (res <> MoveAbandoned /\ g' = g).
Proof.
  unfold Game_makeMove.
  destruct (resolveSquare from) as [fromPos|];
    [|intros [= <- <-]; right; right; now split].
  destruct (resolveSquare to) as [toPos|];
    [|intros [= <- <-]; right; right; now split].
  destruct (Board_getPieceAt (board g) fromPos) as [piece|];
    [|intros [= <- <-]; right; right; now split].
  destruct (negb (Color_eqb (color piece) (currentTurn g)));
    [intros [= <- <-]; right; right; now split|].
  rewrite Board_clone_id.
  destruct (Board_movePiece (board g) fromPos toPos promo)
    as [r tb| | |tb] eqn:Hmove;
    try (intros [= <- <-]; right; right; now split).
  - destruct (Board_isKingInCheck tb (currentTurn g));
      [intros [= <- <-]; right; right; now split|].
    intros [= <- _]. left. eauto.
  - destruct (Board_isKingInCheck_foreign tb (currentTurn g)) as [[|]|];
      try (intros [= <- <-]; right; right; now split).
    intros [= <- _]. right. left. split; [reflexivity|].
    now apply movePiece_foreign_inv in Hmove.
Qed.

(** [makeMove] answers with the wrong-turn error when the source square
    is empty or holds a piece of the other colour, and with the
    self-check error when the move, executed on a clone of the board,
    leaves the king of the side to move in check.  Whenever [makeMove]
    answers with an error, and whenever an exception leaves it before
    the live board is touched, the game it leaves is the game it was
    given: board, turn, both histories, both clocks and status.  A call
    is abandoned only for the promotion key that finds [Object], and
    then the histories, the turn, the move number and the status are
    still as given while the half-move clock is zero. *)
Lemma makeMove_refusals
    (g : Game) (from to : SquareArg) (promo : string)
    (fromPos toPos : Position) :
  resolveSquare from = Some fromPos ->
  resolveSquare to = Some toPos ->
  (noPieceToMove g fromPos ->
   Game_makeMove g from to promo = (MoveRejected (wrongTurnError g), g))
  /\ (forall piece r b',
        Board_getPieceAt (board g) fromPos = Some piece ->
        color piece = currentTurn g ->
        Board_movePiece (Board_clone (board g)) fromPos toPos promo
          = MoveSuccess r b' ->
        Board_isKingInCheck b' (currentTurn g) = true ->
        Game_makeMove g from to promo = (MoveRejected selfCheckError, g))
  /\ (forall error g',
        Game_makeMove g from to promo = (MoveRejected error, g') -> g' = g)
  /\ (forall g', Game_makeMove g from to promo = (MoveThrew, g') -> g' = g)
  /\ (forall g',
        Game_makeMove g from to promo = (MoveAbandoned, g') ->
        pieceConstructors promo = InheritedObject
        /\ (exists pawn,
              Board_getPieceAt (board g) fromPos = Some pawn
              /\ kind pawn = Pawn)
        /\ Board_movePiece (board g) fromPos toPos promo
           = MoveForeignObject (board g')
        /\ halfMoveClock g' = Js.Num 0
        /\ currentTurn g' = currentTurn g
        /\ moveHistory g' = moveHistory g
        /\ positionHistory g' = positionHistory g
        /\ fullMoveNumber g' = fullMoveNumber g
        /\ gameStatus g' = gameStatus g).
Proof.
  intros Hfrom Hto.
  split; [|split; [|split; [|split]]].
  - unfold Game_makeMove. rewrite Hfrom, Hto.
    unfold noPieceToMove. intros Hno.
    destruct (Board_getPieceAt (board g) fromPos) as [piece|];
      [|reflexivity].
    destruct (Color_eqb (color piece) (currentTurn g)) eqn:E;
      [apply Color_eqb_eq in E; contradiction | reflexivity].
  - unfold Game_makeMove. rewrite Hfrom, Hto.
    intros piece r b' Hget Hcol Hmove Hcheck.
    rewrite Hget, Hcol, Color_eqb_refl. simpl negb. cbv iota.
    rewrite Hmove, Hcheck. reflexivity.
  - intros error g' H.
    destruct (makeMove_unmade_unchanged _ _ _ _ _ _ H)
      as [(m & s & E)|[(E & _)|(_ & E)]]; [discriminate E.. | exact E].
  - intros g' H.
    destruct (makeMove_unmade_unchanged _ _ _ _ _ _ H)
      as [(m & s & E)|[(E & _)|(_ & E)]]; [discriminate E.. | exact E].
  - unfold Game_makeMove. rewrite Hfrom, Hto. intros g'.
    destruct (Board_getPieceAt (board g) fromPos) as [piece|] eqn:Hget;
      [|discriminate].
    destruct (negb (Color_eqb (color piece) (currentTurn g)));
      [discriminate|].
    rewrite Board_clone_id.
    destruct (Board_movePiece (board g) fromPos toPos promo)
      as [r tb| | |tb] eqn:Hmove; try discriminate.
    + destruct (Board_isKingInCheck tb (currentTurn g)); discriminate.
    + destruct (Board_isKingInCheck_foreign tb (currentTurn g)) as [[|]|];
        try discriminate.
      intros [= <-]. cbn.
      pose proof Hmove as Hboard.
      apply movePiece_foreign_inv in Hmove
        as (Hkey & pawn & Hpawn & Hkind & _).
      split; [exact Hkey|]. split; [|auto 10].
      exists pawn. split; [congruence | exact Hkind].
Qed.

Lemma makeMove_refusals_examples :
  Game_makeMove Game_new (Algebraic "e4") (Algebraic "e5") "Q"
    = (MoveRejected "Not white's turn", Game_new)
  /\ Game_makeMove pinnedPawnGame (Algebraic "f7") (Algebraic "f6") "Q"
    = (MoveRejected selfCheckError, pinnedPawnGame)
  /\ snd (Game_makeMove Game_new (Algebraic "e2") (Algebraic "e5") "Q")
    = Game_new.
Proof.
  split; [|split].
  - apply (makeMove_refusals Game_new (Algebraic "e4") (Algebraic "e5") "Q"
             (mkPosition 4 4) (mkPosition 3 4) eq_refl eq_refl).
    vm_compute. exact I.
  - eapply (makeMove_refusals pinnedPawnGame (Algebraic "f7") (Algebraic "f6")
              "Q" (mkPosition 1 5) (mkPosition 2 5) eq_refl eq_refl);
      vm_compute; reflexivity.
  - destruct (Game_makeMove Game_new (Algebraic "e2") (Algebraic "e5") "Q")
      as [res g'] eqn:E.
    assert (Hres : res = MoveRejected "Invalid move").
    { apply (f_equal fst) in E. vm_compute in E. now subst res. }
    subst res. simpl.
    destruct (makeMove_refusals Game_new (Algebraic "e2") (Algebraic "e5")
                "Q" (mkPosition 6 4) (mkPosition 3 4) eq_refl eq_refl)
      as (_ & _ & Hrejected & _).
    exact (Hrejected _ _ E).
Qed.

Lemma makeMove_reachable (g : Game) (from to : SquareArg) (promo : string) :
  pieceConstructors promo <> InheritedObject ->
  Reachable g -> Reachable (snd (Game_makeMove g from to promo)).
Proof.
  intros Hkey R.
  destruct (Game_makeMove g from to promo) as [res g'] eqn:E. cbn [snd].
  destruct (makeMove_unmade_unchanged _ _ _ _ _ _ E)
    as [(m & st & ->)|[(_ & H)|(_ & ->)]];
    [|contradiction|exact R].
  eapply Reachable_move; eassumption.
Qed.

Lemma playFrom_reachable (moves : list (string * string)) :
  forall g, Reachable g -> Reachable (playFrom g moves).
Proof.
  induction moves as [|m moves IH]; intros g R; [exact R|].
  unfold playFrom in *. cbn [fold_left]. apply IH.
  apply makeMove_reachable; [discriminate | exact R].
Qed.

(** C6.  [makeMove] does not leave the game as it was in every failure
    case.  In the game after 1. a4 b5 2. axb5 a6 3. bxa6 Bb7 4. axb7
    Nf6 the pawn on b7 can take the rook on a8 and promote.  With the
    promotion key ['constructor'] the table of [movePiece] finds
    [Object] instead of falling back to the queen.  The call passes the
    test on the clone, moves on the live board and then throws in
    [getPositionSignature]: no move is recorded and the turn stays with
    White, but the pawn and the rook have left the board, no queen
    stands on a8 and the half-move clock has gone from 1 to 0. *)
Theorem makeMove_throws_with_the_board_already_moved :
  Reachable pawnTakesToPromote
  /\ exists g',
       Game_makeMove pawnTakesToPromote (Algebraic "b7") (Algebraic "a8")
         "constructor" = (MoveAbandoned, g')
       /\ option_map kind
            (Board_getPieceAt (board pawnTakesToPromote) (mkPosition 1 1))
          = Some Pawn
       /\ option_map kind
            (Board_getPieceAt (board pawnTakesToPromote) (mkPosition 0 0))
          = Some Rook
       /\ Board_getPieceAt (board g') (mkPosition 1 1) = None
       /\ Board_getPieceAt (board g') (mkPosition 0 0) = None
       /\ List.length (pieces (board pawnTakesToPromote)) = 29%nat
       /\ List.length (pieces (board g')) = 27%nat
       /\ halfMoveClock pawnTakesToPromote = Js.Num 1
       /\ halfMoveClock g' = Js.Num 0
       /\ currentTurn g' = currentTurn pawnTakesToPromote
       /\ moveHistory g' = moveHistory pawnTakesToPromote
       /\ positionHistory g' = positionHistory pawnTakesToPromote.
Proof.
  split; [apply playFrom_reachable; exact Reachable_new|].
  eexists. split; [vm_compute; reflexivity|].
  vm_compute. repeat split.
Qed.

(* ================================================================== *)
(** * Castling through an attacked square *)
(* ================================================================== *)

(** C3.  The comment in [King.canMoveTo] leaves the safety of the
    squares the king passes to the Board class, and the Board class
    tests the king's square after the move only.  In [bishopEyesF1] the
    square f1 is attacked by Black, yet g1 is among the legal moves of
    the king on e1 and [makeMove] commits the castling. *)
Theorem castling_passes_attacked_square :
  Board_isSquareAttacked (board bishopEyesF1) f1 BLACK = true
  /\ In g1 (Board_getLegalMovesForPiece (board bishopEyesF1)
              (Board_getPieceAt (board bishopEyesF1) e1))
  /\ exists move status,
       fst (Game_makeMove bishopEyesF1 (Coordinates e1) (Coordinates g1) "Q")
         = MoveMade move status
       /\ move_isCastling move = true
       /\ move_notation move = "O-O"%string.
Proof.
  split; [vm_compute; reflexivity|]. split.
  - vm_compute. auto 10.
  - eexists; eexists. split; [vm_compute; reflexivity|].
    split; reflexivity.
Qed.

(* ================================================================== *)
(** * Disambiguation in the notation *)
(* ================================================================== *)

(** C4.  In [twoKnightsReachD2] the knights on b1 and f3 can both move
    to d2.  The notation generated for the move of the b1 knight is
    [Nd2], with no disambiguation: the candidates are collected on the
    board after the move, where the mover itself occupies the target
    and [isValidMove] rejects it for every piece of its colour. *)
Theorem ambiguous_knight_move_not_disambiguated :
  In d2 (Board_getLegalMovesForPiece (board twoKnightsReachD2)
           (Board_getPieceAt (board twoKnightsReachD2) (mkPosition 7 1)))
  /\ In d2 (Board_getLegalMovesForPiece (board twoKnightsReachD2)
              (Board_getPieceAt (board twoKnightsReachD2) (mkPosition 5 5)))
  /\ exists move status,
       fst (Game_makeMove twoKnightsReachD2 (Algebraic "b1") (Algebraic "d2")
              "Q") = MoveMade move status
       /\ kind (move_piece move) = Knight
       /\ move_notation move = "Nd2"%string.
Proof.
  split; [vm_compute; auto 10|]. split; [vm_compute; auto 10|].
  eexists; eexists. split; [vm_compute; reflexivity|].
  split; reflexivity.
Qed.

(* ================================================================== *)
(** * The promotion table *)
(* ================================================================== *)

(** C10.  The fallback [|| Queen] is meant for every key that is not in
    the table, but the table inherits from [Object.prototype].  With the
    key ['constructor'] the value found is [Object]: the pawn leaves
    the board and no queen is created (the array receives a [String]
    wrapper object instead).  With the key ['toString'] the value found
    cannot be constructed: the call throws and the pawn stays. *)
Theorem promotion_key_found_on_prototype :
  Board_movePiece pawnOnSeventh (mkPosition 1 0) (mkPosition 0 0) "constructor"
    = MoveForeignObject
        (mkBoard [Piece_new King BLACK (mkPosition 0 4);
                  Piece_new King WHITE (mkPosition 7 4)] None [])
  /\ Board_movePiece pawnOnSeventh (mkPosition 1 0) (mkPosition 0 0) "toString"
    = MoveTypeError pawnOnSeventh
  /\ Board_movePiece pawnOnSeventh (mkPosition 1 0) (mkPosition 0 0) "X"
    = MoveSuccess
        (mkMoveResult (Piece_new Pawn WHITE (mkPosition 1 0))
           (mkPosition 1 0) (mkPosition 0 0) None true false false None
           (Some (mkPiece Queen WHITE (mkPosition 0 0) true)) None)
        (mkBoard [Piece_new King BLACK (mkPosition 0 4);
                  Piece_new King WHITE (mkPosition 7 4);
                  mkPiece Queen WHITE (mkPosition 0 0) true] None []).
Proof. repeat split. Qed.

(* ================================================================== *)
(** * What a failed loadFEN leaves behind *)
(* ================================================================== *)

Lemma Game_loadFEN_field_count (g : Game) (fen : string) :
  List.length (fieldsOf fen) <> 6%nat -> Game_loadFEN g fen = (false, g).
Proof.
  unfold Game_loadFEN, fieldsOf. intros H.
  destruct (Js.split " " (Js.trim fen)) as [|f1 [|f2 [|f3 [|f4 [|f5 [|f6 [|f7 r]]]]]]];
    try reflexivity.
  exfalso; apply H; reflexivity.
Qed.

Lemma Board_loadFEN_clears (b : Board) (fen : string) :
  enPassantTarget (snd (Board_loadFEN b fen)) = None
  /\ capturedPieces (snd (Board_loadFEN b fen)) = []
  /\ (List.length (Js.split "/" fen) <> 8%nat ->
      Board_loadFEN b fen = (false, mkBoard [] None [])).
Proof.
  unfold Board_loadFEN.
  destruct (Z.of_nat (List.length (Js.split "/" fen)) =? 8) eqn:E; simpl.
  - destruct (loadFEN_rows 0 (Js.split "/" fen) []) as [ok ps]; simpl.
    repeat split. intros H. apply Z.eqb_eq in E. lia.
  - repeat split.
Qed.

(** C2, as stated, fails.  [fenBadClock] is rejected, and the game that
    was at the initial position is left with an empty board, Black to
    move and a half-move clock that is [NaN]; the board alone rejects
    ["x"] and is left empty. *)
Lemma loadFEN_failure_overwrites_state :
  fst (Game_loadFEN Game_new fenBadClock) = false
  /\ pieces (board (snd (Game_loadFEN Game_new fenBadClock))) = []
  /\ pieces (board Game_new) <> []
  /\ currentTurn (snd (Game_loadFEN Game_new fenBadClock)) = BLACK
  /\ currentTurn Game_new = WHITE
  /\ halfMoveClock (snd (Game_loadFEN Game_new fenBadClock)) = Js.NaN
  /\ halfMoveClock Game_new = Js.Num 0
  /\ Board_loadFEN Board_new "x" = (false, mkBoard [] None []).
Proof. vm_compute. repeat split; discriminate. Qed.

Lemma loadFEN_row_spec (r : Z) (chars : string) :
  forall (c : Z) (ps : list Piece),
    snd (loadFEN_row r chars c ps) = ps ++ piecesOfRank r c chars
    /\ fst (fst (loadFEN_row r chars c ps)) = allChars rankChar chars
    /\ (allChars rankChar chars = true ->
        snd (fst (loadFEN_row r chars c ps)) = c + rankColumns chars).
Proof.
  induction chars as [|ch rest IH]; intros c ps.
  - cbn. rewrite app_nil_r. repeat split. intros _. lia.
  - cbn [loadFEN_row piecesOfRank allChars rankColumns]. unfold rankChar.
    destruct (isOneToEight ch) eqn:Hd.
    + destruct (IH (c + Js.digitValue ch) ps) as (Hp & Hok & Hc).
      cbn [orb andb]. split; [exact Hp|]. split; [exact Hok|].
      intros Hall. rewrite (Hc Hall). lia.
    + destruct (pieceOfChar ch) as [[k colour]|] eqn:Hp.
      * destruct (IH (c + 1) (ps ++ [Piece_new k colour (mkPosition r c)]))
          as (Hps & Hok & Hc).
        cbn [orb andb isSome]. split; [|split; [exact Hok|]].
        -- rewrite Hps, <- app_assoc. reflexivity.
        -- intros Hall. rewrite (Hc Hall). lia.
      * cbn. rewrite app_nil_r. repeat split. discriminate.
Qed.

Lemma loadFEN_rows_spec (rows : list string) :
  forall (r : Z) (ps : list Piece),
    loadFEN_rows r rows ps = (forallb fullRank rows, ps ++ piecesRead r rows).
Proof.
  induction rows as [|chars rows IH]; intros r ps.
  - cbn. now rewrite app_nil_r.
  - cbn [loadFEN_rows forallb piecesRead].
    destruct (loadFEN_row_spec r chars 0 ps) as (Hps & Hok & Hc).
    destruct (loadFEN_row r chars 0 ps) as [[ok c] ps1].
    cbn [fst snd] in Hps, Hok, Hc. subst ps1 ok. unfold fullRank.
    destruct (allChars rankChar chars); cbn [andb].
    + rewrite (Hc eq_refl). cbn [Z.add].
      destruct (rankColumns chars =? 8).
      * rewrite IH, <- app_assoc. reflexivity.
      * now rewrite app_nil_r.
    + now rewrite app_nil_r.
Qed.

(** C2, amended.  When [Board.loadFEN] fails, the board it leaves has no
    en-passant target and no captured pieces, and no piece at all if
    the rank count was wrong.  With eight ranks, one of which is not
    full, it holds the pieces read before the error: those of the ranks
    in front of the first rank that is not full, followed by the pieces
    of that rank up to its first character that is neither a digit from
    1 to 8 nor a piece letter.  When [Game.loadFEN] fails, the move
    history, the position history and the status are as before the
    call; with a wrong field count the whole game is as before; and
    when it is the placement field that the board rejects, the turn and
    both clocks are as before too, while the board is the one
    [Board.loadFEN] left. *)
Theorem loadFEN_failure_effects (b : Board) (g : Game) (fen : string) :
  (fst (Board_loadFEN b fen) = false ->
   enPassantTarget (snd (Board_loadFEN b fen)) = None
   /\ capturedPieces (snd (Board_loadFEN b fen)) = []
   /\ (List.length (Js.split "/" fen) <> 8%nat ->
       pieces (snd (Board_loadFEN b fen)) = [])
   /\ (List.length (Js.split "/" fen) = 8%nat ->
       forallb fullRank (Js.split "/" fen) = false
       /\ pieces (snd (Board_loadFEN b fen))
          = piecesRead 0 (Js.split "/" fen)))
  /\ (fst (Game_loadFEN g fen) = false ->
      let g' := snd (Game_loadFEN g fen) in
      moveHistory g' = moveHistory g
      /\ positionHistory g' = positionHistory g
      /\ gameStatus g' = gameStatus g
      /\ (List.length (fieldsOf fen) <> 6%nat -> g' = g)
      /\ (forall placement rest,
            fieldsOf fen = placement :: rest ->
            List.length rest = 5%nat ->
            fst (Board_loadFEN (board g) placement) = false ->
            board g' = snd (Board_loadFEN (board g) placement)
            /\ currentTurn g' = currentTurn g
            /\ halfMoveClock g' = halfMoveClock g
            /\ fullMoveNumber g' = fullMoveNumber g)).
Proof.
  split.
  - intros Hfail. destruct (Board_loadFEN_clears b fen) as (H1 & H2 & H3).
    split; [exact H1|]. split; [exact H2|]. split.
    + intros H. now rewrite (H3 H).
    + intros Hlen. revert Hfail. unfold Board_loadFEN.
      rewrite Hlen. cbn [Z.of_nat Pos.of_succ_nat Pos.succ Z.eqb Pos.eqb negb].
      rewrite loadFEN_rows_spec. cbn [fst snd pieces app]. auto.
  - intros Hfail. cbv zeta.
    split; [|split; [|split; [|split]]].
    4: { intros H. now rewrite Game_loadFEN_field_count. }
    4: { intros placement rest Hfields Hlen Hbad.
         unfold Game_loadFEN. unfold fieldsOf in Hfields. rewrite Hfields.
         destruct rest as [|f2 [|f3 [|f4 [|f5 [|f6 [|f7 r]]]]]];
           try discriminate.
         destruct (Board_loadFEN (board g) placement) as [ok b1].
         simpl in Hbad. subst ok. simpl. repeat split. }
    all: revert Hfail; unfold Game_loadFEN;
      destruct (Js.split " " (Js.trim fen))
        as [|f1 [|f2 [|f3 [|f4 [|f5 [|f6 [|f7 r]]]]]]]; try reflexivity;
      destruct (Board_loadFEN (board g) f1) as [ok b1];
      destruct ok; simpl; try reflexivity;
      destruct (negb (String.eqb f4 "-"));
      [destruct (Position_fromAlgebraic f4); simpl|simpl]; try reflexivity;
      destruct (Js.isNaN (Js.parseInt f5)); try reflexivity;
      destruct (Js.isNaN (Js.parseInt f6)); try reflexivity;
      simpl; discriminate.
Qed.

Lemma loadFEN_failure_effects_witness :
  pieces (snd (Board_loadFEN Board_new "x")) = []
  /\ pieces (snd (Board_loadFEN Board_new fenBadRank))
     = [Piece_new Rook BLACK (mkPosition 0 0);
        Piece_new Knight BLACK (mkPosition 0 1);
        Piece_new Bishop BLACK (mkPosition 0 2);
        Piece_new Queen BLACK (mkPosition 0 3);
        Piece_new King BLACK (mkPosition 0 4);
        Piece_new Bishop BLACK (mkPosition 0 5);
        Piece_new Knight BLACK (mkPosition 0 6);
        Piece_new Rook BLACK (mkPosition 0 7);
        Piece_new Pawn BLACK (mkPosition 1 0);
        Piece_new Pawn BLACK (mkPosition 1 1);
        Piece_new Pawn BLACK (mkPosition 1 2);
        Piece_new Pawn BLACK (mkPosition 1 3)]
  /\ snd (Game_loadFEN Game_new "w - - 0 1") = Game_new
  /\ currentTurn (snd (Game_loadFEN Game_new fenBadPlacement)) = WHITE.
Proof.
  destruct (loadFEN_failure_effects Board_new Game_new "x") as [HB _].
  destruct (loadFEN_failure_effects Board_new Game_new fenBadRank)
    as [HR _].
  destruct (loadFEN_failure_effects Board_new Game_new "w - - 0 1")
    as [_ HG].
  destruct (loadFEN_failure_effects Board_new Game_new fenBadPlacement)
    as [_ HP].
  split; [|split; [|split]].
  - destruct (HB eq_refl) as (_ & _ & Hempty & _).
    apply Hempty. vm_compute. discriminate.
  - destruct (HR eq_refl) as (_ & _ & _ & Hread).
    destruct (Hread eq_refl) as [_ Hpieces]. rewrite Hpieces. reflexivity.
  - apply HG; [reflexivity | vm_compute; discriminate].
  - destruct (HP eq_refl) as (_ & _ & _ & _ & H).
    destruct (H "x"%string ["w"; "-"; "-"; "0"; "1"]%string
                eq_refl eq_refl eq_refl) as (_ & Ht & _).
    rewrite Ht. reflexivity.
Defined.

(* ================================================================== *)
(** * At most one piece on a square *)
(* ================================================================== *)

Section FirstMatch.

Implicit Types (ps : list Piece) (f : Piece -> bool) (pos : Position).

Lemma removeFirst_incl ps f (q : Piece) :
  In q (removeFirst f ps) -> In q ps.
Proof.
  induction ps as [|x l IH]; simpl; [tauto|].
  destruct (f x); simpl; intuition.
Qed.

Lemma removeFirst_noSharedSquare ps f :
  noSharedSquare ps -> noSharedSquare (removeFirst f ps).
Proof.
  unfold noSharedSquare. induction ps as [|x l IH]; simpl; [trivial|].
  intros H. inversion H as [|? ? Hx Hl]; subst.
  destruct (f x); [assumption|]. simpl. constructor; [|auto].
  intros Hin. apply Hx. apply in_map_iff in Hin as (q & Hq & Hin).
  apply in_map_iff. exists q. split; [assumption|].
  eapply removeFirst_incl; eassumption.
Qed.

Lemma removeFirst_vacant ps f pos :
  vacant ps pos -> vacant (removeFirst f ps) pos.
Proof. intros H q Hq. apply H. eapply removeFirst_incl; eassumption. Qed.

Lemma removeFirst_isAt_vacant ps pos :
  noSharedSquare ps -> vacant (removeFirst (isAt pos) ps) pos.
Proof.
  unfold noSharedSquare, vacant.
  induction ps as [|x l IH]; simpl; [tauto|].
  intros H q Hq. inversion H as [|? ? Hx Hl]; subst.
  destruct (isAt pos x) eqn:E.
  - apply isAt_iff in E. intros Heq. apply Hx. rewrite E, <- Heq.
    now apply in_map.
  - destruct Hq as [<-|Hq]; [|auto].
    intros Heq. apply isAt_iff in Heq. congruence.
Qed.

Lemma pieceAt_None_vacant ps pos :
  pieceAt ps pos = None -> vacant ps pos.
Proof. intros H q Hq. eapply pieceAt_None; eassumption. Qed.

Lemma updateFirst_In ps f (g : Piece -> Piece) (q : Piece) :
  In q (updateFirst f g ps) -> In q ps \/ exists p, In p ps /\ q = g p.
Proof.
  induction ps as [|x l IH]; simpl; [tauto|].
  destruct (f x); simpl.
  - intros [<-|H]; [right; exists x; auto | auto].
  - intros [<-|H]; [auto|].
    destruct (IH H) as [H'|(p & Hp & ->)]; [auto | right; exists p; auto].
Qed.

Lemma updateFirst_moveTo_noSharedSquare ps (from to : Position) :
  noSharedSquare ps -> vacant ps to ->
  noSharedSquare
    (updateFirst (isAt from) (fun p => Piece_moveTo p to) ps).
Proof.
  unfold noSharedSquare, vacant.
  induction ps as [|x l IH]; simpl; [trivial|].
  intros H Hv. inversion H as [|? ? Hx Hl]; subst.
  destruct (isAt from x); simpl.
  - constructor; [|assumption].
    intros Hin. apply in_map_iff in Hin as (q & Hq & Hin).
    exact (Hv q (or_intror Hin) Hq).
  - constructor; [|apply IH; auto].
    intros Hin. apply in_map_iff in Hin as (q & Hq & Hin).
    destruct (updateFirst_In _ _ _ _ Hin) as [Hl'|(p & Hp & ->)].
    + apply Hx. rewrite <- Hq. now apply in_map.
    + simpl in Hq. exact (Hv x (or_introl eq_refl) (eq_sym Hq)).
Qed.

Lemma updateFirst_moveTo_vacant ps (from to pos : Position) :
  vacant ps pos -> to <> pos ->
  vacant (updateFirst (isAt from) (fun p => Piece_moveTo p to) ps) pos.
Proof.
  intros Hv Hne q Hq.
  destruct (updateFirst_In _ _ _ _ Hq) as [Hl|(p & Hp & ->)];
    [now apply Hv | exact Hne].
Qed.

Lemma app_noSharedSquare ps (p : Piece) :
  noSharedSquare ps -> vacant ps (position p) ->
  noSharedSquare (ps ++ [p]).
Proof.
  unfold noSharedSquare, vacant. intros H Hv.
  rewrite map_app. simpl.
  apply NoDup_app; [assumption | repeat constructor; simpl; tauto |].
  intros a Ha [<-|[]]. apply in_map_iff in Ha as (q & Hq & Hin).
  exact (Hv q Hin Hq).
Qed.

End FirstMatch.

Lemma In_range (lo hi c : Z) : lo <= c < hi -> In c (range lo hi).
Proof.
  intros H. unfold range. apply in_map_iff.
  exists (Z.to_nat (c - lo)). split; [lia|]. apply in_seq. lia.
Qed.

Lemma isValidMove_inv (p : Piece) (b : Board) (to : Position) :
  Piece_isValidMove p b to = true ->
  Position_isValid to = true
  /\ position p <> to
  /\ Piece_canMoveTo p b to = true.
Proof.
  unfold Piece_isValidMove. intros H.
  destruct (Position_isValid to); [|discriminate].
  destruct (Position_equals (position p) to) eqn:E; [discriminate|].
  simpl in H. repeat split.
  - intros Heq. apply Position_equals_iff in Heq. congruence.
  - destruct (Board_getPieceAt b to) as [t|]; [|assumption].
    destruct (Color_eqb (color t) (color p)); [discriminate | assumption].
Qed.

Lemma castling_inv (p : Piece) (b : Board) (to : Position) :
  King_canMoveTo p b to = true ->
  Js.abs (col to - col (position p)) = 2 ->
  row to = row (position p)
  /\ hasMoved p = false
  /\ forall c,
       Z.min (col (position p)) (if col (position p) <? col to then 7 else 0)
         < c <
       Z.max (col (position p)) (if col (position p) <? col to then 7 else 0)
       -> vacant (pieces b) (mkPosition (row (position p)) c).
Proof.
  unfold King_canMoveTo. intros H Hc. rewrite Hc in H.
  replace (2 <=? 1) with false in H by reflexivity.
  rewrite andb_false_r in H.
  destruct (hasMoved p); [discriminate|].
  destruct (Js.abs (row to - row (position p)) =? 0) eqn:Hr; [|discriminate].
  simpl in H.
  destruct (Board_getPieceAt b _) as [rook|]; [|discriminate].
  destruct (_ || _ || _) in H; [discriminate|].
  apply Z.eqb_eq in Hr. unfold Js.abs in Hr.
  repeat split; [lia|].
  intros c Hrange. apply pieceAt_None_vacant.
  rewrite forallb_forall in H.
  assert (Hin : In c (range
            (Z.min (col (position p))
               (if col (position p) <? col to then 7 else 0) + 1)
            (Z.max (col (position p))
               (if col (position p) <? col to then 7 else 0)))).
  { apply In_range. lia. }
  specialize (H c Hin).
  unfold Board_getPieceAt in H.
  destruct (pieceAt (pieces b) _); [discriminate | reflexivity].
Qed.

Lemma castleRook_noSharedSquare (piece : Piece) (b : Board) (from to : Position)
    (ps : list Piece) :
  position piece = from ->
  Piece_isValidMove piece b to = true ->
  noSharedSquare ps ->
  (forall pos, pos <> to -> vacant (pieces b) pos -> vacant ps pos) ->
  noSharedSquare (fst (castleRook piece from to ps)).
Proof.
  intros Hpos Hvalid Hps Hvac. unfold castleRook.
  destruct (Kind_eqb (kind piece) King) eqn:Hk; [|assumption].
  destruct (Js.abs (col to - col from) =? 2) eqn:Hc; [|assumption].
  simpl andb. cbv iota.
  destruct (pieceAt ps _) as [rook|]; [|assumption]. simpl fst.
  apply Kind_eqb_eq in Hk. apply Z.eqb_eq in Hc.
  destruct (isValidMove_inv _ _ _ Hvalid) as (Hto & Hne & Hcan).
  unfold Piece_canMoveTo in Hcan. rewrite Hk in Hcan.
  subst from.
  destruct (castling_inv _ _ _ Hcan Hc) as (Hrow & _ & Hfree).
  apply updateFirst_moveTo_noSharedSquare; [assumption|].
  unfold Position_isValid in Hto. unfold Js.abs in Hc.
  rewrite !andb_true_iff, !Z.leb_le, !Z.ltb_lt in Hto.
  apply Hvac.
  - intros Heq. apply (f_equal col) in Heq. simpl in Heq.
    destruct (col (position piece) <? col to); lia.
  - apply Hfree.
    destruct (col (position piece) <? col to) eqn:E;
      [apply Z.ltb_lt in E | apply Z.ltb_ge in E]; lia.
Qed.

Lemma vacant_app (ps : list Piece) (p : Piece) (pos : Position) :
  vacant ps pos -> position p <> pos -> vacant (ps ++ [p]) pos.
Proof.
  intros Hv Hne q Hq. apply in_app_or in Hq as [Hq|[<-|[]]]; auto.
Qed.

(** Whatever the outcome of [movePiece], the pieces it leaves stand on
    distinct squares. *)
Lemma movePiece_keeps_noSharedSquare (b : Board) (from to : Position)
    (promo : string) :
  noSharedSquare (pieces b) ->
  noSharedSquare (pieces (boardAfter b (Board_movePiece b from to promo))).
Proof.
  intros Hinv. unfold Board_movePiece.
  destruct (Board_getPieceAt b from) as [piece|] eqn:Hget; [|assumption].
  destruct (Piece_isValidMove piece b to) eqn:Hvalid; [|assumption].
  simpl negb. cbv iota.
  apply pieceAt_Some in Hget as [_ Hpos].
  rewrite !Position_clone_id.
  set (ps1 := if isSome (Board_getPieceAt b to)
              then removeFirst (isAt to) (pieces b) else pieces b).
  assert (H1 : noSharedSquare ps1 /\ vacant ps1 to
               /\ forall pos, vacant (pieces b) pos -> vacant ps1 pos).
  { subst ps1. unfold Board_getPieceAt.
    destruct (pieceAt (pieces b) to) eqn:E; simpl.
    - split; [now apply removeFirst_noSharedSquare|].
      split; [now apply removeFirst_isAt_vacant|].
      intros pos. apply removeFirst_vacant.
    - split; [assumption|]. split; [now apply pieceAt_None_vacant | auto]. }
  destruct H1 as (Hn1 & Hv1 & Hs1).
  cbv zeta.
  match goal with
  | |- context [removeFirst (isAt ?cp) ps1] => set (capturePosition := cp)
  end.
  match goal with
  | |- context [if ?c then pieceAt ps1 capturePosition else None] =>
      set (capturedPawn := if c then pieceAt ps1 capturePosition else None)
  end.
  set (ps2 := if isSome capturedPawn
              then removeFirst (isAt capturePosition) ps1 else ps1).
  assert (H2 : noSharedSquare ps2 /\ vacant ps2 to
               /\ forall pos, vacant (pieces b) pos -> vacant ps2 pos).
  { subst ps2. destruct (isSome capturedPawn).
    - split; [now apply removeFirst_noSharedSquare|].
      split; [now apply removeFirst_vacant|].
      intros pos Hp. now apply removeFirst_vacant, Hs1.
    - auto. }
  destruct H2 as (Hn2 & Hv2 & Hs2).
  clearbody ps2 capturedPawn. clear Hn1 Hv1 Hs1.
  destruct (isPromotionMove piece to).
  - set (withoutPawn :=
           if isSome capturedPawn && Position_equals capturePosition from
           then ps2 else removeFirst (isAt from) ps2).
    assert (H3 : noSharedSquare withoutPawn /\ vacant withoutPawn to
                 /\ forall pos, vacant (pieces b) pos ->
                                 vacant withoutPawn pos).
    { subst withoutPawn.
      destruct (isSome capturedPawn && Position_equals capturePosition from).
      - auto.
      - split; [now apply removeFirst_noSharedSquare|].
        split; [now apply removeFirst_vacant|].
        intros pos Hp. now apply removeFirst_vacant, Hs2. }
    destruct H3 as (Hn3 & Hv3 & Hs3). clearbody withoutPawn.
    destruct (pieceConstructors promo) as [k| | |]; simpl boardAfter;
      simpl pieces; try assumption;
      destruct (castleRook _ _ _ _) as [ps4 rm] eqn:Hc; simpl;
      change ps4 with (fst (ps4, rm)); rewrite <- Hc;
      (eapply castleRook_noSharedSquare; try eassumption;
       [ apply app_noSharedSquare; assumption
       | intros pos Hne Hp; apply vacant_app; [now apply Hs3|];
         simpl; congruence ]).
  - destruct (castleRook _ _ _ _) as [ps4 rm] eqn:Hc. simpl.
    change ps4 with (fst (ps4, rm)). rewrite <- Hc.
    eapply castleRook_noSharedSquare; try eassumption.
    + destruct (_ && _); [assumption|].
      now apply updateFirst_moveTo_noSharedSquare.
    + intros pos Hne Hp. destruct (_ && _); [now apply Hs2|].
      apply updateFirst_moveTo_vacant; [now apply Hs2 | congruence].
Qed.

Lemma movePiece_noSharedSquare (b b' : Board) (from to : Position)
    (promo : string) (r : MoveResult) :
  noSharedSquare (pieces b) ->
  Board_movePiece b from to promo = MoveSuccess r b' ->
  noSharedSquare (pieces b').
Proof.
  intros Hinv H.
  pose proof (movePiece_keeps_noSharedSquare b from to promo Hinv) as K.
  now rewrite H in K.
Qed.

Lemma isOneToEight_digit (ch : ascii) :
  isOneToEight ch = true -> 1 <= Js.digitValue ch <= 8.
Proof.
  unfold isOneToEight, Js.digitValue.
  rewrite andb_true_iff, !Z.leb_le. lia.
Qed.

Lemma loadFEN_row_inv (r : Z) (chars : string) :
  forall (c : Z) (ps : list Piece),
    noSharedSquare ps -> Forall (before r c) ps ->
    let '(_, c', ps') := loadFEN_row r chars c ps in
    noSharedSquare ps' /\ Forall (before r c') ps' /\ c <= c'.
Proof.
  induction chars as [|ch rest IH]; intros c ps Hn Hb; simpl.
  - repeat split; [assumption | assumption | lia].
  - destruct (isOneToEight ch) eqn:Hd.
    + apply isOneToEight_digit in Hd.
      specialize (IH (c + Js.digitValue ch) ps Hn).
      destruct (loadFEN_row r rest (c + Js.digitValue ch) ps) as [[ok c'] ps'].
      destruct IH as (H1 & H2 & H3).
      * eapply Forall_impl; [|exact Hb]. unfold before. intros p; lia.
      * repeat split; [assumption | assumption | lia].
    + destruct (pieceOfChar ch) as [[k colour]|].
      * specialize (IH (c + 1) (ps ++ [Piece_new k colour (mkPosition r c)])).
        destruct (loadFEN_row r rest (c + 1) _) as [[ok c'] ps'].
        destruct IH as (H1 & H2 & H3).
        -- apply app_noSharedSquare; [assumption|]. simpl.
           intros q Hq Heq. rewrite Forall_forall in Hb.
           specialize (Hb q Hq). unfold before in Hb.
           unfold Piece_new in Heq. simpl in Heq. rewrite Heq in Hb.
           simpl in Hb. lia.
        -- apply Forall_app. split.
           ++ eapply Forall_impl; [|exact Hb]. unfold before. intros p; lia.
           ++ constructor; [|constructor]. unfold before; simpl. lia.
        -- repeat split; [assumption | assumption | lia].
      * repeat split; [assumption | assumption | lia].
Qed.

Lemma loadFEN_rows_inv (rows : list string) :
  forall (r : Z) (ps : list Piece),
    noSharedSquare ps -> Forall (before r 0) ps ->
    noSharedSquare (snd (loadFEN_rows r rows ps)).
Proof.
  induction rows as [|chars rest IH]; intros r ps Hn Hb; simpl; [assumption|].
  pose proof (loadFEN_row_inv r chars 0 ps Hn Hb) as H.
  destruct (loadFEN_row r chars 0 ps) as [[ok c'] ps'].
  destruct H as (H1 & H2 & H3).
  destruct (ok && (c' =? 8)); [|assumption].
  apply IH; [assumption|].
  eapply Forall_impl; [|exact H2]. unfold before. intros p; lia.
Qed.

Lemma Board_loadFEN_noSharedSquare (b : Board) (fen : string) :
  noSharedSquare (pieces (snd (Board_loadFEN b fen))).
Proof.
  unfold Board_loadFEN.
  destruct (negb _); [constructor|].
  pose proof (loadFEN_rows_inv (Js.split "/" fen) 0 [] (NoDup_nil _)
                (Forall_nil _)) as H.
  destruct (loadFEN_rows 0 (Js.split "/" fen) []) as [ok ps]. exact H.
Qed.

Lemma updateFirst_setHasMoved_positions (f : Piece -> bool) (v : bool)
    (ps : list Piece) :
  map position (updateFirst f (setHasMoved v) ps) = map position ps.
Proof.
  induction ps as [|x l IH]; simpl; [reflexivity|].
  destruct (f x); simpl; [reflexivity | now rewrite IH].
Qed.

Lemma applyCastlingField_positions (castling : string) (ps : list Piece) :
  map position (applyCastlingField castling ps) = map position ps.
Proof.
  assert (Hmark : map position (markKingsAndRooks ps) = map position ps).
  { unfold markKingsAndRooks. rewrite map_map. apply map_ext.
    intros p. destruct (_ || _); reflexivity. }
  assert (Hking : forall c l1 l2 l,
             map position (restoreKing castling c l1 l2 l) = map position l).
  { intros. unfold restoreKing. destruct (_ || _); [|reflexivity].
    apply updateFirst_setHasMoved_positions. }
  assert (Hrook : forall letter c column l,
             map position (restoreRook castling letter c column l)
             = map position l).
  { intros. unfold restoreRook. destruct (Js.includes _ _); [|reflexivity].
    destruct (findRook _ _ _); [|reflexivity].
    apply updateFirst_setHasMoved_positions. }
  unfold applyCastlingField. destruct (negb _); [|assumption].
  now rewrite !Hrook, !Hking.
Qed.

Lemma Game_loadFEN_noSharedSquare (g g' : Game) (fen : string) :
  Game_loadFEN g fen = (true, g') -> noSharedSquare (pieces (board g')).
Proof.
  unfold Game_loadFEN.
  destruct (Js.split " " (Js.trim fen))
    as [|f1 [|f2 [|f3 [|f4 [|f5 [|f6 [|f7 r]]]]]]]; try discriminate.
  pose proof (Board_loadFEN_noSharedSquare (board g) f1) as Hb.
  destruct (Board_loadFEN (board g) f1) as [ok b1]. simpl in Hb.
  destruct ok; [|discriminate]. simpl negb. cbv iota.
  destruct (if negb (f4 =? "-")%string then _ else _) as [ep|];
    [|discriminate].
  destruct (Js.isNaN (Js.parseInt f5)); [discriminate|].
  destruct (Js.isNaN (Js.parseInt f6)); [discriminate|].
  intros [= <-]. simpl. unfold noSharedSquare.
  now rewrite applyCastlingField_positions.
Qed.

Lemma initial_noSharedSquare : noSharedSquare (pieces Board_new).
Proof.
  unfold noSharedSquare. vm_compute.
  repeat (constructor; [simpl; intuition discriminate|]). constructor.
Qed.

(** C9.  No two pieces share a coordinate: this holds of the initial
    set-up, every successful [movePiece] (with its captures, en passant,
    promotion and the rook's move in castling) preserves it, as does
    every other outcome of [movePiece], and it holds of the board after
    every successful [loadFEN], of the board and of the game. *)
Theorem no_two_pieces_share_a_square :
  (forall b, noSharedSquare (pieces (Board_setupInitialPosition b)))
  /\ (forall b from to promo r b',
        noSharedSquare (pieces b) ->
        Board_movePiece b from to promo = MoveSuccess r b' ->
        noSharedSquare (pieces b'))
  /\ (forall b from to promo,
        noSharedSquare (pieces b) ->
        noSharedSquare
          (pieces (boardAfter b (Board_movePiece b from to promo))))
  /\ (forall b fen b',
        Board_loadFEN b fen = (true, b') -> noSharedSquare (pieces b'))
  /\ (forall g fen g',
        Game_loadFEN g fen = (true, g') -> noSharedSquare (pieces (board g'))).
Proof.
  split; [intros b; exact initial_noSharedSquare|].
  split; [intros; eapply movePiece_noSharedSquare; eassumption|].
  split; [intros; now apply movePiece_keeps_noSharedSquare|].
  split; [|intros; eapply Game_loadFEN_noSharedSquare; eassumption].
  intros b fen b' H.
  pose proof (Board_loadFEN_noSharedSquare b fen) as Hb.
  now rewrite H in Hb.
Qed.

(** The invariant after White castles short in [bishopEyesF1]. *)
Lemma no_two_pieces_share_a_square_witness :
  noSharedSquare
    (pieces (boardAfter (board bishopEyesF1)
               (Board_movePiece (board bishopEyesF1) e1 g1 "Q"))).
Proof.
  destruct no_two_pieces_share_a_square as (Hinit & Hmove & _ & _).
  destruct (Board_movePiece (board bishopEyesF1) e1 g1 "Q")
    as [r b'| | |] eqn:E; try (exfalso; vm_compute in E; discriminate).
  simpl. apply (Hmove (board bishopEyesF1) e1 g1 "Q"%string r b'); [|exact E].
  unfold noSharedSquare. vm_compute.
  repeat (constructor; [simpl; intuition discriminate|]). constructor.
Defined.

(* ================================================================== *)
(** * Promotion *)
(* ================================================================== *)

(** A class the table holds is found under its own abbreviation. *)
Lemma pieceConstructors_own (key : string) (k : Kind) :
  pieceConstructors key = OwnConstructor k ->
  pieceConstructors (Kind_abbreviation k) = OwnConstructor k.
Proof.
  intros H.
  assert (Hk : k = Queen \/ k = Rook \/ k = Bishop \/ k = Knight).
  { unfold pieceConstructors in H.
    repeat match type of H with
           | context [if ?c then _ else _] => destruct c
           end; inversion H; auto. }
  destruct Hk as [->|[->|[->| ->]]]; reflexivity.
Qed.

Lemma castleRook_not_king (piece : Piece) (from to : Position)
    (ps : list Piece) :
  kind piece <> King -> castleRook piece from to ps = (ps, None).
Proof.
  intros H. unfold castleRook.
  destruct (Kind_eqb (kind piece) King) eqn:E; [|reflexivity].
  apply Kind_eqb_eq in E. contradiction.
Qed.

Lemma isPromotionMove_pawn (piece : Piece) (to : Position) :
  isPromotionMove piece to = true -> kind piece = Pawn.
Proof.
  unfold isPromotionMove. intros [H _]%andb_true_iff.
  now apply Kind_eqb_eq.
Qed.

(** The board a promotion with a class of the table leaves. *)
Lemma movePiece_promotion (b : Board) (from to : Position) (key : string)
    (piece : Piece) (k : Kind) :
  Board_getPieceAt b from = Some piece ->
  Piece_isValidMove piece b to = true ->
  isPromotionMove piece to = true ->
  pieceConstructors key = OwnConstructor k
  \/ (pieceConstructors key = NoProperty /\ k = Queen) ->
  exists r rest captured,
    Board_movePiece b from to key
    = MoveSuccess r
        (mkBoard (rest ++ [mkPiece k (color piece) to true])
                 (nextEnPassantTarget piece from to) captured)
    /\ res_isPromotion r = true
    /\ res_promotedTo r = Some (mkPiece k (color piece) to true)
    /\ (forall key' k',
          pieceConstructors key' = OwnConstructor k'
          \/ (pieceConstructors key' = NoProperty /\ k' = Queen) ->
          exists r',
            Board_movePiece b from to key'
            = MoveSuccess r'
                (mkBoard (rest ++ [mkPiece k' (color piece) to true])
                   (nextEnPassantTarget piece from to) captured))
    /\ (noSharedSquare (pieces b) -> vacant rest from /\ vacant rest to).
Proof.
  intros Hget Hvalid Hprom Hkey.
  pose proof (isPromotionMove_pawn _ _ Hprom) as Hpawn.
  assert (Hnk : kind piece <> King) by (rewrite Hpawn; discriminate).
  unfold Board_movePiece. rewrite Hget, Hvalid, Hprom.
  simpl negb. cbv iota zeta. rewrite !Position_clone_id.
  set (ps1 := if isSome (Board_getPieceAt b to)
              then removeFirst (isAt to) (pieces b) else pieces b).
  match goal with
  | |- context [removeFirst (isAt ?cp) ps1] => set (capturePosition := cp)
  end.
  match goal with
  | |- context [if ?c then pieceAt ps1 capturePosition else None] =>
      set (capturedPawn := if c then pieceAt ps1 capturePosition else None)
  end.
  set (ps2 := if isSome capturedPawn
              then removeFirst (isAt capturePosition) ps1 else ps1).
  set (withoutPawn :=
         if isSome capturedPawn && Position_equals capturePosition from
         then ps2 else removeFirst (isAt from) ps2).
  match goal with
  | |- context [mkBoard _ _ ?cs] => set (captured := cs)
  end.
  assert (Hstep : forall key' k',
             pieceConstructors key' = OwnConstructor k'
             \/ (pieceConstructors key' = NoProperty /\ k' = Queen) ->
             exists r',
               match pieceConstructors key' with
               | InheritedMember =>
                   MoveTypeError (mkBoard ps2 (enPassantTarget b) captured)
               | InheritedObject =>
                   MoveForeignObject
                     (mkBoard withoutPawn (nextEnPassantTarget piece from to)
                        captured)
               | lookup =>
                   let k := match lookup with
                            | OwnConstructor k => k
                            | _ => Queen
                            end in
                   let newPiece := mkPiece k (color piece) to true in
                   let '(ps4, rookMove) :=
                     castleRook piece from to (withoutPawn ++ [newPiece]) in
                   MoveSuccess
                     (mkMoveResult piece from to
                        match capturedPawn with
                        | Some c => Some c
                        | None => Board_getPieceAt b to
                        end true
                        (Kind_eqb (kind piece) King
                         && (Js.abs (col to - col from) =? 2))
                        (isSome capturedPawn)
                        (nextEnPassantTarget piece from to)
                        (Some newPiece) rookMove)
                     (mkBoard ps4 (nextEnPassantTarget piece from to) captured)
               end
               = MoveSuccess r'
                   (mkBoard (withoutPawn ++ [mkPiece k' (color piece) to true])
                      (nextEnPassantTarget piece from to) captured)
               /\ res_isPromotion r' = true
               /\ res_promotedTo r'
                  = Some (mkPiece k' (color piece) to true)).
  { intros key' k' [Hk|[Hk ->]]; rewrite Hk; cbv zeta;
      rewrite (castleRook_not_king _ _ _ _ Hnk); eexists; repeat split. }
  destruct (Hstep key k Hkey) as (r & Hr & Hp1 & Hp2).
  exists r, withoutPawn, captured. split; [exact Hr|].
  split; [exact Hp1|]. split; [exact Hp2|]. split.
  - intros key' k' Hk'. destruct (Hstep key' k' Hk') as (r' & Hr' & _).
    exists r'. exact Hr'.
  - intros Hu.
    destruct (isValidMove_inv _ _ _ Hvalid) as (_ & Hne & _).
    apply pieceAt_Some in Hget as [_ Hpos].
    assert (H1 : noSharedSquare ps1 /\ vacant ps1 to).
    { subst ps1. unfold Board_getPieceAt.
      destruct (pieceAt (pieces b) to) eqn:E; simpl.
      - split; [now apply removeFirst_noSharedSquare
               | now apply removeFirst_isAt_vacant].
      - split; [assumption | now apply pieceAt_None_vacant]. }
    destruct H1 as [Hn1 Hv1].
    assert (H2 : noSharedSquare ps2 /\ vacant ps2 to).
    { subst ps2. destruct (isSome capturedPawn); [|auto].
      split; [now apply removeFirst_noSharedSquare
             | now apply removeFirst_vacant]. }
    destruct H2 as [Hn2 Hv2].
    subst withoutPawn.
    destruct (isSome capturedPawn && Position_equals capturePosition from)
      eqn:E.
    + split; [|assumption].
      apply andb_true_iff in E as [Hc He].
      apply Position_equals_iff in He. subst ps2. rewrite Hc, <- He.
      now apply removeFirst_isAt_vacant.
    + split; [now apply removeFirst_isAt_vacant
             | now apply removeFirst_vacant].
Qed.

(** A promotion with the key of the queen, or with a key found neither
    in the table nor on [Object.prototype], creates a queen of the
    pawn's colour with [hasMoved] set on the target, and takes the pawn
    off the board. *)
Theorem promotion_defaults_to_queen (b : Board) (from to : Position)
    (key : string) (piece : Piece) :
  Board_getPieceAt b from = Some piece ->
  Piece_isValidMove piece b to = true ->
  isPromotionMove piece to = true ->
  pieceConstructors key = OwnConstructor Queen
  \/ pieceConstructors key = NoProperty ->
  exists r b',
    Board_movePiece b from to key = MoveSuccess r b'
    /\ res_isPromotion r = true
    /\ res_promotedTo r = Some (mkPiece Queen (color piece) to true)
    /\ In (mkPiece Queen (color piece) to true) (pieces b')
    /\ (noSharedSquare (pieces b) -> vacant (pieces b') from).
Proof.
  intros Hget Hvalid Hprom Hkey.
  assert (Hk : pieceConstructors key = OwnConstructor Queen
               \/ (pieceConstructors key = NoProperty /\ Queen = Queen))
    by tauto.
  destruct (movePiece_promotion b from to key piece Queen Hget Hvalid Hprom Hk)
    as (r & rest & captured & Hr & Hp1 & Hp2 & _ & Hvac).
  eexists; eexists. split; [exact Hr|]. split; [exact Hp1|].
  split; [exact Hp2|]. simpl. split.
  - apply in_or_app. right. now left.
  - intros Hu. destruct (Hvac Hu) as [Hf _].
    apply vacant_app; [exact Hf|]. simpl.
    destruct (isValidMove_inv _ _ _ Hvalid) as (_ & Hne & _).
    apply pieceAt_Some in Hget as [_ Hpos]. congruence.
Qed.

Lemma promotion_defaults_to_queen_witness :
  exists r b',
    Board_movePiece pawnOnSeventh (mkPosition 1 0) (mkPosition 0 0) "X"
      = MoveSuccess r b'
    /\ res_isPromotion r = true
    /\ res_promotedTo r = Some (mkPiece Queen WHITE (mkPosition 0 0) true)
    /\ In (mkPiece Queen WHITE (mkPosition 0 0) true) (pieces b')
    /\ (noSharedSquare (pieces pawnOnSeventh) ->
        vacant (pieces b') (mkPosition 1 0)).
Proof.
  apply (promotion_defaults_to_queen pawnOnSeventh (mkPosition 1 0)
           (mkPosition 0 0) "X" (Piece_new Pawn WHITE (mkPosition 1 0)));
    try reflexivity.
  right. reflexivity.
Defined.

(* ================================================================== *)
(** * Attacks read the occupancy of the board only *)
(* ================================================================== *)

Lemma sameOccupancy_isSome (ps qs : list Piece) (sq : Position) :
  sameOccupancy ps qs -> isSome (pieceAt ps sq) = isSome (pieceAt qs sq).
Proof.
  intros H. specialize (H sq).
  destruct (pieceAt ps sq), (pieceAt qs sq); simpl in *; congruence.
Qed.

Section Occupancy.

Variables b1 b2 : Board.
Hypothesis same : sameOccupancy (pieces b1) (pieces b2).

Lemma isPathClear_loop_occupancy (target : Position) (rs cs : Z) (fuel : nat) :
  forall cr cc,
    isPathClear_loop fuel b1 target rs cs cr cc
    = isPathClear_loop fuel b2 target rs cs cr cc.
Proof.
  induction fuel as [|f IH]; intros cr cc; simpl; [reflexivity|].
  unfold Board_getPieceAt. rewrite (sameOccupancy_isSome _ _ _ same).
  now rewrite IH.
Qed.

Lemma isPathClear_occupancy (p : Piece) (target : Position) :
  Piece_isPathClear p b1 target = Piece_isPathClear p b2 target.
Proof.
  unfold Piece_isPathClear, Piece_isPathClear_opt.
  now rewrite isPathClear_loop_occupancy.
Qed.

Lemma isValidMove_occupancy (p : Piece) (target : Position) :
  kind p <> Pawn -> kind p <> King ->
  Piece_isValidMove p b1 target = Piece_isValidMove p b2 target.
Proof.
  intros Hp Hk. unfold Piece_isValidMove.
  destruct (negb (Position_isValid target)); [reflexivity|].
  destruct (Position_equals (position p) target); [reflexivity|].
  assert (Hcan : Piece_canMoveTo p b1 target = Piece_canMoveTo p b2 target).
  { unfold Piece_canMoveTo.
    destruct (kind p); try contradiction;
      unfold Knight_canMoveTo, Bishop_canMoveTo, Rook_canMoveTo,
        Queen_canMoveTo; now rewrite ?isPathClear_occupancy. }
  pose proof (same target) as Ht. unfold Board_getPieceAt.
  destruct (pieceAt (pieces b1) target) as [t1|],
    (pieceAt (pieces b2) target) as [t2|]; simpl in Ht; try discriminate.
  - injection Ht as ->. now rewrite Hcan.
  - exact Hcan.
Qed.

Lemma attacks_occupancy (pos : Position) (c : Color) (a : Piece) :
  attacks b1 pos c a = attacks b2 pos c a.
Proof.
  unfold attacks. destruct (kind a) eqn:E; try reflexivity;
    apply isValidMove_occupancy; rewrite E; discriminate.
Qed.

Lemma isKingInCheck_occupancy (c : Color) :
  Board_getKing b1 c = Board_getKing b2 c ->
  Board_getPiecesByColor b1 (opponent c)
  = Board_getPiecesByColor b2 (opponent c) ->
  Board_isKingInCheck b1 c = Board_isKingInCheck b2 c.
Proof.
  intros Hking Hopp. unfold Board_isKingInCheck. rewrite Hking.
  destruct (Board_getKing b2 c) as [king|]; [|reflexivity].
  unfold Board_isSquareAttacked. rewrite Hopp.
  clear Hopp Hking.
  generalize (Board_getPiecesByColor b2 (opponent c)). intros l.
  induction l as [|a l IH]; cbn [existsb]; [reflexivity|].
  now rewrite attacks_occupancy, IH.
Qed.

End Occupancy.

Lemma find_append {A : Type} (f : A -> bool) (l l' : list A) :
  find f (l ++ l') = match find f l with
                     | Some x => Some x
                     | None => find f l'
                     end.
Proof.
  induction l as [|x r IH]; simpl; [reflexivity|].
  destruct (f x); [reflexivity | exact IH].
Qed.

Lemma opponent_differs (c : Color) : Color_eqb c (opponent c) = false.
Proof. destruct c; reflexivity. Qed.

(** Two boards that differ in the class of their last piece only, a
    piece of colour [c] that is a king on neither. *)
Lemma isKingInCheck_last_piece (rest : list Piece) (k1 k2 : Kind) (c : Color)
    (pos : Position) (h : bool) (ep1 ep2 : option Position)
    (cs1 cs2 : list Piece) :
  k1 <> King -> k2 <> King ->
  Board_isKingInCheck (mkBoard (rest ++ [mkPiece k1 c pos h]) ep1 cs1) c
  = Board_isKingInCheck (mkBoard (rest ++ [mkPiece k2 c pos h]) ep2 cs2) c.
Proof.
  intros H1 H2. apply isKingInCheck_occupancy.
  - intros sq. unfold pieceAt. simpl. rewrite !find_append.
    destruct (find (isAt sq) rest); [reflexivity|]. simpl.
    unfold isAt; simpl. destruct (_ && _); reflexivity.
  - unfold Board_getKing; simpl. rewrite !find_append.
    destruct (find (isKingOf c) rest); [reflexivity|]. simpl.
    unfold isKingOf; simpl.
    destruct (Kind_eqb k1 King) eqn:E1;
      [apply Kind_eqb_eq in E1; contradiction|].
    destruct (Kind_eqb k2 King) eqn:E2;
      [apply Kind_eqb_eq in E2; contradiction|]. reflexivity.
  - unfold Board_getPiecesByColor; simpl. rewrite !filter_app. simpl.
    now rewrite opponent_differs.
Qed.

(* ================================================================== *)
(** * Legal moves never expose the mover's king *)
(* ================================================================== *)

Lemma isLegalTarget_valid (b : Board) (piece : Piece) (target : Position) :
  isLegalTarget b piece target = true ->
  Piece_isValidMove piece b target = true.
Proof.
  unfold isLegalTarget.
  destruct (Position_equals (position piece) target); [discriminate|].
  destruct (Piece_isValidMove piece b target); [reflexivity | discriminate].
Qed.

Lemma movePiece_succeeds (b : Board) (piece : Piece) (from to : Position) :
  Board_getPieceAt b from = Some piece ->
  Piece_isValidMove piece b to = true ->
  exists r b', Board_movePiece b from to "Q" = MoveSuccess r b'.
Proof.
  intros Hget Hvalid.
  destruct (movePiece_default_normal b from to) as [Hok | [e He]];
    [exact Hok | exfalso].
  unfold Board_movePiece in He. rewrite Hget, Hvalid in He.
  cbv beta iota zeta in He. simpl negb in He. cbv iota in He.
  destruct (isPromotionMove piece to).
  - change (pieceConstructors "Q") with (OwnConstructor Queen) in He.
    cbv beta iota zeta in He.
    destruct (castleRook _ _ _ _); discriminate.
  - destruct (castleRook _ _ _ _); discriminate.
Qed.

Lemma legal_target_safe (b : Board) (piece : Piece) (target : Position) :
  Board_getPieceAt b (position piece) = Some piece ->
  In target (Board_getLegalMovesForPiece b (Some piece)) ->
  exists r b',
    Board_movePiece b (position piece) target "Q" = MoveSuccess r b'
    /\ Board_isKingInCheck b' (color piece) = false
    /\ Piece_isValidMove piece b target = true.
Proof.
  intros Hget Hin. unfold Board_getLegalMovesForPiece in Hin.
  apply filter_In in Hin as [_ Hlegal].
  pose proof (isLegalTarget_valid _ _ _ Hlegal) as Hvalid.
  destruct (movePiece_succeeds b piece _ target Hget Hvalid) as (r & b' & E).
  exists r, b'. split; [exact E|]. split; [|exact Hvalid].
  unfold isLegalTarget in Hlegal. rewrite Hvalid, Board_clone_id, E in Hlegal.
  destruct (Position_equals (position piece) target); [discriminate|].
  now apply negb_true_iff.
Qed.

Lemma movePiece_key_unread (b : Board) (from to : Position)
    (key key' : string) (piece : Piece) :
  Board_getPieceAt b from = Some piece ->
  isPromotionMove piece to = false ->
  Board_movePiece b from to key = Board_movePiece b from to key'.
Proof.
  intros Hget Hprom. unfold Board_movePiece. rewrite Hget.
  destruct (negb (Piece_isValidMove piece b to)); [reflexivity|].
  cbv zeta. rewrite Hprom. reflexivity.
Qed.

Lemma pieceConstructors_not_king (key : string) (k : Kind) :
  pieceConstructors key = OwnConstructor k -> k <> King.
Proof.
  intros H Hk. subst k. apply pieceConstructors_own in H.
  discriminate H.
Qed.

(** C1.  Take a piece that stands on a board (the look-up of its square
    returns it) and a destination listed by [getLegalMovesForPiece] for
    it.  Executing that move on a clone of the board succeeds, and on
    the board it leaves the king of the piece's colour is not in
    check.  This holds for the default promotion key ([Q]) and for
    every other key that names a class of the promotion table or is
    found nowhere. *)
Theorem legal_moves_keep_own_king_safe
    (b : Board) (piece : Piece) (target : Position) (key : string) :
  Board_getPieceAt b (position piece) = Some piece ->
  In target (Board_getLegalMovesForPiece b (Some piece)) ->
  (exists k, pieceConstructors key = OwnConstructor k)
  \/ pieceConstructors key = NoProperty ->
  exists r b',
    Board_movePiece (Board_clone b) (position piece) target key
      = MoveSuccess r b'
    /\ Board_isKingInCheck b' (color piece) = false.
Proof.
  intros Hget Hin Hkey.
  destruct (legal_target_safe b piece target Hget Hin)
    as (rq & bq & Hq & Hsafe & Hvalid).
  rewrite Board_clone_id.
  destruct (isPromotionMove piece target) eqn:Hprom.
  - assert (HQ : pieceConstructors "Q" = OwnConstructor Queen
                 \/ (pieceConstructors "Q" = NoProperty /\ Queen = Queen))
      by (left; reflexivity).
    destruct (movePiece_promotion b _ target "Q" piece Queen Hget Hvalid
                Hprom HQ)
      as (r & rest & captured & Hr & _ & _ & Hall & _).
    rewrite Hq in Hr. injection Hr as _ ->.
    assert (Hk : exists k,
               (pieceConstructors key = OwnConstructor k
                \/ (pieceConstructors key = NoProperty /\ k = Queen))
               /\ k <> King).
    { destruct Hkey as [[k Hk]|Hk].
      - exists k. split; [now left | eapply pieceConstructors_not_king; eauto].
      - exists Queen. split; [now right | discriminate]. }
    destruct Hk as (k & Hk & Hnk).
    destruct (Hall key k Hk) as (r' & Hr').
    eexists; eexists. split; [exact Hr'|].
    rewrite <- Hsafe. apply isKingInCheck_last_piece; [assumption|discriminate].
  - exists rq, bq. split; [|exact Hsafe].
    now rewrite (movePiece_key_unread b _ target key "Q" piece Hget Hprom).
Qed.

Lemma legal_moves_keep_own_king_safe_witness :
  exists r b',
    Board_movePiece (Board_clone Board_new) (mkPosition 7 6) (mkPosition 5 5)
      "Q" = MoveSuccess r b'
    /\ Board_isKingInCheck b' WHITE = false.
Proof.
  apply (legal_moves_keep_own_king_safe Board_new
           (Piece_new Knight WHITE (mkPosition 7 6)) (mkPosition 5 5) "Q").
  - vm_compute; reflexivity.
  - vm_compute. left; reflexivity.
  - left. exists Queen. reflexivity.
Defined.

(* ================================================================== *)
(** * The path loop ends *)
(* ================================================================== *)

Lemma isPathClear_loop_ends (b : Board) (target : Position)
    (rowStep colStep : Z) (fuel : nat) :
  forall (j currentRow currentCol : Z),
    0 <= j <= Z.of_nat fuel ->
    row target = currentRow + j * rowStep ->
    col target = currentCol + j * colStep ->
    exists r,
      isPathClear_loop fuel b target rowStep colStep currentRow currentCol
      = Some r.
Proof.
  induction fuel as [|fuel IH]; intros j cr cc Hj Hr Hc.
  - assert (j = 0) by lia. subst j. simpl.
    replace (cr =? row target) with true by (symmetry; apply Z.eqb_eq; lia).
    replace (cc =? col target) with true by (symmetry; apply Z.eqb_eq; lia).
    simpl. eauto.
  - simpl.
    destruct (negb ((cr =? row target) && (cc =? col target))) eqn:E;
      [|eauto].
    destruct (isSome (Board_getPieceAt b (mkPosition cr cc))); [eauto|].
    assert (Hpos : j <> 0).
    { apply negb_true_iff, andb_false_iff in E.
      destruct E as [E|E]; apply Z.eqb_neq in E; intros ->; lia. }
    apply (IH (j - 1)); lia.
Qed.

(** The loop of [isPathClear] ends on every target the three sliding
    classes pass to it: a target on the rank, the file or a diagonal of
    the piece. *)
Theorem isPathClear_ends (p : Piece) (b : Board) (target : Position) :
  let dr := row target - row (position p) in
  let dc := col target - col (position p) in
  Js.abs dr = Js.abs dc \/ dr = 0 \/ dc = 0 ->
  exists r, Piece_isPathClear_opt p b target = Some r.
Proof.
  cbv zeta. intros H. unfold Piece_isPathClear_opt.
  set (dr := row target - row (position p)) in *.
  set (dc := col target - col (position p)) in *.
  unfold Js.abs, Js.sign in *.
  destruct (Z.eq_dec (Z.max (Z.abs dr) (Z.abs dc)) 0) as [Hz|Hz].
  - apply (isPathClear_loop_ends _ _ _ _ _ 0); subst dr dc; lia.
  - apply (isPathClear_loop_ends _ _ _ _ _
             (Z.max (Z.abs dr) (Z.abs dc) - 1)); subst dr dc; try lia; nia.
Qed.

Lemma isPathClear_ends_witness :
  exists r,
    Piece_isPathClear_opt (Piece_new Rook WHITE (mkPosition 7 0)) Board_new
      (mkPosition 4 0) = Some r.
Proof.
  apply (isPathClear_ends (Piece_new Rook WHITE (mkPosition 7 0)) Board_new
           (mkPosition 4 0)).
  right. right. reflexivity.
Defined.

(* ================================================================== *)
(** * Undo by replay *)
(* ================================================================== *)

Lemma Position_isValid_bounds (p : Position) :
  Position_isValid p = true <-> (0 <= row p < 8 /\ 0 <= col p < 8).
Proof.
  unfold Position_isValid.
  rewrite !andb_true_iff, !Z.leb_le, !Z.ltb_lt. lia.
Qed.

Lemma fromAlgebraic_toAlgebraic (p : Position) :
  Position_isValid p = true ->
  Position_fromAlgebraic_value (Position_toAlgebraic p) = Some p.
Proof.
  intros H. apply Position_isValid_bounds in H. destruct p as [r c].
  simpl in H.
  assert (Hr : r = 0 \/ r = 1 \/ r = 2 \/ r = 3 \/ r = 4 \/ r = 5 \/ r = 6
               \/ r = 7) by lia.
  assert (Hc : c = 0 \/ c = 1 \/ c = 2 \/ c = 3 \/ c = 4 \/ c = 5 \/ c = 6
               \/ c = 7) by lia.
  clear H.
  repeat (destruct Hr as [->|Hr]);
    try subst r; repeat (destruct Hc as [->|Hc]); try subst c; reflexivity.
Qed.

Lemma fromAlgebraic_text (p : Position) :
  Position_isValid p = true ->
  Position_fromAlgebraic (Js.toString (Position_toAlgebraic p)) = Some p.
Proof.
  intros H. apply Position_isValid_bounds in H. destruct p as [r c].
  simpl in H.
  assert (Hr : r = 0 \/ r = 1 \/ r = 2 \/ r = 3 \/ r = 4 \/ r = 5 \/ r = 6
               \/ r = 7) by lia.
  assert (Hc : c = 0 \/ c = 1 \/ c = 2 \/ c = 3 \/ c = 4 \/ c = 5 \/ c = 6
               \/ c = 7) by lia.
  clear H.
  repeat (destruct Hr as [->|Hr]);
    try subst r; repeat (destruct Hc as [->|Hc]); try subst c; reflexivity.
Qed.

Lemma movePiece_replayKey (b b' : Board) (from to : Position)
    (promo : string) (r : MoveResult) :
  Board_movePiece b from to promo = MoveSuccess r b' ->
  Board_movePiece b from to (replayKey r) = MoveSuccess r b'.
Proof.
  unfold Board_movePiece.
  destruct (Board_getPieceAt b from) as [piece|]; [|discriminate].
  destruct (negb (Piece_isValidMove piece b to)); [discriminate|].
  cbv zeta.
  destruct (isPromotionMove piece to).
  - destruct (pieceConstructors promo) as [k| | |] eqn:Hk; try discriminate.
    + destruct (castleRook _ _ _ _) as [ps4 rm] eqn:Hc.
      intros [= <- <-]. unfold replayKey; simpl.
      unfold Piece_abbreviation; simpl.
      rewrite (pieceConstructors_own _ _ Hk), Hc. reflexivity.
    + destruct (castleRook _ _ _ _) as [ps4 rm] eqn:Hc.
      intros [= <- <-]. unfold replayKey; simpl.
      change (pieceConstructors (Piece_abbreviation _))
        with (OwnConstructor Queen).
      cbv iota. rewrite Hc. reflexivity.
  - destruct (castleRook _ _ _ _) as [ps4 rm] eqn:Hc.
    intros [= <- <-]. reflexivity.
Qed.

Lemma movePiece_success_inv (b b' : Board) (from to : Position)
    (promo : string) (r : MoveResult) :
  Board_movePiece b from to promo = MoveSuccess r b' ->
  exists piece,
    Board_getPieceAt b from = Some piece
    /\ Piece_isValidMove piece b to = true
    /\ kind (res_piece r) = kind piece
    /\ enPassantTarget b' = nextEnPassantTarget piece from to.
Proof.
  unfold Board_movePiece.
  destruct (Board_getPieceAt b from) as [piece|] eqn:Hget; [|discriminate].
  destruct (Piece_isValidMove piece b to) eqn:Hvalid; [|discriminate].
  simpl negb. cbv iota zeta. intros H. exists piece.
  split; [reflexivity|]. split; [assumption|].
  destruct (isPromotionMove piece to).
  - destruct (pieceConstructors promo); try discriminate;
      destruct (castleRook _ _ _ _); injection H as <- <-; auto.
  - destruct (castleRook _ _ _ _); injection H as <- <-; auto.
Qed.

Lemma removeFirst_Forall (P : Piece -> Prop) (f : Piece -> bool)
    (ps : list Piece) :
  Forall P ps -> Forall P (removeFirst f ps).
Proof.
  rewrite !Forall_forall. intros H q Hq. apply H.
  eapply removeFirst_incl; eassumption.
Qed.

Lemma updateFirst_Forall (P : Piece -> Prop) (f : Piece -> bool)
    (g : Piece -> Piece) (ps : list Piece) :
  Forall P ps -> (forall p, P (g p)) -> Forall P (updateFirst f g ps).
Proof.
  rewrite !Forall_forall. intros H Hg q Hq.
  destruct (updateFirst_In _ _ _ _ Hq) as [Hl|(p & _ & ->)]; auto.
Qed.

Lemma castleRook_onBoard (piece : Piece) (from to : Position)
    (ps : list Piece) :
  Position_isValid from = true -> Position_isValid to = true ->
  Forall onBoard ps ->
  Forall onBoard (fst (castleRook piece from to ps)).
Proof.
  intros Hfrom Hto Hps. unfold castleRook.
  destruct (Kind_eqb (kind piece) King && _) eqn:E; [|assumption].
  destruct (pieceAt ps _); [|assumption]. simpl.
  apply andb_true_iff in E as [_ E]. apply Z.eqb_eq in E.
  apply updateFirst_Forall; [assumption|]. intros q. unfold onBoard. simpl.
  apply Position_isValid_bounds in Hfrom, Hto.
  apply Position_isValid_bounds. simpl. unfold Js.abs in E.
  destruct (col from <? col to) eqn:L;
    [apply Z.ltb_lt in L | apply Z.ltb_ge in L]; lia.
Qed.

Lemma movePiece_onBoard (b b' : Board) (from to : Position)
    (promo : string) (r : MoveResult) :
  Forall onBoard (pieces b) ->
  Board_movePiece b from to promo = MoveSuccess r b' ->
  Forall onBoard (pieces b').
Proof.
  intros Hinv H. unfold Board_movePiece in H.
  destruct (Board_getPieceAt b from) as [piece|] eqn:Hget; [|discriminate].
  destruct (Piece_isValidMove piece b to) eqn:Hvalid; [|discriminate].
  simpl negb in H. cbv iota in H.
  apply pieceAt_Some in Hget as [Hin Hpos].
  destruct (isValidMove_inv _ _ _ Hvalid) as (Hto & _ & _).
  assert (Hfrom : Position_isValid from = true).
  { rewrite Forall_forall in Hinv. rewrite <- Hpos. now apply Hinv. }
  rewrite !Position_clone_id in H. cbv zeta in H.
  set (ps1 := if isSome (Board_getPieceAt b to)
              then removeFirst (isAt to) (pieces b) else pieces b) in H.
  assert (H1 : Forall onBoard ps1).
  { subst ps1. destruct (isSome (Board_getPieceAt b to));
      [now apply removeFirst_Forall|assumption]. }
  clearbody ps1.
  match type of H with
  | context [removeFirst (isAt ?cp) ps1] =>
      set (capturePosition := cp) in H
  end.
  match type of H with
  | context [if ?c then pieceAt ps1 capturePosition else None] =>
      set (capturedPawn := if c then pieceAt ps1 capturePosition else None)
        in H
  end.
  set (ps2 := if isSome capturedPawn
              then removeFirst (isAt capturePosition) ps1 else ps1) in H.
  assert (H2 : Forall onBoard ps2).
  { subst ps2. destruct (isSome capturedPawn);
      [now apply removeFirst_Forall|assumption]. }
  clearbody ps2 capturedPawn.
  assert (Hnew : forall k c h, onBoard (mkPiece k c to h)) by (intros; exact Hto).
  destruct (isPromotionMove piece to).
  - set (withoutPawn :=
           if isSome capturedPawn && Position_equals capturePosition from
           then ps2 else removeFirst (isAt from) ps2) in H.
    assert (H3 : Forall onBoard withoutPawn).
    { subst withoutPawn. destruct (_ && _);
        [assumption | now apply removeFirst_Forall]. }
    clearbody withoutPawn.
    destruct (pieceConstructors promo) as [k| | |]; try discriminate;
      destruct (castleRook _ _ _ _) as [ps4 rm] eqn:Hc;
      injection H as _ <-; simpl;
      change ps4 with (fst (ps4, rm)); rewrite <- Hc;
      apply castleRook_onBoard; try assumption;
      apply Forall_app; split; try assumption; repeat constructor; apply Hnew.
  - destruct (castleRook _ _ _ _) as [ps4 rm] eqn:Hc.
    injection H as _ <-. simpl.
    change ps4 with (fst (ps4, rm)). rewrite <- Hc.
    apply castleRook_onBoard; try assumption.
    destruct (_ && _); [assumption|].
    apply updateFirst_Forall; [assumption|]. intros p. apply Hnew.
Qed.

Lemma pawn_double_step (p : Piece) (b : Board) (to : Position) :
  Pawn_canMoveTo p b to = true ->
  Js.abs (row to - row (position p)) = 2 ->
  row to - row (position p)
  = 2 * match color p with WHITE => -1 | BLACK => 1 end.
Proof.
  unfold Pawn_canMoveTo, Js.abs. intros H Habs.
  destruct (color p);
    repeat match type of H with
           | context [?x =? ?y] =>
               let E := fresh "E" in
               destruct (x =? y) eqn:E;
               [apply Z.eqb_eq in E | apply Z.eqb_neq in E];
               simpl in H; try lia; try discriminate
           end.
Qed.

Lemma movePiece_enPassant_valid (b b' : Board) (from to : Position)
    (promo : string) (r : MoveResult) (ep : Position) :
  Forall onBoard (pieces b) ->
  Board_movePiece b from to promo = MoveSuccess r b' ->
  enPassantTarget b' = Some ep -> Position_isValid ep = true.
Proof.
  intros Hinv H Hep.
  destruct (movePiece_success_inv _ _ _ _ _ _ H)
    as (piece & Hget & Hvalid & _ & Hnext).
  rewrite Hnext in Hep. unfold nextEnPassantTarget in Hep.
  destruct (Kind_eqb (kind piece) Pawn) eqn:Hk; [|discriminate].
  destruct (Js.abs (row to - row from) =? 2) eqn:Hd; [|discriminate].
  simpl in Hep. injection Hep as <-.
  apply Kind_eqb_eq in Hk. apply Z.eqb_eq in Hd.
  apply pieceAt_Some in Hget as [Hin Hpos].
  destruct (isValidMove_inv _ _ _ Hvalid) as (Hto & _ & Hcan).
  unfold Piece_canMoveTo in Hcan. rewrite Hk in Hcan.
  rewrite <- Hpos in Hd.
  pose proof (pawn_double_step _ _ _ Hcan Hd) as Hstep.
  rewrite Forall_forall in Hinv. specialize (Hinv _ Hin).
  unfold onBoard in Hinv. rewrite Hpos in *.
  apply Position_isValid_bounds in Hinv, Hto.
  apply Position_isValid_bounds. simpl.
  destruct (color piece); lia.
Qed.

Lemma replayMoves_app (moves : list Move) (m : Move) :
  forall s s',
    replayMoves s moves = (s', false) ->
    replayMoves s (moves ++ [m])
    = match replayStep s' m with
      | Some s'' => (s'', false)
      | None => (s', true)
      end.
Proof.
  induction moves as [|x l IH]; intros s s' H; simpl in *.
  - injection H as <-. destruct (replayStep s m); reflexivity.
  - destruct (replayStep s x) as [s1|]; [|discriminate]. now apply IH.
Qed.

Lemma makeMove_replayStep (g g' : Game) (from to : SquareArg)
    (promo : string) (move : Move) (status : GameStatus) :
  Forall onBoard (pieces (board g)) ->
  Game_makeMove g from to promo = (MoveMade move status, g') ->
  replayStep (stateOf g) move = Some (stateOf g').
Proof.
  intros Hinv H.
  destruct (makeMove_made_inv _ _ _ _ _ _ _ H)
    as (fromPos & toPos & piece & result & b' & _ & _ & Hget & Hcol & Hmove
        & _ & Hm & Hg & _).
  destruct (movePiece_success_inv _ _ _ _ _ _ Hmove)
    as (piece' & Hget' & Hvalid & Hkind & _).
  rewrite Hget in Hget'. injection Hget' as <-.
  destruct (isValidMove_inv _ _ _ Hvalid) as (Hto & _ & _).
  apply pieceAt_Some in Hget as [Hin Hpos].
  assert (Hfrom : Position_isValid fromPos = true).
  { rewrite Forall_forall in Hinv. rewrite <- Hpos. now apply Hinv. }
  unfold replayStep. rewrite Hm. simpl move_from. simpl move_to.
  rewrite (fromAlgebraic_toAlgebraic _ Hfrom),
    (fromAlgebraic_toAlgebraic _ Hto).
  unfold replayPromotion, stateOf. simpl.
  change (match res_isPromotion result with
          | true => match res_promotedTo result with
                    | Some promoted => Piece_abbreviation promoted
                    | None => "null"%string
                    end
          | false => "null"%string
          end) with (replayKey result).
  rewrite (movePiece_replayKey _ _ _ _ _ _ Hmove). simpl boardAfter.
  subst g'. simpl. f_equal. f_equal.
  - unfold nextHalfMoveClock. now rewrite Hkind.
  - destruct (currentTurn g); reflexivity.
Qed.

Lemma Game_new_sound : Sound Game_new.
Proof.
  constructor.
  - exact initial_noSharedSquare.
  - unfold onBoard. vm_compute. repeat constructor.
  - intros ep H. discriminate.
  - exists 0. reflexivity.
  - exists 1. reflexivity.
  - reflexivity.
  - vm_compute. reflexivity.
Qed.

Lemma makeMove_sound (g g' : Game) (from to : SquareArg) (promo : string)
    (move : Move) (status : GameStatus) :
  Sound g ->
  Game_makeMove g from to promo = (MoveMade move status, g') ->
  Sound g'.
Proof.
  intros S H.
  pose proof (makeMove_replayStep _ _ _ _ _ _ _ (sound_onBoard _ S) H)
    as Hstep.
  destruct (makeMove_made_inv _ _ _ _ _ _ _ H)
    as (fromPos & toPos & piece & result & b' & _ & _ & Hget & Hcol & Hmove
        & _ & Hm & Hg & _).
  assert (Hhist : moveHistory g' = moveHistory g ++ [move])
    by (subst g'; reflexivity).
  assert (Hboard : board g' = b') by (subst g'; reflexivity).
  constructor.
  - rewrite Hboard.
    eapply movePiece_noSharedSquare; [apply (sound_unique _ S) | exact Hmove].
  - rewrite Hboard.
    eapply movePiece_onBoard; [apply (sound_onBoard _ S) | exact Hmove].
  - rewrite Hboard. intros ep.
    eapply movePiece_enPassant_valid; [apply (sound_onBoard _ S) | exact Hmove].
  - subst g'. simpl. unfold nextHalfMoveClock.
    destruct (_ || _); [exists 0; reflexivity|].
    destruct (sound_clock _ S) as [h ->]. simpl. eauto.
  - subst g'. simpl. destruct (sound_number _ S) as [n ->].
    destruct (currentTurn g); simpl; eauto.
  - rewrite Hhist, (replayMoves_app _ _ _ _ (sound_replay _ S)), Hstep.
    reflexivity.
  - subst g'. reflexivity.
Qed.

Lemma reachable_sound (g : Game) : Reachable g -> Sound g.
Proof.
  induction 1 as [|g g' from to promo move status _ IH H].
  - exact Game_new_sound.
  - eapply makeMove_sound; eassumption.
Qed.

(** Every game reachable from the initial position has its pieces on
    distinct squares of the board, an en-passant target on the board if
    it has one, and clocks that are numbers. *)
Theorem reachable_games_are_well_formed (g : Game) :
  Reachable g ->
  noSharedSquare (pieces (board g))
  /\ Forall onBoard (pieces (board g))
  /\ (forall ep, enPassantTarget (board g) = Some ep ->
                 Position_isValid ep = true)
  /\ Js.isNaN (halfMoveClock g) = false
  /\ Js.isNaN (fullMoveNumber g) = false.
Proof.
  intros R. pose proof (reachable_sound g R) as S.
  destruct (sound_clock _ S) as [h Hh]. destruct (sound_number _ S) as [n Hn].
  rewrite Hh, Hn. repeat split;
    [apply (sound_unique _ S) | apply (sound_onBoard _ S)
    | apply (sound_enPassant _ S)].
Qed.

Lemma reachable_games_are_well_formed_witness :
  enPassantTarget (board (playFrom Game_new [("e2", "e4")]%string))
  = Some (mkPosition 5 4)
  /\ noSharedSquare (pieces (board bishopEyesF1))
  /\ Forall onBoard (pieces (board bishopEyesF1))
  /\ (forall ep,
        enPassantTarget (board (playFrom Game_new [("e2", "e4")]%string))
        = Some ep ->
        Position_isValid ep = true)
  /\ Js.isNaN (halfMoveClock bishopEyesF1) = false
  /\ Js.isNaN (fullMoveNumber bishopEyesF1) = false.
Proof.
  pose proof (reachable_games_are_well_formed bishopEyesF1
                (playFrom_reachable _ Game_new Reachable_new))
    as (Hunique & Hboard & _ & Hclock & Hnumber).
  pose proof (reachable_games_are_well_formed
                (playFrom Game_new [("e2", "e4")]%string)
                (playFrom_reachable _ Game_new Reachable_new))
    as (_ & _ & Htarget & _).
  split; [vm_compute; reflexivity|]. auto.
Defined.

Lemma undo_after_move (g g' : Game) (from to : SquareArg) (promo : string)
    (move : Move) (status : GameStatus) :
  Sound g ->
  Game_makeMove g from to promo = (MoveMade move status, g') ->
  Game_undoLastMove g' = (UndoReturned true, g).
Proof.
  intros S H.
  destruct (makeMove_made_inv _ _ _ _ _ _ _ H)
    as (fromPos & toPos & piece & result & b' & _ & _ & _ & _ & _
        & _ & _ & Hg & _).
  unfold Game_undoLastMove.
  assert (Hhist : moveHistory g' = moveHistory g ++ [move])
    by (subst g'; reflexivity).
  assert (Hpos : positionHistory g'
                 = positionHistory g ++ [Board_getPositionSignature b'])
    by (subst g'; reflexivity).
  rewrite Hhist, Hpos, !removelast_last.
  destruct (moveHistory g ++ [move]) eqn:E;
    [destruct (moveHistory g); discriminate|].
  change (mkReplay Board_new WHITE (Js.Num 0) (Js.Num 1)) with replayStart.
  rewrite (sound_replay _ S). unfold stateOf; simpl.
  unfold Game_updateGameStatus; simpl.
  rewrite <- (sound_status _ S). destruct g; reflexivity.
Qed.

(** C8.  Take a game reached from the initial position by successful
    [makeMove] calls, the last of them with the arguments [from], [to]
    and [promo].  One [undoLastMove] succeeds, and making the same move
    again on the game it leaves succeeds and gives a game whose
    six-field FEN text is the one the game had before the undo. *)
Theorem undo_then_replay_restores_fen
    (g g' : Game) (from to : SquareArg) (promo : string)
    (move : Move) (status : GameStatus) :
  Reachable g ->
  Game_makeMove g from to promo = (MoveMade move status, g') ->
  exists undone,
    Game_undoLastMove g' = (UndoReturned true, undone)
    /\ exists g'',
         Game_makeMove undone from to promo = (MoveMade move status, g'')
         /\ Game_getFEN g'' = Game_getFEN g'.
Proof.
  intros R H. exists g. split.
  - eapply undo_after_move; [now apply reachable_sound | exact H].
  - exists g'. split; [exact H | reflexivity].
Qed.

Lemma undo_then_replay_restores_fen_witness :
  exists undone,
    Game_undoLastMove
      (snd (Game_makeMove Game_new (Algebraic "e2") (Algebraic "e4") "Q"))
    = (UndoReturned true, undone)
    /\ exists g'',
         snd (Game_makeMove undone (Algebraic "e2") (Algebraic "e4") "Q") = g''
         /\ Game_getFEN g''
            = Game_getFEN
                (snd (Game_makeMove Game_new (Algebraic "e2") (Algebraic "e4")
                        "Q")).
Proof.
  destruct (Game_makeMove Game_new (Algebraic "e2") (Algebraic "e4") "Q")
    as [res g'] eqn:E.
  assert (Hres : exists m s, res = MoveMade m s).
  { apply (f_equal fst) in E. vm_compute in E. subst res. eauto. }
  destruct Hres as (m & s & ->).
  destruct (undo_then_replay_restores_fen _ _ _ _ _ _ _ Reachable_new E)
    as (undone & Hundo & g'' & Hredo & Hfen).
  exists undone. split; [exact Hundo|].
  exists g''. split; [now rewrite Hredo | exact Hfen].
Defined.

(* ================================================================== *)
(** * FEN round trip *)
(* ================================================================== *)

Section Strings.

Lemma allChars_app (f : ascii -> bool) (s t : string) :
  allChars f (s ++ t) = allChars f s && allChars f t.
Proof.
  induction s as [|c r IH]; simpl; [reflexivity|].
  now rewrite IH, andb_assoc.
Qed.

Lemma allChars_impl (f g : ascii -> bool) (s : string) :
  (forall c, f c = true -> g c = true) ->
  allChars f s = true -> allChars g s = true.
Proof.
  intros Hfg. induction s as [|c r IH]; simpl; [trivial|].
  rewrite !andb_true_iff. intros [H1 H2]. auto.
Qed.

Lemma split_single (sep : ascii) (s : string) :
  allChars (fun c => negb (Ascii.eqb c sep)) s = true ->
  Js.split sep s = [s].
Proof.
  induction s as [|c r IH]; simpl; [reflexivity|].
  rewrite andb_true_iff, negb_true_iff. intros [H1 H2].
  now rewrite H1, (IH H2).
Qed.

Lemma split_app (sep : ascii) (s t : string) :
  allChars (fun c => negb (Ascii.eqb c sep)) s = true ->
  Js.split sep (s ++ String sep t) = s :: Js.split sep t.
Proof.
  induction s as [|c r IH]; simpl.
  - intros _. now rewrite Ascii.eqb_refl.
  - rewrite andb_true_iff, negb_true_iff. intros [H1 H2].
    now rewrite H1, (IH H2).
Qed.

Lemma trimEnd_clean (s : string) :
  allChars (fun c => negb (Js.isWhiteSpace c)) s = true ->
  Js.trimEnd s = s.
Proof.
  induction s as [|c r IH]; simpl; [reflexivity|].
  rewrite andb_true_iff, negb_true_iff. intros [H1 H2].
  rewrite (IH H2), H1. destruct r; reflexivity.
Qed.

Lemma trimEnd_app (s t : string) :
  Js.trimEnd t = t -> t <> EmptyString -> Js.trimEnd (s ++ t) = (s ++ t)%string.
Proof.
  intros Ht Hne. induction s as [|c r IH]; simpl; [assumption|].
  rewrite IH. destruct (r ++ t)%string eqn:E; [|reflexivity].
  destruct r; simpl in E; [contradiction | discriminate].
Qed.

End Strings.

(** The characters of the fields. *)

Lemma digitChar_plain (d : Z) :
  0 <= d < 10 -> plain (Js.digitChar d) = true /\ Js.isDigit (Js.digitChar d) = true.
Proof.
  intros H.
  assert (Hd : d = 0 \/ d = 1 \/ d = 2 \/ d = 3 \/ d = 4 \/ d = 5 \/ d = 6
               \/ d = 7 \/ d = 8 \/ d = 9) by lia.
  repeat (destruct Hd as [->|Hd]); try subst d; split; reflexivity.
Qed.

Lemma digitsFuel_plain (fuel : nat) :
  forall z acc,
    allChars plain acc = true ->
    allChars plain (Js.digitsFuel fuel z acc) = true.
Proof.
  induction fuel as [|f IH]; intros z acc Hacc; simpl.
  - rewrite Hacc, andb_true_r.
    apply digitChar_plain, Z.mod_pos_bound; lia.
  - assert (H : allChars plain (String (Js.digitChar (z mod 10)) acc) = true).
    { simpl. rewrite Hacc, andb_true_r.
      apply digitChar_plain, Z.mod_pos_bound; lia. }
    destruct (z <? 10); [exact H | now apply IH].
Qed.

Lemma digitsFuel_starts (fuel : nat) :
  forall z acc,
    Js.startsWithDigit acc = true \/ acc = EmptyString ->
    Js.startsWithDigit (Js.digitsFuel fuel z acc) = true.
Proof.
  assert (Hd : forall z acc,
             Js.startsWithDigit (String (Js.digitChar (z mod 10)) acc) = true).
  { intros z acc. simpl. apply digitChar_plain, Z.mod_pos_bound; lia. }
  induction fuel as [|f IH]; intros z acc Hacc; simpl; [apply (Hd z acc)|].
  destruct (z <? 10); [apply (Hd z acc)|]. apply IH. left. apply (Hd z acc).
Qed.

Lemma numberToString_plain (n : Js.number) :
  allChars plain (Js.numberToString n) = true.
Proof.
  destruct n as [|z]; [reflexivity|]. unfold Js.numberToString, Js.digitsOf.
  destruct (z <? 0).
  - cbn [allChars]. change (plain "-") with true. cbn [andb].
    now apply digitsFuel_plain.
  - now apply digitsFuel_plain.
Qed.

Lemma parseInt_minus (r : string) :
  Js.parseInt (String "-" r)
  = if Js.startsWithDigit r then Js.Num (- Js.readDigits r 0) else Js.NaN.
Proof. reflexivity. Qed.

Lemma parseInt_numberToString (z : Z) :
  Js.isNaN (Js.parseInt (Js.numberToString (Js.Num z))) = false.
Proof.
  unfold Js.numberToString, Js.digitsOf.
  destruct (z <? 0).
  - rewrite parseInt_minus, digitsFuel_starts; [reflexivity | now right].
  - pose proof (digitsFuel_starts (Z.to_nat (Z.log2 z)) z EmptyString
                  (or_intror eq_refl)) as H.
    destruct (Js.digitsFuel _ z EmptyString) as [|c r]; [discriminate|].
    simpl in H.
    destruct c as [[] [] [] [] [] [] [] []]; vm_compute in H;
      try discriminate H; reflexivity.
Qed.

Lemma symbol_plain (p : Piece) : plain (Piece_symbol p) = true.
Proof. destruct p as [[] [] ? ?]; reflexivity. Qed.

Lemma emptyRun_plain (k : Z) : allChars plain (emptyRun k) = true.
Proof.
  unfold emptyRun. destruct (0 <? k); [apply numberToString_plain|reflexivity].
Qed.

Lemma toFEN_cols_plain (b : Board) (r : Z) (cols : list Z) :
  forall k, allChars plain (toFEN_cols b r cols k) = true.
Proof.
  induction cols as [|c rest IH]; intros k; simpl; [apply emptyRun_plain|].
  destruct (Board_getPieceAt b _) as [p|]; [|apply IH].
  rewrite allChars_app, emptyRun_plain. simpl.
  now rewrite symbol_plain, IH.
Qed.

Lemma digitsFuel_nonEmpty (fuel : nat) (z : Z) (acc : string) :
  Js.digitsFuel fuel z acc <> EmptyString.
Proof.
  revert z acc. induction fuel as [|f IH]; intros z acc; simpl;
    [discriminate|].
  destruct (z <? 10); [discriminate | apply IH].
Qed.

Lemma numberToString_nonEmpty (n : Js.number) :
  Js.numberToString n <> EmptyString.
Proof.
  destruct n as [|z]; [discriminate|]. unfold Js.numberToString.
  destruct (z <? 0); [discriminate | apply digitsFuel_nonEmpty].
Qed.

Lemma toFEN_cols_nonEmpty (b : Board) (r : Z) (cols : list Z) :
  forall k, 0 <= k -> cols <> [] \/ 0 < k ->
            toFEN_cols b r cols k <> EmptyString.
Proof.
  induction cols as [|c rest IH]; intros k Hk Hne; simpl.
  - destruct Hne as [Hne|Hne]; [contradiction|].
    unfold emptyRun. apply Z.ltb_lt in Hne. rewrite Hne.
    apply numberToString_nonEmpty.
  - destruct (Board_getPieceAt b _) as [p|].
    + destruct (emptyRun k); discriminate.
    + apply IH; [lia | right; lia].
Qed.

Lemma plain_nonWhite (c : ascii) : plain c = true -> nonWhite c = true.
Proof. unfold plain. now intros [H _]%andb_true_iff. Qed.

Lemma nonWhite_nonSpace (c : ascii) : nonWhite c = true -> nonSpace c = true.
Proof.
  unfold nonWhite, nonSpace. rewrite !negb_true_iff. intros H.
  destruct (Ascii.eqb c " ") eqn:E; [|reflexivity].
  apply Ascii.eqb_eq in E. subst c. discriminate.
Qed.

Lemma append_empty_r (s : string) : (s ++ "")%string = s.
Proof. induction s as [|c r IH]; simpl; [reflexivity | now rewrite IH]. Qed.

Lemma Board_toFEN_rows (b : Board) :
  Board_toFEN b
  = fold_right
      (fun row rest => (row ++ String "/" rest)%string)
      (toFEN_cols b 7 (range 0 8) 0)
      (map (fun r => toFEN_cols b r (range 0 8) 0) [0; 1; 2; 3; 4; 5; 6]).
Proof.
  unfold Board_toFEN.
  change (range 0 8) with [0; 1; 2; 3; 4; 5; 6; 7] at 1.
  cbn [toFEN_rows map fold_right]. unfold rowSeparator.
  cbn [Z.ltb Z.compare Pos.compare Pos.compare_cont String.append].
  now rewrite append_empty_r.
Qed.

(* ------------------------------------------------------------------ *)
(** * Reading back the placement text *)

Lemma emptyRun_digit (k : Z) :
  1 <= k <= 8 ->
  exists d,
    emptyRun k = String d EmptyString
    /\ isOneToEight d = true /\ Js.digitValue d = k.
Proof.
  intros H.
  assert (Hk : k = 1 \/ k = 2 \/ k = 3 \/ k = 4 \/ k = 5 \/ k = 6 \/ k = 7
               \/ k = 8) by lia.
  repeat (destruct Hk as [->|Hk]); try subst k;
    eexists; repeat split.
Qed.

Lemma symbol_read (p : Piece) :
  isOneToEight (Piece_symbol p) = false
  /\ pieceOfChar (Piece_symbol p) = Some (kind p, color p).
Proof. destruct p as [[] [] ? ?]; split; reflexivity. Qed.

Lemma loadFEN_row_emptyRun (r k c : Z) (rest : string) (ps : list Piece) :
  0 <= k <= 8 ->
  loadFEN_row r (emptyRun k ++ rest) c ps = loadFEN_row r rest (c + k) ps.
Proof.
  intros Hk. destruct (Z.eq_dec k 0) as [->|Hne].
  - simpl. now rewrite Z.add_0_r.
  - destruct (emptyRun_digit k ltac:(lia)) as (d & -> & Hd & Hv).
    simpl. now rewrite Hd, Hv.
Qed.

Lemma loadFEN_row_toFEN_cols (b : Board) (r : Z) (cols : list Z) :
  forall k c ps,
    0 <= k -> 0 <= c ->
    c + k + Z.of_nat (List.length cols) = 8 ->
    consecutive (c + k) cols ->
    loadFEN_row r (toFEN_cols b r cols k) c ps
    = (true, 8, ps ++ rowPieces b r cols).
Proof.
  induction cols as [|x rest IH]; intros k c ps Hk Hc Hlen Hcons.
  - simpl in *. rewrite <- (append_empty_r (emptyRun k)).
    rewrite loadFEN_row_emptyRun by lia. simpl.
    rewrite app_nil_r. repeat f_equal. lia.
  - simpl in Hcons. destruct Hcons as [-> Hcons].
    cbn [toFEN_cols rowPieces flat_map].
    destruct (Board_getPieceAt b (mkPosition r (c + k))) as [p|] eqn:Hget.
    + rewrite loadFEN_row_emptyRun by (simpl in Hlen; lia).
      destruct (symbol_read p) as [H1 H2].
      cbn [loadFEN_row]. rewrite H1, H2.
      rewrite (IH 0 (c + k + 1)); try lia.
      * rewrite <- app_assoc. simpl.
        apply pieceAt_Some in Hget as [_ Hpos].
        unfold reloadPiece. now rewrite Hpos.
      * simpl in Hlen. lia.
      * now rewrite Z.add_0_r.
    + simpl app. apply IH; try lia.
      * simpl in Hlen. lia.
      * now replace (c + (k + 1)) with (c + k + 1) by lia.
Qed.

Lemma loadFEN_row_toFEN (b : Board) (r : Z) (ps : list Piece) :
  loadFEN_row r (toFEN_cols b r (range 0 8) 0) 0 ps
  = (true, 8, ps ++ rowPieces b r (range 0 8)).
Proof.
  apply loadFEN_row_toFEN_cols; try lia; [reflexivity|].
  vm_compute. repeat split.
Qed.

Lemma Board_loadFEN_toFEN (b0 b : Board) :
  Board_loadFEN b0 (Board_toFEN b) = (true, mkBoard (reloaded b) None []).
Proof.
  unfold Board_loadFEN. rewrite Board_toFEN_rows. cbn [map fold_right].
  assert (Hsep : forall r,
             allChars (fun c => negb (Ascii.eqb c "/"))
               (toFEN_cols b r (range 0 8) 0) = true).
  { intros r. eapply allChars_impl; [|apply toFEN_cols_plain].
    unfold plain. now intros c [_ H]%andb_true_iff. }
  rewrite !split_app, split_single by apply Hsep.
  cbn [List.length Z.of_nat Pos.of_succ_nat Pos.succ Z.eqb negb].
  cbn [loadFEN_rows].
  repeat (rewrite loadFEN_row_toFEN; cbn [andb Z.eqb Pos.eqb Z.add Pos.add Pos.succ]).
  cbn [app negb]. unfold reloaded.
  change (flat_map (fun r => rowPieces b r (range 0 8)) (range 0 8))
    with (flat_map (fun r => rowPieces b r (range 0 8))
            [0; 1; 2; 3; 4; 5; 6; 7]).
  cbn [flat_map]. now rewrite app_nil_r, !app_assoc.
Qed.

(* ------------------------------------------------------------------ *)
(** * The fields of the FEN text *)

Lemma turnLetter_plain (c : Color) : allChars plain (turnLetter c) = true.
Proof. destruct c; reflexivity. Qed.

Lemma castlingRight_plain (b : Board) (c : Color) (column : Z)
    (letter : string) :
  allChars plain letter = true ->
  allChars plain (castlingRight b c column letter) = true.
Proof.
  intros H. unfold castlingRight.
  destruct (Board_getKing b c); [|reflexivity].
  destruct (findRook b c column); [|reflexivity].
  destruct (_ && _); [assumption | reflexivity].
Qed.

Lemma castlingField_plain (b : Board) : allChars plain (castlingField b) = true.
Proof.
  unfold castlingField. destruct (String.eqb _ _); [reflexivity|].
  rewrite !allChars_app, !castlingRight_plain; reflexivity.
Qed.

Lemma index_plain (arr : list ascii) (i : Z) :
  forallb plain arr = true -> allChars plain (Js.index arr i) = true.
Proof.
  intros H. unfold Js.index. destruct (i <? 0); [reflexivity|].
  destruct (nth_error arr (Z.to_nat i)) as [c|] eqn:E; [|reflexivity].
  simpl. rewrite andb_true_r. rewrite forallb_forall in H.
  apply H. eapply nth_error_In; eassumption.
Qed.

Lemma toAlgebraic_plain (p : Position) :
  allChars plain (Js.toString (Position_toAlgebraic p)) = true.
Proof.
  unfold Position_toAlgebraic.
  destruct (Js.inRange FILES (col p) || Js.inRange RANKS (7 - row p));
    [|reflexivity].
  cbn [Js.toString]. rewrite allChars_app, !index_plain; reflexivity.
Qed.

Lemma enPassantText_plain (ep : option Position) :
  allChars plain (enPassantText ep) = true.
Proof. destruct ep; [apply toAlgebraic_plain | reflexivity]. Qed.

Lemma Board_toFEN_nonWhite (b : Board) :
  allChars nonWhite (Board_toFEN b) = true.
Proof.
  rewrite Board_toFEN_rows. cbn [map fold_right].
  assert (H : forall r, allChars nonWhite (toFEN_cols b r (range 0 8) 0) = true).
  { intros r. eapply allChars_impl; [apply plain_nonWhite|].
    apply toFEN_cols_plain. }
  repeat (rewrite allChars_app; cbn [allChars]). rewrite !H. reflexivity.
Qed.

Lemma Board_toFEN_nonEmpty (b : Board) : Board_toFEN b <> EmptyString.
Proof.
  rewrite Board_toFEN_rows. cbn [map fold_right].
  assert (Hr : range 0 8 <> []) by (vm_compute; discriminate).
  pose proof (toFEN_cols_nonEmpty b 0 (range 0 8) 0 ltac:(lia)
                (or_introl Hr)) as H.
  destruct (toFEN_cols b 0 (range 0 8) 0); [contradiction | discriminate].
Qed.

Lemma trimStart_clean (s : string) :
  allChars nonWhite s = true -> Js.trimStart s = s.
Proof.
  destruct s as [|c r]; simpl; [reflexivity|].
  unfold nonWhite. rewrite andb_true_iff, negb_true_iff. now intros [-> _].
Qed.

Lemma app_String_nonEmpty (s t : string) (c : ascii) :
  (s ++ String c t)%string <> EmptyString.
Proof. destruct s; discriminate. Qed.

Lemma trimEnd_field (f rest : string) :
  Js.trimEnd rest = rest -> rest <> EmptyString ->
  Js.trimEnd (f ++ String " " rest) = (f ++ String " " rest)%string.
Proof.
  intros H Hne. apply trimEnd_app; [|discriminate].
  now apply (trimEnd_app (String " " EmptyString) rest).
Qed.

Lemma trimStart_field (f rest : string) :
  allChars nonWhite f = true -> f <> EmptyString ->
  Js.trimStart (f ++ rest) = (f ++ rest)%string.
Proof.
  destruct f as [|c r]; [contradiction|]. simpl.
  unfold nonWhite. rewrite andb_true_iff, negb_true_iff. now intros [-> _] _.
Qed.

Lemma fields_of_six (f1 f2 f3 f4 f5 f6 : string) :
  allChars nonWhite f1 = true -> f1 <> EmptyString ->
  allChars nonWhite f2 = true ->
  allChars nonWhite f3 = true ->
  allChars nonWhite f4 = true ->
  allChars nonWhite f5 = true ->
  allChars nonWhite f6 = true -> f6 <> EmptyString ->
  fieldsOf
    (f1 ++ String " " (f2 ++ String " " (f3 ++ String " "
       (f4 ++ String " " (f5 ++ String " " f6)))))
  = [f1; f2; f3; f4; f5; f6].
Proof.
  intros H1 N1 H2 H3 H4 H5 H6 N6. unfold fieldsOf, Js.trim.
  rewrite trimStart_field by assumption.
  assert (S : forall f, allChars nonWhite f = true ->
                        allChars (fun c => negb (Ascii.eqb c " ")) f = true).
  { intros f. apply allChars_impl, nonWhite_nonSpace. }
  assert (E6 : Js.trimEnd f6 = f6) by now apply trimEnd_clean.
  pose proof (trimEnd_field f5 f6 E6 N6) as E5.
  pose proof (trimEnd_field f4 _ E5 (app_String_nonEmpty _ _ _)) as E4.
  pose proof (trimEnd_field f3 _ E4 (app_String_nonEmpty _ _ _)) as E3.
  pose proof (trimEnd_field f2 _ E3 (app_String_nonEmpty _ _ _)) as E2.
  rewrite (trimEnd_field f1 _ E2 (app_String_nonEmpty _ _ _)).
  rewrite !split_app, split_single by (apply S; assumption). reflexivity.
Qed.

(* ------------------------------------------------------------------ *)
(** * Sorting by a comparator *)

Section SortByKey.

Variables (A K : Type) (key : A -> K) (cmp : A -> A -> Z).

Let le (x y : A) : Prop := cmp x y <= 0.

Hypothesis cmp_key :
  forall x x' y y', key x = key x' -> key y = key y' -> cmp x y = cmp x' y'.
Hypothesis le_total : forall x y, le x y \/ le y x.
Hypothesis le_trans : forall x y z, le x y -> le y z -> le x z.
Hypothesis le_antisym : forall x y, le x y -> le y x -> key x = key y.

Lemma insertBy_perm (x : A) (l : list A) :
  Permutation (insertBy cmp x l) (x :: l).
Proof.
  induction l as [|y r IH]; simpl; [reflexivity|].
  destruct (cmp x y <=? 0); [reflexivity|].
  rewrite IH. apply perm_swap.
Qed.

Lemma sortBy_perm (l : list A) : Permutation (sortBy cmp l) l.
Proof.
  induction l as [|x r IH]; simpl; [reflexivity|].
  now rewrite insertBy_perm, IH.
Qed.

Lemma insertBy_sorted (x : A) (l : list A) :
  StronglySorted le l -> StronglySorted le (insertBy cmp x l).
Proof.
  induction 1 as [|y r Hr IH Hy]; simpl.
  - repeat constructor.
  - destruct (cmp x y <=? 0) eqn:E.
    + apply Z.leb_le in E. constructor; [now constructor|].
      constructor; [exact E|].
      rewrite Forall_forall in *. intros z Hz. eapply le_trans; eauto.
    + apply Z.leb_gt in E. constructor; [assumption|].
      rewrite Forall_forall in *. intros z Hz.
      apply (Permutation_in _ (insertBy_perm x r)) in Hz.
      destruct Hz as [<-|Hz]; [|auto].
      destruct (le_total y x) as [H|H]; [exact H | unfold le in H; lia].
Qed.

Lemma sortBy_sorted (l : list A) : StronglySorted le (sortBy cmp l).
Proof.
  induction l as [|x r IH]; simpl; [constructor | now apply insertBy_sorted].
Qed.

Lemma sorted_keys_unique (l : list A) :
  forall l',
    StronglySorted le l -> StronglySorted le l' ->
    Permutation (map key l) (map key l') ->
    map key l = map key l'.
Proof.
  induction l as [|a t IH]; intros [|a' t'] Hl Hl' Hp; simpl in *.
  - reflexivity.
  - apply Permutation_nil in Hp. discriminate.
  - apply Permutation_sym, Permutation_nil in Hp. discriminate.
  - inversion Hl as [|? ? Ht Ha]; inversion Hl' as [|? ? Ht' Ha']; subst.
    rewrite Forall_forall in Ha, Ha'.
    assert (Hk : key a = key a').
    { assert (H1 : key a = key a' \/ le a' a).
      { assert (Hin : In (key a) (key a' :: map key t'))
          by (eapply Permutation_in; [exact Hp | now left]).
        destruct Hin as [Hin|Hin]; [now left | right].
        apply in_map_iff in Hin as (y & Hy & Hin).
        unfold le. rewrite (cmp_key a' a' a y eq_refl (eq_sym Hy)).
        now apply Ha'. }
      assert (H2 : key a = key a' \/ le a a').
      { assert (Hin : In (key a') (key a :: map key t))
          by (eapply Permutation_in;
              [apply Permutation_sym; exact Hp | now left]).
        destruct Hin as [Hin|Hin]; [now left | right].
        apply in_map_iff in Hin as (y & Hy & Hin).
        unfold le. rewrite (cmp_key a a a' y eq_refl (eq_sym Hy)).
        now apply Ha. }
      destruct H1 as [H1|H1]; [assumption|].
      destruct H2 as [H2|H2]; [assumption|]. now apply le_antisym. }
    rewrite Hk in *. f_equal. apply IH; try assumption.
    eapply Permutation_cons_inv; eassumption.
Qed.

Lemma sortBy_keys (l l' : list A) :
  Permutation (map key l) (map key l') ->
  map key (sortBy cmp l) = map key (sortBy cmp l').
Proof.
  intros Hp. apply sorted_keys_unique; try apply sortBy_sorted.
  now rewrite (Permutation_map key (sortBy_perm l)),
    (Permutation_map key (sortBy_perm l')).
Qed.

End SortByKey.

(* ------------------------------------------------------------------ *)
(** * The signature reads class, colour and square only *)

Lemma comparePieces_le (a b : Piece) :
  comparePieces a b <= 0 <->
  (rank a < rank b
   \/ (rank a = rank b
       /\ (row (position a) < row (position b)
           \/ (row (position a) = row (position b)
               /\ col (position a) <= col (position b))))).
Proof.
  destruct a as [ka ca [ra ca'] ha], b as [kb cb [rb cb'] hb].
  unfold comparePieces, rank. simpl.
  destruct (ra =? rb) eqn:E; [apply Z.eqb_eq in E | apply Z.eqb_neq in E];
    destruct ka, ca, kb, cb; simpl;
    repeat match goal with
           | |- context [localeCompare ?s ?t] =>
               let v := eval vm_compute in (localeCompare s t) in
               change (localeCompare s t) with v
           | |- context [symbolRank ?s] =>
               let v := eval vm_compute in (symbolRank s) in
               change (symbolRank s) with v
           end; lia.
Qed.

Lemma rank_key (a b : Piece) :
  rank a = rank b -> kind a = kind b /\ color a = color b.
Proof.
  destruct a as [ka ca pa ha], b as [kb cb pb hb]. unfold rank.
  destruct ka, ca, kb, cb; vm_compute; intros H;
    (split; reflexivity) || discriminate.
Qed.

Lemma pieceKey_compare (x x' y y' : Piece) :
  pieceKey x = pieceKey x' -> pieceKey y = pieceKey y' ->
  comparePieces x y = comparePieces x' y'.
Proof.
  destruct x, x', y, y'. unfold pieceKey; simpl.
  intros [= -> -> ->] [= -> -> ->]. reflexivity.
Qed.

Lemma sorted_pieceKeys (l l' : list Piece) :
  Permutation (map pieceKey l) (map pieceKey l') ->
  map pieceKey (sortBy comparePieces l)
  = map pieceKey (sortBy comparePieces l').
Proof.
  apply sortBy_keys.
  - exact pieceKey_compare.
  - intros x y. rewrite !comparePieces_le. lia.
  - intros x y z. rewrite !comparePieces_le. lia.
  - intros x y. rewrite !comparePieces_le. intros H1 H2.
    assert (Hr : rank x = rank y) by lia.
    destruct (rank_key _ _ Hr) as [Hk Hc].
    unfold pieceKey. rewrite Hk, Hc. f_equal.
    destruct (position x), (position y); simpl in *. f_equal; lia.
Qed.

Lemma signatureOfPiece_key (p q : Piece) :
  pieceKey p = pieceKey q -> signatureOfPiece p = signatureOfPiece q.
Proof.
  destruct p, q. unfold pieceKey; simpl. intros [= -> -> ->]. reflexivity.
Qed.

Lemma map_signature_keys (l l' : list Piece) :
  map pieceKey l = map pieceKey l' ->
  map signatureOfPiece l = map signatureOfPiece l'.
Proof.
  revert l'. induction l as [|x r IH]; intros [|y r'] H; cbn [map] in *;
    try discriminate; [reflexivity|].
  pose proof (f_equal (hd (pieceKey x)) H) as Hk.
  pose proof (f_equal (@tl _) H) as Hr. cbn [hd tl] in Hk, Hr.
  f_equal; [now apply signatureOfPiece_key | auto].
Qed.

Lemma signature_of_keys (b b' : Board) :
  Permutation (map pieceKey (pieces b')) (map pieceKey (pieces b)) ->
  enPassantTarget b' = enPassantTarget b ->
  Board_getPositionSignature b' = Board_getPositionSignature b.
Proof.
  intros Hp Hep. unfold Board_getPositionSignature. rewrite Hep.
  now rewrite (map_signature_keys _ _ (sorted_pieceKeys _ _ Hp)).
Qed.

(* ------------------------------------------------------------------ *)
(** * The reloaded array and the array it came from *)

Lemma flat_map_of_map {X Y W : Type} (F : Y -> list W) (g : X -> Y)
    (l : list X) :
  flat_map F (map g l) = flat_map (fun x => F (g x)) l.
Proof. induction l as [|x r IH]; simpl; [reflexivity | now rewrite IH]. Qed.

Lemma flat_map_rows (F : Position -> list Piece) (cols rows : list Z) :
  flat_map (fun r => flat_map (fun c => F (mkPosition r c)) cols) rows
  = flat_map F (flat_map (fun r => map (fun c => mkPosition r c) cols) rows).
Proof.
  induction rows as [|r rest IH]; simpl; [reflexivity|].
  now rewrite flat_map_app, IH, flat_map_of_map.
Qed.

Lemma reloaded_squares (b : Board) :
  reloaded b = flat_map (reloadSquare b) allSquares.
Proof. unfold allSquares. rewrite <- flat_map_rows. reflexivity. Qed.

Lemma In_allSquares (sq : Position) :
  Position_isValid sq = true -> In sq allSquares.
Proof.
  intros H. apply Position_isValid_bounds in H. destruct sq as [r c].
  simpl in H. unfold allSquares. apply in_flat_map.
  exists r. split; [apply In_range; lia|].
  apply in_map. apply In_range. lia.
Qed.

Lemma allSquares_NoDup : NoDup allSquares.
Proof.
  vm_compute. repeat (constructor; [simpl; intuition discriminate|]).
  constructor.
Qed.

Lemma reloadSquare_position (b : Board) (sq : Position) (p : Piece) :
  In p (reloadSquare b sq) -> position p = sq.
Proof.
  unfold reloadSquare.
  destruct (Board_getPieceAt b sq) as [q|] eqn:E; [|intros []].
  intros [<-|[]]. apply pieceAt_Some in E as [_ E]. exact E.
Qed.

Lemma reloaded_positions_NoDup (b : Board) (squares : list Position) :
  NoDup squares ->
  NoDup (map position (flat_map (reloadSquare b) squares)).
Proof.
  induction 1 as [|sq rest Hsq Hrest IH]; simpl; [constructor|].
  rewrite map_app. apply NoDup_app; [| exact IH |].
  - unfold reloadSquare. destruct (Board_getPieceAt b sq); simpl;
      repeat constructor; simpl; tauto.
  - intros pos H1 H2.
    apply in_map_iff in H1 as (p & <- & Hp).
    apply reloadSquare_position in Hp.
    apply in_map_iff in H2 as (q & Hq & Hin).
    apply in_flat_map in Hin as (sq' & Hsq' & Hin).
    apply reloadSquare_position in Hin. congruence.
Qed.

Lemma NoDup_map_position_key (ps : list Piece) :
  NoDup (map position ps) -> NoDup (map pieceKey ps).
Proof.
  intros H. replace (map position ps) with (map snd (map pieceKey ps)) in H
    by (rewrite map_map; reflexivity).
  eapply NoDup_map_inv; eassumption.
Qed.

Lemma same_square_same_piece (ps : list Piece) (p q : Piece) :
  noSharedSquare ps -> In p ps -> In q ps -> position p = position q ->
  p = q.
Proof.
  unfold noSharedSquare. induction ps as [|x r IH]; simpl; [tauto|].
  intros H Hp Hq Heq. inversion H as [|? ? Hx Hr]; subst.
  destruct Hp as [->|Hp], Hq as [->|Hq]; auto.
  - exfalso. apply Hx. rewrite Heq. now apply in_map.
  - exfalso. apply Hx. rewrite <- Heq. now apply in_map.
Qed.

Lemma reloaded_keys (b : Board) :
  noSharedSquare (pieces b) -> Forall onBoard (pieces b) ->
  Permutation (map pieceKey (reloaded b)) (map pieceKey (pieces b)).
Proof.
  intros Hu Hv. rewrite reloaded_squares.
  apply NoDup_Permutation.
  - apply NoDup_map_position_key, reloaded_positions_NoDup, allSquares_NoDup.
  - now apply NoDup_map_position_key.
  - intros k. rewrite !in_map_iff. split.
    + intros (p & <- & Hin). apply in_flat_map in Hin as (sq & _ & Hin).
      unfold reloadSquare in Hin.
      destruct (Board_getPieceAt b sq) as [q|] eqn:E; [|destruct Hin].
      destruct Hin as [<-|[]]. apply pieceAt_Some in E as [E _].
      exists q. split; [reflexivity | exact E].
    + intros (p & <- & Hin). exists (reloadPiece p). split; [reflexivity|].
      apply in_flat_map. exists (position p). split.
      * apply In_allSquares. rewrite Forall_forall in Hv. now apply Hv.
      * unfold reloadSquare.
        destruct (Board_getPieceAt b (position p)) as [q|] eqn:E.
        -- apply pieceAt_Some in E as [Hq Hpos].
           rewrite (same_square_same_piece _ q p Hu Hq Hin Hpos). now left.
        -- exfalso. exact (pieceAt_None _ _ E p Hin eq_refl).
Qed.

Lemma updateFirst_setHasMoved_keys (f : Piece -> bool) (v : bool)
    (ps : list Piece) :
  map pieceKey (updateFirst f (setHasMoved v) ps) = map pieceKey ps.
Proof.
  induction ps as [|x l IH]; simpl; [reflexivity|].
  destruct (f x); simpl; [reflexivity | now rewrite IH].
Qed.

Lemma applyCastlingField_keys (castling : string) (ps : list Piece) :
  map pieceKey (applyCastlingField castling ps) = map pieceKey ps.
Proof.
  assert (Hmark : map pieceKey (markKingsAndRooks ps) = map pieceKey ps).
  { unfold markKingsAndRooks. rewrite map_map. apply map_ext.
    intros p. destruct (_ || _); reflexivity. }
  assert (Hking : forall c l1 l2 l,
             map pieceKey (restoreKing castling c l1 l2 l) = map pieceKey l).
  { intros. unfold restoreKing. destruct (_ || _); [|reflexivity].
    apply updateFirst_setHasMoved_keys. }
  assert (Hrook : forall letter c column l,
             map pieceKey (restoreRook castling letter c column l)
             = map pieceKey l).
  { intros. unfold restoreRook. destruct (Js.includes _ _); [|reflexivity].
    destruct (findRook _ _ _); [|reflexivity].
    apply updateFirst_setHasMoved_keys. }
  unfold applyCastlingField. destruct (negb _); [|assumption].
  now rewrite !Hrook, !Hking.
Qed.

(* ------------------------------------------------------------------ *)
(** * The round trip *)

Lemma toAlgebraic_not_dash (p : Position) :
  Position_isValid p = true ->
  String.eqb (Js.toString (Position_toAlgebraic p)) "-" = false.
Proof.
  intros H. apply Position_isValid_bounds in H. destruct p as [r c].
  simpl in H.
  assert (Hr : r = 0 \/ r = 1 \/ r = 2 \/ r = 3 \/ r = 4 \/ r = 5 \/ r = 6
               \/ r = 7) by lia.
  assert (Hc : c = 0 \/ c = 1 \/ c = 2 \/ c = 3 \/ c = 4 \/ c = 5 \/ c = 6
               \/ c = 7) by lia.
  clear H.
  repeat (destruct Hr as [->|Hr]);
    try subst r; repeat (destruct Hc as [->|Hc]); try subst c; reflexivity.
Qed.

Lemma getFEN_fields (g : Game) :
  fieldsOf (Game_getFEN g)
  = [Board_toFEN (board g); turnLetter (currentTurn g);
     castlingField (board g);
     enPassantText (Board_getEnPassantTarget (board g));
     Js.numberToString (halfMoveClock g);
     Js.numberToString (fullMoveNumber g)].
Proof.
  unfold Game_getFEN.
  change (String.append " ") with (String " "%char).
  apply fields_of_six.
  - apply Board_toFEN_nonWhite.
  - apply Board_toFEN_nonEmpty.
  - eapply allChars_impl; [apply plain_nonWhite | apply turnLetter_plain].
  - eapply allChars_impl; [apply plain_nonWhite | apply castlingField_plain].
  - eapply allChars_impl; [apply plain_nonWhite | apply enPassantText_plain].
  - eapply allChars_impl; [apply plain_nonWhite | apply numberToString_plain].
  - eapply allChars_impl; [apply plain_nonWhite | apply numberToString_plain].
  - apply numberToString_nonEmpty.
Qed.

Lemma loadFEN_getFEN (g0 g : Game) :
  Sound g ->
  exists g',
    Game_loadFEN g0 (Game_getFEN g) = (true, g')
    /\ Board_getPositionSignature (board g')
       = Board_getPositionSignature (board g).
Proof.
  intros S. unfold Game_loadFEN.
  pose proof (getFEN_fields g) as Hf. unfold fieldsOf in Hf. rewrite Hf.
  rewrite Board_loadFEN_toFEN. simpl negb. cbv iota.
  destruct (sound_clock _ S) as [h Hh]. destruct (sound_number _ S) as [n Hn].
  rewrite Hh, Hn, !parseInt_numberToString.
  set (ps := applyCastlingField (castlingField (board g))
               (pieces (mkBoard (reloaded (board g)) None []))).
  assert (Hep :
    (if negb (String.eqb (enPassantText (Board_getEnPassantTarget (board g)))
                "-")
     then option_map Some
            (Position_fromAlgebraic
               (enPassantText (Board_getEnPassantTarget (board g))))
     else Some None)
    = Some (enPassantTarget (board g))).
  { unfold Board_getEnPassantTarget.
    destruct (enPassantTarget (board g)) as [ep|] eqn:E; [|reflexivity].
    pose proof (sound_enPassant _ S ep E) as Hv. simpl enPassantText.
    now rewrite (toAlgebraic_not_dash _ Hv), (fromAlgebraic_text _ Hv). }
  rewrite Hep. eexists. split; [reflexivity|].
  unfold Game_updateGameStatus. simpl board.
  apply signature_of_keys; [|reflexivity].
  simpl pieces. subst ps. rewrite applyCastlingField_keys. simpl pieces.
  apply reloaded_keys; [apply (sound_unique _ S) | apply (sound_onBoard _ S)].
Qed.

(** C7.  For every game reachable from the initial position by
    successful [makeMove] calls, [loadFEN] (on any game) accepts the
    text [getFEN] gives for it, and the board it loads has the position
    signature of the board the text was taken from. *)
Theorem fen_round_trip_keeps_signature (g0 g : Game) :
  Reachable g ->
  exists g',
    Game_loadFEN g0 (Game_getFEN g) = (true, g')
    /\ Board_getPositionSignature (board g')
       = Board_getPositionSignature (board g).
Proof. intros R. apply loadFEN_getFEN. now apply reachable_sound. Qed.

Lemma fen_round_trip_keeps_signature_witness :
  exists g',
    Game_loadFEN Game_new
      (Game_getFEN
         (snd (Game_makeMove Game_new (Algebraic "e2") (Algebraic "e4") "Q")))
    = (true, g')
    /\ Board_getPositionSignature (board g')
       = Board_getPositionSignature
           (board (snd (Game_makeMove Game_new (Algebraic "e2")
                          (Algebraic "e4") "Q"))).
Proof.
  apply fen_round_trip_keeps_signature.
  destruct (Game_makeMove Game_new (Algebraic "e2") (Algebraic "e4") "Q")
    as [res g'] eqn:E.
  assert (Hres : exists m s, res = MoveMade m s).
  { apply (f_equal fst) in E. vm_compute in E. subst res. eauto. }
  destruct Hres as (m & s & ->).
  exact (Reachable_move _ _ _ _ _ _ _ Reachable_new E).
Defined.

(* ================================================================== *)
(** * Squares and their names *)
(* ================================================================== *)

Lemma index_cases (arr : list ascii) (i : Z) :
  (exists ch, Js.index arr i = Js.str ch
              /\ 0 <= i < Z.of_nat (List.length arr))
  \/ Js.index arr i = "undefined"%string.
Proof.
  unfold Js.index. destruct (i <? 0) eqn:E; [now right|].
  apply Z.ltb_ge in E.
  destruct (nth_error arr (Z.to_nat i)) as [ch|] eqn:N; [|now right].
  left. exists ch. split; [reflexivity|].
  assert (Z.to_nat i < List.length arr)%nat
    by (apply nth_error_Some; congruence).
  lia.
Qed.

Lemma fromAlgebraic_length (s : string) (p : Position) :
  Position_fromAlgebraic s = Some p -> String.length s = 2%nat.
Proof.
  unfold Position_fromAlgebraic.
  destruct s as [|c0 [|c1 [|c2 s]]]; try discriminate. reflexivity.
Qed.

Lemma length_append (s t : string) :
  String.length (s ++ t) = (String.length s + String.length t)%nat.
Proof. induction s; simpl; [reflexivity | now rewrite IHs]. Qed.

Lemma existsb_In_eqb (c : ascii) (l : list ascii) :
  existsb (Ascii.eqb c) l = true -> In c l.
Proof.
  intros H. apply existsb_exists in H as (x & Hin & E).
  apply Ascii.eqb_eq in E. now subst.
Qed.

Lemma fromAlgebraic_inv (s : string) (p : Position) :
  Position_fromAlgebraic s = Some p ->
  Position_isValid p = true
  /\ exists f r,
       s = String f (String r EmptyString)
       /\ Position_toAlgebraic p
          = Js.Str (String (Js.toLowerCase f) (String r EmptyString)).
Proof.
  unfold Position_fromAlgebraic.
  destruct s as [|f [|r [|c2 s]]]; try discriminate.
  destruct (existsb (Ascii.eqb (Js.toLowerCase f)) FILES) eqn:Ef;
    [|discriminate].
  destruct (existsb (Ascii.eqb r) RANKS) eqn:Er; [|discriminate].
  simpl. intros [= <-].
  apply existsb_In_eqb in Ef, Er.
  assert (Hv : Position_isValid
                 (mkPosition (8 - Js.digitValue r)
                    (Js.indexOf FILES (Js.toLowerCase f))) = true
               /\ Position_toAlgebraic
                    (mkPosition (8 - Js.digitValue r)
                       (Js.indexOf FILES (Js.toLowerCase f)))
                  = Js.Str (String (Js.toLowerCase f) (String r EmptyString))).
  { simpl in Ef, Er.
    repeat (destruct Ef as [<-|Ef]); try contradiction;
      repeat (destruct Er as [<-|Er]); try contradiction;
      split; vm_compute; reflexivity. }
  destruct Hv as [Hv Ht]. split; [exact Hv|].
  exists f, r. split; [reflexivity | exact Ht].
Qed.

Lemma inRange_iff (arr : list ascii) (i : Z) :
  Js.inRange arr i = true <-> 0 <= i < Z.of_nat (List.length arr).
Proof. unfold Js.inRange. rewrite andb_true_iff, Z.leb_le, Z.ltb_lt. lia. Qed.

Lemma toAlgebraic_NaN (p : Position) :
  Position_toAlgebraic p = Js.Number Js.NaN
  <-> ~ 0 <= col p < 8 /\ ~ 0 <= row p < 8.
Proof.
  unfold Position_toAlgebraic.
  destruct (Js.inRange FILES (col p)) eqn:Ec;
    destruct (Js.inRange RANKS (7 - row p)) eqn:Er; cbn [orb];
    try apply inRange_iff in Ec; try apply inRange_iff in Er;
    try apply not_true_iff_false in Ec; try apply not_true_iff_false in Er;
    try rewrite inRange_iff in Ec; try rewrite inRange_iff in Er;
    change (Z.of_nat (List.length FILES)) with 8 in *;
    change (Z.of_nat (List.length RANKS)) with 8 in *;
    (split; [try discriminate; intros _; lia | intros [H1 H2]]);
    try reflexivity; exfalso; lia.
Qed.

Lemma toAlgebraic_read_back (p q : Position) :
  Position_fromAlgebraic_value (Position_toAlgebraic p) = Some q ->
  Position_isValid p = true.
Proof.
  unfold Position_toAlgebraic.
  destruct (Js.inRange FILES (col p) || Js.inRange RANKS (7 - row p));
    [|discriminate].
  cbn [Position_fromAlgebraic_value]. intros H.
  apply fromAlgebraic_length in H. rewrite length_append in H.
  apply Position_isValid_bounds.
  destruct (index_cases FILES (col p)) as [(c & Ec & Hc)|Ec];
    destruct (index_cases RANKS (7 - row p)) as [(r & Er & Hr)|Er];
    rewrite Ec, Er in H; simpl in H; try discriminate.
  change (Z.of_nat (List.length FILES)) with 8 in Hc.
  change (Z.of_nat (List.length RANKS)) with 8 in Hr. lia.
Qed.

(** What [toAlgebraic] gives for a position reads back through
    [fromAlgebraic] as that position exactly when the position is on
    the board.  Off the board [fromAlgebraic] throws on it: it is the
    number [NaN] when both coordinates are off the board, and otherwise
    a text that holds [undefined] in the place of a letter or a digit.
    A text [fromAlgebraic] accepts has two characters and names a
    square of the board, and that square prints as the text with its
    file letter in lower case. *)
Theorem algebraic_text_names_the_squares_of_the_board :
  (forall p,
     Position_fromAlgebraic_value (Position_toAlgebraic p) = Some p
     <-> Position_isValid p = true)
  /\ (forall p,
        Position_isValid p = false ->
        Position_fromAlgebraic_value (Position_toAlgebraic p) = None)
  /\ (forall p,
        Position_toAlgebraic p = Js.Number Js.NaN
        <-> ~ 0 <= col p < 8 /\ ~ 0 <= row p < 8)
  /\ (forall p,
        Position_isValid p = false ->
        Position_toAlgebraic p <> Js.Number Js.NaN ->
        exists before after,
          Position_toAlgebraic p
          = Js.Str (before ++ "undefined" ++ after))
  /\ (forall s p,
        Position_fromAlgebraic s = Some p ->
        Position_isValid p = true
        /\ exists f r,
             s = String f (String r EmptyString)
             /\ Position_toAlgebraic p
                = Js.Str (String (Js.toLowerCase f) (String r EmptyString))).
Proof.
  split; [|split; [|split; [exact toAlgebraic_NaN|split]]];
    [| | |exact fromAlgebraic_inv].
  - intros p. split; [apply toAlgebraic_read_back|].
    apply fromAlgebraic_toAlgebraic.
  - intros p Hp.
    destruct (Position_fromAlgebraic_value (Position_toAlgebraic p))
      as [q|] eqn:E; [|reflexivity].
    apply toAlgebraic_read_back in E. congruence.
  - intros p Hp. unfold Position_toAlgebraic.
    destruct (Js.inRange FILES (col p) || Js.inRange RANKS (7 - row p));
      [|congruence].
    intros _.
    destruct (index_cases FILES (col p)) as [(c & Ec & Hc)|Ec];
      destruct (index_cases RANKS (7 - row p)) as [(r & Er & Hr)|Er];
      rewrite Ec, Er.
    + exfalso. apply not_true_iff_false in Hp. apply Hp.
      apply Position_isValid_bounds.
      change (Z.of_nat (List.length FILES)) with 8 in Hc.
      change (Z.of_nat (List.length RANKS)) with 8 in Hr. lia.
    + exists (Js.str c), EmptyString. reflexivity.
    + exists EmptyString, (Js.str r). reflexivity.
    + exists EmptyString, "undefined"%string. reflexivity.
Qed.

(* ================================================================== *)
(** * The squares a sliding piece passes *)
(* ================================================================== *)

Lemma isPathClear_loop_true (b : Board) (target : Position)
    (rowStep colStep : Z) (fuel : nat) :
  rowStep <> 0 \/ colStep <> 0 ->
  forall (j currentRow currentCol : Z),
    0 <= j <= Z.of_nat fuel ->
    row target = currentRow + j * rowStep ->
    col target = currentCol + j * colStep ->
    (isPathClear_loop fuel b target rowStep colStep currentRow currentCol
     = Some true
     <-> forall i, 0 <= i < j ->
           Board_getPieceAt b
             (mkPosition (currentRow + i * rowStep) (currentCol + i * colStep))
           = None).
Proof.
  intros Hstep. induction fuel as [|fuel IH]; intros j cr cc Hj Hr Hc.
  - assert (j = 0) by lia. subst j. simpl.
    replace (cr =? row target) with true by (symmetry; apply Z.eqb_eq; lia).
    replace (cc =? col target) with true by (symmetry; apply Z.eqb_eq; lia).
    simpl. split; [intros _ i Hi; lia | reflexivity].
  - simpl.
    destruct ((cr =? row target) && (cc =? col target)) eqn:E; simpl.
    + apply andb_true_iff in E as [E1 E2].
      apply Z.eqb_eq in E1, E2.
      assert (j = 0) by nia. subst j.
      split; [intros _ i Hi; lia | reflexivity].
    + assert (Hpos : 0 < j).
      { destruct (Z.eq_dec j 0) as [->|]; [|lia].
        apply andb_false_iff in E as [E|E]; apply Z.eqb_neq in E; lia. }
      destruct (isSome (Board_getPieceAt b (mkPosition cr cc))) eqn:Hocc.
      * split; [discriminate|].
        intros Hall. specialize (Hall 0 ltac:(lia)).
        replace (cr + 0 * rowStep) with cr in Hall by lia.
        replace (cc + 0 * colStep) with cc in Hall by lia.
        rewrite Hall in Hocc. discriminate.
      * rewrite (IH (j - 1) (cr + rowStep) (cc + colStep)) by lia.
        split; intros Hall i Hi.
        -- destruct (Z.eq_dec i 0) as [->|Hne].
           ++ replace (cr + 0 * rowStep) with cr by lia.
              replace (cc + 0 * colStep) with cc by lia.
              destruct (Board_getPieceAt b (mkPosition cr cc));
                [discriminate | reflexivity].
           ++ specialize (Hall (i - 1) ltac:(lia)).
              replace (cr + rowStep + (i - 1) * rowStep)
                with (cr + i * rowStep) in Hall by lia.
              replace (cc + colStep + (i - 1) * colStep)
                with (cc + i * colStep) in Hall by lia.
              exact Hall.
        -- specialize (Hall (i + 1) ltac:(lia)).
           replace (cr + (i + 1) * rowStep)
             with (cr + rowStep + i * rowStep) in Hall by lia.
           replace (cc + (i + 1) * colStep)
             with (cc + colStep + i * colStep) in Hall by lia.
           exact Hall.
Qed.

Lemma isPathClear_between (p : Piece) (b : Board) (target : Position) :
  let dr := row target - row (position p) in
  let dc := col target - col (position p) in
  Js.abs dr = Js.abs dc \/ dr = 0 \/ dc = 0 ->
  (Piece_isPathClear p b target = true
   <-> forall sq, squaresBetween p target sq -> Board_getPieceAt b sq = None).
Proof.
  intros dr dc Hline.
  unfold Piece_isPathClear, Piece_isPathClear_opt.
  fold dr dc. unfold Js.sign, Js.abs in *.
  set (n := Z.max (Z.abs dr) (Z.abs dc)).
  destruct (Z.eq_dec n 0) as [Hn|Hn].
  - assert (dr = 0 /\ dc = 0) as [Hr Hc] by lia.
    rewrite Hn, Hr, Hc. simpl.
    replace (row (position p) + 0 =? row target) with true
      by (symmetry; apply Z.eqb_eq; lia).
    replace (col (position p) + 0 =? col target) with true
      by (symmetry; apply Z.eqb_eq; lia).
    simpl. split; [|reflexivity].
    intros _ sq (k & Hk & _). fold dr dc in Hk. unfold Js.abs in Hk. lia.
  - assert (Hstep : Z.sgn dr <> 0 \/ Z.sgn dc <> 0) by lia.
    assert (Hspec :=
      isPathClear_loop_true b target (Z.sgn dr) (Z.sgn dc) (Z.to_nat n) Hstep
        (n - 1) (row (position p) + Z.sgn dr) (col (position p) + Z.sgn dc)).
    assert (Hr : row target = row (position p) + Z.sgn dr + (n - 1) * Z.sgn dr)
      by (subst n dr dc; nia).
    assert (Hc : col target = col (position p) + Z.sgn dc + (n - 1) * Z.sgn dc)
      by (subst n dr dc; nia).
    specialize (Hspec ltac:(lia) Hr Hc).
    destruct (isPathClear_loop (Z.to_nat n) b target (Z.sgn dr) (Z.sgn dc)
                (row (position p) + Z.sgn dr) (col (position p) + Z.sgn dc))
      as [[|]|] eqn:E.
    + split; [|reflexivity]. intros _ sq (k & Hk & ->).
      fold dr dc in Hk |- *. unfold Js.abs, Js.sign in *. fold n in Hk.
      destruct Hspec as [Hspec _]. specialize (Hspec eq_refl (k - 1) ltac:(lia)).
      replace (row (position p) + Z.sgn dr + (k - 1) * Z.sgn dr)
        with (row (position p) + k * Z.sgn dr) in Hspec by lia.
      replace (col (position p) + Z.sgn dc + (k - 1) * Z.sgn dc)
        with (col (position p) + k * Z.sgn dc) in Hspec by lia.
      exact Hspec.
    + split; [discriminate|]. intros Hall.
      destruct Hspec as [_ Hspec]. enough (Some false = Some true) by discriminate.
      apply Hspec. intros i Hi. apply Hall. exists (i + 1).
      fold dr dc. unfold Js.abs, Js.sign. fold n.
      split; [lia|]. f_equal; lia.
    + split; [discriminate|]. intros Hall.
      destruct Hspec as [_ Hspec]. enough (@None bool = Some true) by discriminate.
      apply Hspec. intros i Hi. apply Hall. exists (i + 1).
      fold dr dc. unfold Js.abs, Js.sign. fold n.
      split; [lia|]. f_equal; lia.
Qed.

(** On a rank, file or diagonal [isPathClear] answers true exactly when
    every square strictly between the piece and the target is empty;
    the squares of the piece and of the target are not looked at. *)
Theorem isPathClear_true_iff_squares_between_empty
    (p : Piece) (b : Board) (target : Position) :
  Js.abs (row target - row (position p)) = Js.abs (col target - col (position p))
  \/ row target - row (position p) = 0
  \/ col target - col (position p) = 0 ->
  (Piece_isPathClear p b target = true
   <-> forall sq, squaresBetween p target sq -> Board_getPieceAt b sq = None).
Proof. exact (isPathClear_between p b target). Qed.

Lemma isPathClear_true_iff_squares_between_empty_witness :
  Piece_isPathClear (Piece_new Rook WHITE (mkPosition 7 0)) Board_new
    (mkPosition 4 0) = true
  <-> forall sq,
        squaresBetween (Piece_new Rook WHITE (mkPosition 7 0)) (mkPosition 4 0)
          sq ->
        Board_getPieceAt Board_new sq = None.
Proof.
  apply (isPathClear_true_iff_squares_between_empty
           (Piece_new Rook WHITE (mkPosition 7 0)) Board_new (mkPosition 4 0)).
  right; right; reflexivity.
Defined.

(* ================================================================== *)
(** * The shape of a valid move *)
(* ================================================================== *)

Lemma canMoveTo_shape (p : Piece) (b : Board) (target : Position) :
  Piece_canMoveTo p b target = true -> moveShape p target.
Proof.
  unfold Piece_canMoveTo, moveShape.
  destruct (kind p).
  - unfold Pawn_canMoveTo, rowDirectionOf, startingRankOf, Js.abs.
    destruct ((col target - col (position p) =? 0)
              && (row target - row (position p)
                  =? match color p with WHITE => -1 | BLACK => 1 end)) eqn:E1.
    { intros _. bool_to_Z. left. destruct (color p); lia. }
    destruct ((col target - col (position p) =? 0)
              && (row target - row (position p)
                  =? 2 * match color p with WHITE => -1 | BLACK => 1 end)
              && (row (position p)
                  =? match color p with WHITE => 6 | BLACK => 1 end)) eqn:E2.
    { intros _. bool_to_Z. right. destruct (color p); lia. }
    destruct ((Z.abs (col target - col (position p)) =? 1)
              && (row target - row (position p)
                  =? match color p with WHITE => -1 | BLACK => 1 end)) eqn:E3;
      [|discriminate].
    intros _. bool_to_Z. left. destruct (color p); lia.
  - unfold Knight_canMoveTo, Js.abs. intros H. bool_to_Z; [left|right]; lia.
  - unfold Bishop_canMoveTo, Js.abs.
    destruct (Z.abs (row target - row (position p))
              =? Z.abs (col target - col (position p))) eqn:E; [|discriminate].
    intros _. now apply Z.eqb_eq in E.
  - unfold Rook_canMoveTo.
    destruct ((row (position p) =? row target)
              || (col (position p) =? col target)) eqn:E; [|discriminate].
    intros _. bool_to_Z; lia.
  - unfold Queen_canMoveTo, Js.abs.
    destruct (Z.abs (row target - row (position p))
              =? Z.abs (col target - col (position p))) eqn:E.
    { intros _. left. now apply Z.eqb_eq in E. }
    destruct ((row (position p) =? row target)
              || (col (position p) =? col target)) eqn:E'; [|discriminate].
    intros _. right. bool_to_Z; lia.
  - unfold King_canMoveTo, Js.abs.
    destruct ((Z.abs (row target - row (position p)) <=? 1)
              && (Z.abs (col target - col (position p)) <=? 1)) eqn:E.
    { intros _. left. bool_to_Z. lia. }
    destruct (negb (hasMoved p)
              && (Z.abs (row target - row (position p)) =? 0)
              && (Z.abs (col target - col (position p)) =? 2)) eqn:E';
      [|discriminate].
    intros _. right. bool_to_Z. repeat split; [lia | lia | assumption].
Qed.

(** A move [isValidMove] accepts ends on the board, on another square
    than the piece's own, not on a piece of its colour, and has the
    shape of the piece's class: a pawn one row forward on its file or
    a neighbouring file, or two rows forward from its starting rank; a
    knight an L; a bishop a diagonal; a rook a rank or file; a queen
    either; a king one square, or two columns along its row if it has
    not moved. *)
Theorem valid_move_has_shape_of_its_class
    (p : Piece) (b : Board) (target : Position) :
  Piece_isValidMove p b target = true ->
  Position_isValid target = true
  /\ target <> position p
  /\ (forall q, Board_getPieceAt b target = Some q -> color q <> color p)
  /\ moveShape p target.
Proof.
  intros H.
  destruct (isValidMove_inv _ _ _ H) as (Hv & Hne & Hcan).
  repeat split; [exact Hv | congruence | | now apply canMoveTo_shape with b].
  intros q Hq Hcol. unfold Piece_isValidMove in H.
  rewrite Hv in H. simpl in H.
  destruct (Position_equals (position p) target); [discriminate|].
  rewrite Hq in H.
  destruct (Color_eqb (color q) (color p)) eqn:E; [discriminate|].
  apply Color_eqb_eq in Hcol. congruence.
Qed.

Lemma valid_move_has_shape_of_its_class_witness :
  Position_isValid (mkPosition 5 5) = true
  /\ mkPosition 5 5 <> position (Piece_new Knight WHITE (mkPosition 7 6))
  /\ (forall q, Board_getPieceAt Board_new (mkPosition 5 5) = Some q ->
                color q <> color (Piece_new Knight WHITE (mkPosition 7 6)))
  /\ moveShape (Piece_new Knight WHITE (mkPosition 7 6)) (mkPosition 5 5).
Proof.
  apply (valid_move_has_shape_of_its_class
           (Piece_new Knight WHITE (mkPosition 7 6)) Board_new (mkPosition 5 5)).
  reflexivity.
Defined.

(** Bishops, rooks and queens never jump: when [isValidMove] accepts a
    move of one of them, every square strictly between the piece and
    the target is empty. *)
Theorem sliding_pieces_never_jump
    (p : Piece) (b : Board) (target sq : Position) :
  kind p = Bishop \/ kind p = Rook \/ kind p = Queen ->
  Piece_isValidMove p b target = true ->
  squaresBetween p target sq ->
  Board_getPieceAt b sq = None.
Proof.
  intros Hk H Hsq.
  destruct (isValidMove_inv _ _ _ H) as (_ & _ & Hcan).
  pose proof (canMoveTo_shape _ _ _ Hcan) as Hshape.
  unfold moveShape in Hshape. unfold Piece_canMoveTo in Hcan.
  assert (Hline :
    Js.abs (row target - row (position p))
    = Js.abs (col target - col (position p))
    \/ row target - row (position p) = 0
    \/ col target - col (position p) = 0).
  { unfold Js.abs. destruct Hk as [E|[E|E]]; rewrite E in Hshape; tauto. }
  assert (Hclear : Piece_isPathClear p b target = true).
  { destruct Hk as [E|[E|E]]; rewrite E in Hcan.
    - unfold Bishop_canMoveTo in Hcan.
      destruct (_ =? _) in Hcan; [exact Hcan | discriminate].
    - unfold Rook_canMoveTo in Hcan.
      destruct (_ || _) in Hcan; [exact Hcan | discriminate].
    - unfold Queen_canMoveTo in Hcan.
      destruct (_ =? _) in Hcan; [exact Hcan|].
      destruct (_ || _) in Hcan; [exact Hcan | discriminate]. }
  exact (proj1 (isPathClear_between p b target Hline) Hclear sq Hsq).
Qed.

Lemma sliding_pieces_never_jump_witness :
  Board_getPieceAt
    (mkBoard [Piece_new Rook WHITE (mkPosition 7 0)] None [])
    (mkPosition 5 0) = None.
Proof.
  apply (sliding_pieces_never_jump
           (Piece_new Rook WHITE (mkPosition 7 0))
           (mkBoard [Piece_new Rook WHITE (mkPosition 7 0)] None [])
           (mkPosition 3 0) (mkPosition 5 0)).
  - right; left; reflexivity.
  - vm_compute; reflexivity.
  - exists 2. split; [vm_compute; split; reflexivity | reflexivity].
Defined.

(** A pawn moves straight only onto an empty square, its double step
    also passes an empty square, and it moves to a neighbouring file
    only onto a piece of the other colour or onto the en-passant
    target. *)
Theorem pawn_moves_straight_to_empty_and_sideways_to_capture
    (p : Piece) (b : Board) (target : Position) :
  kind p = Pawn ->
  Piece_isValidMove p b target = true ->
  (col target = col (position p) ->
     Board_getPieceAt b target = None
     /\ Board_getPieceAt b
          (mkPosition (row (position p) + rowDirectionOf (color p))
                      (col (position p))) = None)
  /\ (col target <> col (position p) ->
        (exists q, Board_getPieceAt b target = Some q /\ color q <> color p)
        \/ Board_getEnPassantTarget b = Some target).
Proof.
  intros Hk H.
  destruct (isValidMove_inv _ _ _ H) as (_ & _ & Hcan).
  unfold Piece_canMoveTo in Hcan. rewrite Hk in Hcan.
  unfold Pawn_canMoveTo in Hcan. unfold rowDirectionOf.
  destruct ((col target - col (position p) =? 0)
            && (row target - row (position p)
                =? match color p with WHITE => -1 | BLACK => 1 end)) eqn:E1.
  { bool_to_Z. split; [|lia]. intros _.
    assert (Ht : Board_getPieceAt b target = None)
      by (destruct (Board_getPieceAt b target); [discriminate | reflexivity]).
    split; [exact Ht|].
    replace (mkPosition _ _) with target; [exact Ht|].
    destruct target as [tr tc]; simpl in *. f_equal; lia. }
  destruct ((col target - col (position p) =? 0)
            && (row target - row (position p)
                =? 2 * match color p with WHITE => -1 | BLACK => 1 end)
            && (row (position p)
                =? match color p with WHITE => 6 | BLACK => 1 end)) eqn:E2.
  { bool_to_Z. split; [|lia]. intros _.
    split.
    - destruct (Board_getPieceAt b target); [discriminate | reflexivity].
    - match goal with
      | |- ?x = None => destruct x; [discriminate | reflexivity]
      end. }
  destruct ((Js.abs (col target - col (position p)) =? 1)
            && (row target - row (position p)
                =? match color p with WHITE => -1 | BLACK => 1 end)) eqn:E3;
    [|discriminate].
  unfold Js.abs in E3. bool_to_Z.
  - split; [lia|]. intros _. left.
    destruct (Board_getPieceAt b target) as [q|]; [|discriminate].
    exists q. split; [reflexivity|]. intros Hc.
    apply Color_eqb_eq in Hc.
    match goal with
    | Hx : negb _ = true |- _ => rewrite Hc in Hx; discriminate
    end.
  - split; [lia|]. intros _. right.
    destruct (Board_getEnPassantTarget b) as [ep|]; [|discriminate].
    match goal with
    | Heq : Position_equals _ _ = true |- _ =>
        apply Position_equals_iff in Heq; now subst
    end.
Qed.

Lemma pawn_moves_straight_to_empty_and_sideways_to_capture_witness :
  (col (mkPosition 4 4) = col (position (Piece_new Pawn WHITE (mkPosition 6 4)))
   -> Board_getPieceAt Board_new (mkPosition 4 4) = None
      /\ Board_getPieceAt Board_new
           (mkPosition
              (row (position (Piece_new Pawn WHITE (mkPosition 6 4)))
               + rowDirectionOf (color (Piece_new Pawn WHITE (mkPosition 6 4))))
              (col (position (Piece_new Pawn WHITE (mkPosition 6 4))))) = None)
  /\ (col (mkPosition 4 4)
      <> col (position (Piece_new Pawn WHITE (mkPosition 6 4))) ->
      (exists q, Board_getPieceAt Board_new (mkPosition 4 4) = Some q
                 /\ color q <> color (Piece_new Pawn WHITE (mkPosition 6 4)))
      \/ Board_getEnPassantTarget Board_new = Some (mkPosition 4 4)).
Proof.
  apply (pawn_moves_straight_to_empty_and_sideways_to_capture
           (Piece_new Pawn WHITE (mkPosition 6 4)) Board_new (mkPosition 4 4));
    reflexivity.
Defined.

(* ================================================================== *)
(** * Attackers, mate and legal moves *)
(* ================================================================== *)

Lemma nonEmpty_filter {A : Type} (f : A -> bool) (l : list A) :
  nonEmpty (filter f l) = existsb f l.
Proof.
  induction l as [|x l IH]; simpl; [reflexivity|].
  destruct (f x); simpl; [reflexivity | exact IH].
Qed.

Lemma existsb_agree {A : Type} (f g : A -> bool) (l : list A) :
  (forall x, In x l -> f x = g x) -> existsb f l = existsb g l.
Proof.
  induction l as [|x l IH]; simpl; intros H; [reflexivity|].
  rewrite (H x) by now left. f_equal. apply IH. intros y Hy. apply H. now right.
Qed.

Lemma attacks_canAttack (b : Board) (pos : Position) (attacker : Piece) :
  attacks b pos (color attacker) attacker = canAttack b pos attacker.
Proof.
  unfold attacks, canAttack, Js.abs. destruct (kind attacker); try reflexivity.
  f_equal.
  destruct (col (position attacker) - 1 =? col pos) eqn:E1;
    destruct (col (position attacker) + 1 =? col pos) eqn:E2;
    destruct (Z.abs (col (position attacker) - col pos) =? 1) eqn:E3;
    try reflexivity;
    repeat match goal with
           | H : (_ =? _) = true |- _ => apply Z.eqb_eq in H
           | H : (_ =? _) = false |- _ => apply Z.eqb_neq in H
           end; lia.
Qed.

(** [isSquareAttacked] answers true exactly when [findAttackers] finds
    a piece: the two loops apply the same test to the pieces of the
    attacking colour. *)
Theorem square_attacked_iff_attacker_found
    (b : Board) (pos : Position) (attackerColor : Color) :
  Board_isSquareAttacked b pos attackerColor
  = nonEmpty (Board_findAttackers b pos attackerColor)
  /\ forall piece,
       In piece (Board_findAttackers b pos attackerColor) ->
       In piece (pieces b) /\ color piece = attackerColor
       /\ attacks b pos attackerColor piece = true.
Proof.
  unfold Board_isSquareAttacked, Board_findAttackers. split.
  - rewrite nonEmpty_filter. apply existsb_agree. intros x Hx.
    unfold Board_getPiecesByColor in Hx. apply filter_In in Hx as [_ Hc].
    apply Color_eqb_eq in Hc. rewrite <- Hc. apply attacks_canAttack.
  - intros piece Hin. apply filter_In in Hin as [Hin Hcan].
    unfold Board_getPiecesByColor in Hin. apply filter_In in Hin as [Hin Hc].
    apply Color_eqb_eq in Hc. repeat split; try assumption.
    rewrite <- Hc. now rewrite attacks_canAttack.
Qed.

Lemma movePiece_success_key (b b' : Board) (from to : Position)
    (promo : string) (r : MoveResult) (piece : Piece) :
  Board_movePiece b from to promo = MoveSuccess r b' ->
  Board_getPieceAt b from = Some piece ->
  isPromotionMove piece to = true ->
  exists k,
    (pieceConstructors promo = OwnConstructor k
     \/ (pieceConstructors promo = NoProperty /\ k = Queen))
    /\ k <> King.
Proof.
  unfold Board_movePiece. intros H Hget Hpromotion. rewrite Hget in H.
  destruct (negb (Piece_isValidMove piece b to)); [discriminate|].
  cbv zeta in H. rewrite Hpromotion in H.
  destruct (pieceConstructors promo) as [k| | |] eqn:Hkey; try discriminate.
  - exists k. split; [now left|].
    eapply pieceConstructors_not_king; eassumption.
  - exists Queen. split; [now right | discriminate].
Qed.

Lemma made_move_is_legal (g g' : Game) (from to : SquareArg) (promo : string)
    (move : Move) (status : GameStatus) :
  Game_makeMove g from to promo = (MoveMade move status, g') ->
  exists fromPos toPos piece,
    resolveSquare from = Some fromPos
    /\ resolveSquare to = Some toPos
    /\ Board_getPieceAt (board g) fromPos = Some piece
    /\ color piece = currentTurn g
    /\ In toPos (Board_getLegalMovesForPiece (board g) (Some piece)).
Proof.
  intros H.
  destruct (makeMove_made_inv _ _ _ _ _ _ _ H)
    as (fromPos & toPos & piece & result & b' & Hfrom & Hto & Hget & Hcol
        & Hmove & Hcheck & _).
  exists fromPos, toPos, piece. repeat split; try assumption.
  destruct (movePiece_success_inv _ _ _ _ _ _ Hmove)
    as (piece' & Hget' & Hvalid & _).
  rewrite Hget in Hget'. injection Hget' as <-.
  destruct (isValidMove_inv _ _ _ Hvalid) as (Hon & Hne & _).
  destruct (pieceAt_Some _ _ _ Hget) as [_ Hpos].
  unfold Board_getLegalMovesForPiece. apply filter_In.
  split; [now apply In_allSquares|].
  unfold isLegalTarget.
  destruct (Position_equals (position piece) toPos) eqn:E;
    [apply Position_equals_iff in E; contradiction|].
  rewrite Hvalid, Board_clone_id, Hpos.
  destruct (isPromotionMove piece toPos) eqn:Hpromotion.
  - destruct (movePiece_success_key _ _ _ _ _ _ _ Hmove Hget Hpromotion)
      as (k & Hk & Hnk).
    destruct (movePiece_promotion _ _ _ promo piece k Hget Hvalid Hpromotion
                Hk) as (r & rest & captured & Hr & _ & _ & Hall & _).
    rewrite Hmove in Hr. injection Hr as _ ->.
    destruct (Hall "Q"%string Queen (or_introl eq_refl)) as (r' & ->).
    apply negb_true_iff. rewrite <- Hcheck, Hcol.
    apply isKingInCheck_last_piece; [discriminate | exact Hnk].
  - rewrite (movePiece_key_unread _ _ _ "Q" promo piece Hget Hpromotion).
    rewrite Hmove. apply negb_true_iff. now rewrite Hcol.
Qed.

Lemma legal_move_is_made (g : Game) (piece : Piece) (target : Position) :
  Board_getPieceAt (board g) (position piece) = Some piece ->
  color piece = currentTurn g ->
  In target (Board_getLegalMovesForPiece (board g) (Some piece)) ->
  exists move status g',
    Game_makeMove g (Coordinates (position piece)) (Coordinates target) "Q"
    = (MoveMade move status, g').
Proof.
  intros Hget Hcol Hin.
  destruct (legal_target_safe _ _ _ Hget Hin) as (r & b' & Hmove & Hsafe & _).
  unfold Game_makeMove. cbn [resolveSquare].
  rewrite Hget, Hcol, Color_eqb_refl. cbn [negb].
  rewrite Board_clone_id, Hmove. rewrite <- Hcol, Hsafe.
  eexists; eexists; eexists. reflexivity.
Qed.

Lemma pieceAt_own_square (ps : list Piece) (p : Piece) :
  noSharedSquare ps -> In p ps -> pieceAt ps (position p) = Some p.
Proof.
  intros Hnd Hin. destruct (pieceAt ps (position p)) as [q|] eqn:E.
  - apply pieceAt_Some in E as [Hq Hpos].
    f_equal. now apply (same_square_same_piece ps).
  - exfalso. unfold pieceAt in E.
    apply (find_none _ _ E) in Hin. now rewrite isAt_position in Hin.
Qed.

(** [makeMove] makes exactly the legal moves.  Whatever the promotion
    key, a move it makes goes from a square that holds a piece of the
    side to move to a square [getLegalMovesForPiece] lists for that
    piece; and every square listed for a piece of the side to move that
    the look-up of its square returns is a move [makeMove] makes with
    the default key.  So when [isCheckmate] or [isStalemate] holds for
    the side to move, no call of [makeMove] makes a move, and when
    neither holds on a board whose pieces stand on distinct squares,
    some call does. *)
Theorem makeMove_makes_exactly_the_legal_moves (g : Game) :
  (forall from to promo move status g',
     Game_makeMove g from to promo = (MoveMade move status, g') ->
     exists fromPos toPos piece,
       resolveSquare from = Some fromPos
       /\ resolveSquare to = Some toPos
       /\ Board_getPieceAt (board g) fromPos = Some piece
       /\ color piece = currentTurn g
       /\ In toPos (Board_getLegalMovesForPiece (board g) (Some piece)))
  /\ (forall piece target,
        Board_getPieceAt (board g) (position piece) = Some piece ->
        color piece = currentTurn g ->
        In target (Board_getLegalMovesForPiece (board g) (Some piece)) ->
        exists move status g',
          Game_makeMove g (Coordinates (position piece)) (Coordinates target)
            "Q" = (MoveMade move status, g'))
  /\ (Board_isCheckmate (board g) (currentTurn g) = true
      \/ Board_isStalemate (board g) (currentTurn g) = true ->
      forall from to promo move status g',
        Game_makeMove g from to promo <> (MoveMade move status, g'))
  /\ (noSharedSquare (pieces (board g)) ->
      Board_isCheckmate (board g) (currentTurn g) = false ->
      Board_isStalemate (board g) (currentTurn g) = false ->
      exists from to move status g',
        Game_makeMove g from to "Q" = (MoveMade move status, g')).
Proof.
  split; [intros *; apply made_move_is_legal|].
  split; [intros *; apply legal_move_is_made|].
  split.
  - intros Hover from to promo move status g' H.
    assert (Hnone : Board_hasLegalMoves (board g) (currentTurn g) = false).
    { unfold Board_isCheckmate, Board_isStalemate in Hover.
      destruct (Board_isKingInCheck (board g) (currentTurn g));
        cbn [negb] in Hover; destruct Hover as [Hover|Hover];
        try discriminate; now apply negb_true_iff in Hover. }
    destruct (made_move_is_legal _ _ _ _ _ _ _ H)
      as (fromPos & toPos & piece & _ & _ & Hget & Hcol & Hin).
    unfold Board_hasLegalMoves in Hnone.
    rewrite <- not_true_iff_false in Hnone. apply Hnone.
    apply existsb_exists. exists piece. split.
    + unfold Board_getPiecesByColor. apply filter_In.
      split; [now apply pieceAt_Some in Hget | now apply Color_eqb_eq].
    + destruct (Board_getLegalMovesForPiece (board g) (Some piece));
        [contradiction | reflexivity].
  - intros Hnd Hmate Hstale.
    assert (Hsome : Board_hasLegalMoves (board g) (currentTurn g) = true).
    { unfold Board_isCheckmate, Board_isStalemate in Hmate, Hstale.
      destruct (Board_isKingInCheck (board g) (currentTurn g));
        cbn [negb] in Hmate, Hstale;
        [now apply negb_false_iff in Hmate
        | now apply negb_false_iff in Hstale]. }
    unfold Board_hasLegalMoves in Hsome.
    apply existsb_exists in Hsome as (piece & Hin & Hmoves).
    unfold Board_getPiecesByColor in Hin. apply filter_In in Hin as [Hin Hcol].
    apply Color_eqb_eq in Hcol.
    destruct (Board_getLegalMovesForPiece (board g) (Some piece))
      as [|target rest] eqn:E; [discriminate|].
    destruct (legal_move_is_made g piece target) as (move & status & g' & H).
    + now apply pieceAt_own_square.
    + exact Hcol.
    + rewrite E. now left.
    + exists (Coordinates (position piece)), (Coordinates target), move,
        status, g'. exact H.
Qed.

Lemma makeMove_makes_exactly_the_legal_moves_witness :
  (forall from to promo move status g',
     Game_makeMove afterFoolsMate from to promo <> (MoveMade move status, g'))
  /\ (exists from to move status g',
        Game_makeMove beforeFoolsMate from to "Q" = (MoveMade move status, g')).
Proof.
  split.
  - apply (makeMove_makes_exactly_the_legal_moves afterFoolsMate).
    left. vm_compute. reflexivity.
  - apply (makeMove_makes_exactly_the_legal_moves beforeFoolsMate).
    + exact (sound_unique _
               (reachable_sound _
                  (playFrom_reachable _ Game_new Reachable_new))).
    + vm_compute. reflexivity.
    + vm_compute. reflexivity.
Defined.

(** The legal moves of a piece are distinct squares of the board, none
    of them the piece's own square or a square held by its own colour,
    and each of them a move [isValidMove] accepts; for no piece the
    list is empty. *)
Theorem legal_moves_are_distinct_valid_targets (b : Board) (piece : Piece) :
  NoDup (Board_getLegalMovesForPiece b (Some piece))
  /\ (forall t,
        In t (Board_getLegalMovesForPiece b (Some piece)) ->
        Position_isValid t = true
        /\ t <> position piece
        /\ Piece_isValidMove piece b t = true
        /\ forall q, Board_getPieceAt b t = Some q -> color q <> color piece)
  /\ Board_getLegalMovesForPiece b None = [].
Proof.
  unfold Board_getLegalMovesForPiece. repeat split.
  - apply NoDup_filter, allSquares_NoDup.
  - apply filter_In in H as [_ H]. apply isLegalTarget_valid in H.
    now apply isValidMove_inv in H.
  - apply filter_In in H as [_ H]. apply isLegalTarget_valid in H.
    apply isValidMove_inv in H as (_ & Hne & _). congruence.
  - apply filter_In in H as [_ H]. now apply isLegalTarget_valid in H.
  - intros q Hq Hc. apply filter_In in H as [_ H].
    apply isLegalTarget_valid in H.
    pose proof (isValidMove_inv _ _ _ H) as (Hv & _ & _).
    unfold Piece_isValidMove in H. rewrite Hv in H. simpl in H.
    destruct (Position_equals (position piece) t); [discriminate|].
    rewrite Hq in H. apply Color_eqb_eq in Hc. rewrite Hc in H. discriminate.
Qed.

Lemma setProperty_nonEmpty {V : Type} (key : string) (value : V)
    (obj : list (string * V)) :
  nonEmpty (setProperty key value obj) = true.
Proof.
  destruct obj as [|[k v] rest]; simpl; [reflexivity|].
  destruct (String.eqb k key); reflexivity.
Qed.

Lemma recordLegalMoves_nonEmpty (b : Board) (ps : list Piece) :
  forall result,
    nonEmpty (fold_left (recordLegalMoves b) ps result)
    = nonEmpty result
      || existsb
           (fun piece => nonEmpty (Board_getLegalMovesForPiece b (Some piece)))
           ps.
Proof.
  induction ps as [|p ps IH]; intros result.
  - cbn [fold_left existsb]. now rewrite orb_false_r.
  - cbn [fold_left existsb]. rewrite IH. unfold recordLegalMoves.
    destruct (nonEmpty (Board_getLegalMovesForPiece b (Some p))).
    + rewrite setProperty_nonEmpty. cbn [orb]. now rewrite orb_true_r.
    + reflexivity.
Qed.

Lemma setProperty_fresh {V : Type} (key : string) (value : V)
    (obj : list (string * V)) :
  (forall k v, In (k, v) obj -> k <> key) ->
  setProperty key value obj = obj ++ [(key, value)].
Proof.
  induction obj as [|[k v] rest IH]; intros Hfresh; simpl; [reflexivity|].
  destruct (String.eqb k key) eqn:E.
  - apply String.eqb_eq in E. exfalso. apply (Hfresh k v); [now left | exact E].
  - f_equal. apply IH. intros k' v' Hin. apply (Hfresh k' v'). now right.
Qed.

Lemma toAlgebraic_injective (p q : Position) :
  Position_isValid p = true -> Position_isValid q = true ->
  Js.toString (Position_toAlgebraic p) = Js.toString (Position_toAlgebraic q) ->
  p = q.
Proof.
  intros Hp Hq E.
  apply fromAlgebraic_text in Hp, Hq. rewrite E in Hp. congruence.
Qed.

Lemma recordLegalMoves_entries (b : Board) (ps : list Piece) :
  forall result,
    noSharedSquare ps -> Forall onBoard ps ->
    (forall k v p, In (k, v) result -> In p ps ->
                   k <> Js.toString (Position_toAlgebraic (position p))) ->
    fold_left (recordLegalMoves b) ps result
    = result ++ map (legalMovesEntry b) (filter (hasLegalMove b) ps).
Proof.
  induction ps as [|p ps IH]; intros result Hnd Hon Hfresh.
  - cbn [fold_left filter map]. now rewrite app_nil_r.
  - cbn [fold_left filter].
    unfold noSharedSquare in Hnd. cbn [map] in Hnd.
    apply NoDup_cons_iff in Hnd as [Hnotin Hnd].
    apply Forall_cons_iff in Hon as [Hp Hon].
    unfold recordLegalMoves at 2. fold (hasLegalMove b p).
    destruct (hasLegalMove b p) eqn:E.
    + rewrite setProperty_fresh
        by (intros k v Hin; apply (Hfresh k v p Hin); now left).
      rewrite IH; [| exact Hnd | exact Hon |].
      * cbn [map]. rewrite <- app_assoc. reflexivity.
      * intros k v q Hin Hq. apply in_app_or in Hin as [Hin|[Hin|[]]].
        -- apply (Hfresh k v q Hin). now right.
        -- apply (f_equal fst) in Hin. cbn [fst] in Hin. subst k. intros Heq.
           apply Hnotin. rewrite Forall_forall in Hon.
           apply toAlgebraic_injective in Heq;
             [rewrite Heq; now apply in_map | exact Hp | now apply Hon].
    + apply IH; [exact Hnd | exact Hon |].
      intros k v q Hin Hq. apply (Hfresh k v q Hin). now right.
Qed.

Lemma filter_noSharedSquare (f : Piece -> bool) (ps : list Piece) :
  noSharedSquare ps -> noSharedSquare (filter f ps).
Proof.
  unfold noSharedSquare. induction ps as [|p ps IH]; intros H; simpl;
    [constructor|].
  cbn [map] in H. apply NoDup_cons_iff in H as [Hnotin H].
  destruct (f p); [|now apply IH].
  cbn [map]. constructor; [|now apply IH].
  intros Hin. apply Hnotin. apply in_map_iff in Hin as (q & Hq & Hin).
  apply filter_In in Hin as [Hin _]. rewrite <- Hq. now apply in_map.
Qed.

Lemma filter_Forall {A : Type} (P : A -> Prop) (f : A -> bool) (l : list A) :
  Forall P l -> Forall P (filter f l).
Proof.
  rewrite !Forall_forall. intros H x Hx. apply filter_In in Hx as [Hx _].
  now apply H.
Qed.

(** [hasLegalMoves] answers true exactly when [getAllLegalMoves] has an
    entry.  On a board whose pieces stand on distinct squares of the
    board, [getAllLegalMoves] has one entry for each piece of the
    colour that has a legal move, in the order of the pieces array,
    under the text of the piece's square and holding the piece's legal
    moves; no entry is overwritten. *)
Theorem all_legal_moves_has_one_entry_per_movable_piece
    (b : Board) (c : Color) :
  Board_hasLegalMoves b c = nonEmpty (Board_getAllLegalMoves b c)
  /\ (noSharedSquare (pieces b) ->
      Forall onBoard (pieces b) ->
      Board_getAllLegalMoves b c
      = map (legalMovesEntry b)
          (filter (hasLegalMove b) (Board_getPiecesByColor b c))).
Proof.
  split.
  - unfold Board_hasLegalMoves, Board_getAllLegalMoves.
    now rewrite recordLegalMoves_nonEmpty.
  - intros Hnd Hon. unfold Board_getAllLegalMoves.
    rewrite recordLegalMoves_entries.
    + reflexivity.
    + now apply filter_noSharedSquare.
    + now apply filter_Forall.
    + intros k v p [].
Qed.

Lemma all_legal_moves_has_one_entry_per_movable_piece_witness :
  Board_getAllLegalMoves Board_new WHITE
  = map (legalMovesEntry Board_new)
      (filter (hasLegalMove Board_new) (Board_getPiecesByColor Board_new WHITE)).
Proof.
  apply (proj2 (all_legal_moves_has_one_entry_per_movable_piece
                  Board_new WHITE)).
  - exact initial_noSharedSquare.
  - exact (sound_onBoard _ Game_new_sound).
Defined.

(* ================================================================== *)
(** * Material *)
(* ================================================================== *)

(** [isInsufficientMaterial] answers true only on a board of two, three
    or four pieces: always with two pieces, whatever they are; with
    three only if there is exactly one bishop or exactly one knight
    among them; with four only if exactly two of them are bishops, of
    different colours. *)
Theorem insufficient_material_needs_at_most_four_pieces (b : Board) :
  Board_isInsufficientMaterial b = true ->
  (List.length (pieces b) = 2
   \/ (List.length (pieces b) = 3
       /\ (List.length (filter (isKind Bishop) (pieces b)) = 1
           \/ List.length (filter (isKind Knight) (pieces b)) = 1))
   \/ (List.length (pieces b) = 4
       /\ exists bishop1 bishop2,
            filter (isKind Bishop) (pieces b) = [bishop1; bishop2]
            /\ color bishop1 <> color bishop2))%nat.
Proof.
  unfold Board_isInsufficientMaterial.
  destruct (Z.of_nat (List.length (pieces b)) =? 2) eqn:E2.
  { intros _. left. apply Z.eqb_eq in E2. lia. }
  destruct (Z.of_nat (List.length (pieces b)) =? 3) eqn:E3.
  { intros H. right; left. apply Z.eqb_eq in E3. split; [lia|].
    apply orb_true_iff in H as [H|H]; apply Z.eqb_eq in H; [left|right]; lia. }
  destruct (Z.of_nat (List.length (pieces b)) =? 4) eqn:E4; [|discriminate].
  intros H. right; right. apply Z.eqb_eq in E4. split; [lia|].
  destruct (filter (isKind Bishop) (pieces b)) as [|b1 [|b2 [|b3 l]]];
    try discriminate.
  exists b1, b2. split; [reflexivity|].
  destruct (Color_eqb (color b1) (color b2)) eqn:Ec; [discriminate|].
  intros Heq. apply Color_eqb_eq in Heq. congruence.
Qed.

Lemma insufficient_material_needs_at_most_four_pieces_witness :
  (List.length (pieces (mkBoard [Piece_new King BLACK (mkPosition 0 4);
                                 Piece_new Queen WHITE (mkPosition 7 3)]
                          None [])) = 2
   \/ (List.length (pieces (mkBoard [Piece_new King BLACK (mkPosition 0 4);
                                     Piece_new Queen WHITE (mkPosition 7 3)]
                              None [])) = 3
       /\ (List.length
             (filter (isKind Bishop)
                (pieces (mkBoard [Piece_new King BLACK (mkPosition 0 4);
                                  Piece_new Queen WHITE (mkPosition 7 3)]
                           None []))) = 1
           \/ List.length
                (filter (isKind Knight)
                   (pieces (mkBoard [Piece_new King BLACK (mkPosition 0 4);
                                     Piece_new Queen WHITE (mkPosition 7 3)]
                              None []))) = 1))
   \/ (List.length (pieces (mkBoard [Piece_new King BLACK (mkPosition 0 4);
                                     Piece_new Queen WHITE (mkPosition 7 3)]
                              None [])) = 4
       /\ exists bishop1 bishop2,
            filter (isKind Bishop)
              (pieces (mkBoard [Piece_new King BLACK (mkPosition 0 4);
                                Piece_new Queen WHITE (mkPosition 7 3)]
                         None []))
            = [bishop1; bishop2]
            /\ color bishop1 <> color bishop2))%nat.
Proof.
  apply (insufficient_material_needs_at_most_four_pieces
           (mkBoard [Piece_new King BLACK (mkPosition 0 4);
                     Piece_new Queen WHITE (mkPosition 7 3)] None [])).
  reflexivity.
Defined.

(* ================================================================== *)
(** * The placement text of any board *)
(* ================================================================== *)

Lemma toFEN_cols_symbols (b b' : Board) (r : Z) (cols : list Z) :
  (forall c, In c cols ->
     option_map Piece_symbol (Board_getPieceAt b (mkPosition r c))
     = option_map Piece_symbol (Board_getPieceAt b' (mkPosition r c))) ->
  forall k, toFEN_cols b r cols k = toFEN_cols b' r cols k.
Proof.
  induction cols as [|c cols IH]; intros H k; [reflexivity|].
  cbn [toFEN_cols].
  pose proof (H c (or_introl eq_refl)) as Hc.
  assert (IH' := fun k => IH (fun c' Hin => H c' (or_intror Hin)) k).
  destruct (Board_getPieceAt b (mkPosition r c)) as [p|];
    destruct (Board_getPieceAt b' (mkPosition r c)) as [p'|];
    try discriminate.
  - injection Hc as Hc. rewrite Hc, IH'. reflexivity.
  - apply IH'.
Qed.

Lemma toFEN_rows_symbols (b b' : Board) (rows : list Z) :
  (forall r c, In r rows -> In c (range 0 8) ->
     option_map Piece_symbol (Board_getPieceAt b (mkPosition r c))
     = option_map Piece_symbol (Board_getPieceAt b' (mkPosition r c))) ->
  toFEN_rows b rows = toFEN_rows b' rows.
Proof.
  induction rows as [|r rows IH]; intros H; [reflexivity|].
  cbn [toFEN_rows]. rewrite IH by (intros; apply H; [now right | assumption]).
  rewrite (toFEN_cols_symbols b b')
    by (intros; apply H; [now left | assumption]).
  reflexivity.
Qed.

Lemma range_In (lo hi c : Z) : In c (range lo hi) -> lo <= c < hi.
Proof.
  unfold range. intros H. apply in_map_iff in H as (i & <- & Hi).
  apply in_seq in Hi. lia.
Qed.

Lemma allSquares_valid (sq : Position) :
  In sq allSquares -> Position_isValid sq = true.
Proof.
  unfold allSquares. intros H. apply in_flat_map in H as (r & Hr & H).
  apply in_map_iff in H as (c & <- & Hc).
  apply range_In in Hr, Hc. apply Position_isValid_bounds. simpl. lia.
Qed.

Lemma pieceAt_reloadSquares (b : Board) (sq : Position)
    (squares : list Position) :
  pieceAt (flat_map (reloadSquare b) squares) sq
  = if existsb (fun s => Position_equals s sq) squares
    then option_map reloadPiece (Board_getPieceAt b sq)
    else None.
Proof.
  induction squares as [|s squares IH]; [reflexivity|].
  cbn [flat_map existsb]. unfold pieceAt in *. rewrite find_append, IH.
  unfold reloadSquare.
  destruct (Position_equals s sq) eqn:E.
  - apply Position_equals_iff in E. subst s. cbn [orb].
    destruct (Board_getPieceAt b sq) as [p|] eqn:Hs.
    + cbn [find option_map].
      apply pieceAt_Some in Hs as [_ Hpos].
      replace (isAt sq (reloadPiece p)) with true; [reflexivity|].
      symmetry. apply isAt_iff. exact Hpos.
    + cbn [find option_map]. now destruct (existsb _ squares).
  - cbn [orb].
    destruct (Board_getPieceAt b s) as [p|] eqn:Hs; [|reflexivity].
    cbn [find]. apply pieceAt_Some in Hs as [_ Hpos].
    replace (isAt sq (reloadPiece p)) with false; [reflexivity|].
    symmetry. apply not_true_is_false. intros Hat. apply isAt_iff in Hat.
    cbn in Hat. rewrite Hpos in Hat. subst s.
    assert (Position_equals sq sq = true) by now apply Position_equals_iff.
    congruence.
Qed.

Lemma pieceAt_reloaded (b : Board) (sq : Position) :
  Position_isValid sq = true ->
  pieceAt (reloaded b) sq = option_map reloadPiece (Board_getPieceAt b sq).
Proof.
  intros Hv. rewrite reloaded_squares, pieceAt_reloadSquares.
  replace (existsb (fun s => Position_equals s sq) allSquares) with true;
    [reflexivity|].
  symmetry. apply existsb_exists. exists sq.
  split; [now apply In_allSquares | now apply Position_equals_iff].
Qed.

(** [loadFEN] accepts every text [toFEN] prints, whatever the board it
    was printed from, and the board it builds prints as the same text;
    it has no en-passant target and no captured pieces. *)
Theorem board_fen_text_round_trip (b0 b : Board) :
  exists b',
    Board_loadFEN b0 (Board_toFEN b) = (true, b')
    /\ Board_toFEN b' = Board_toFEN b
    /\ enPassantTarget b' = None
    /\ capturedPieces b' = [].
Proof.
  exists (mkBoard (reloaded b) None []).
  split; [apply Board_loadFEN_toFEN|].
  split; [|split; reflexivity].
  unfold Board_toFEN. apply toFEN_rows_symbols. intros r c Hr Hc.
  apply range_In in Hr, Hc.
  unfold Board_getPieceAt at 1. cbn [pieces].
  rewrite pieceAt_reloaded by (apply Position_isValid_bounds; simpl; lia).
  destruct (Board_getPieceAt b (mkPosition r c)); reflexivity.
Qed.

(* ================================================================== *)
(** * What a successful Board.loadFEN builds *)
(* ================================================================== *)

Lemma placed_later (r c c' : Z) (p : Piece) :
  c <= c' -> placed r c p -> placed r c' p.
Proof.
  unfold placed. intros Hc (Hm & Hr & Hcol & H).
  repeat split; try assumption. lia.
Qed.

Lemma loadFEN_row_placed (r : Z) (chars : string) :
  forall (c : Z) (ps : list Piece),
    0 <= r -> 0 <= c -> Forall (placed r c) ps ->
    let '(_, c', ps') := loadFEN_row r chars c ps in
    Forall (placed r c') ps' /\ c <= c'.
Proof.
  induction chars as [|ch rest IH]; intros c ps Hr Hc Hps.
  - simpl. split; [exact Hps | lia].
  - cbn [loadFEN_row].
    destruct (isOneToEight ch) eqn:Hd.
    + apply isOneToEight_digit in Hd.
      specialize (IH (c + Js.digitValue ch) ps Hr ltac:(lia)).
      destruct (loadFEN_row r rest (c + Js.digitValue ch) ps) as [[ok c'] ps'].
      destruct IH as [IH1 IH2]; [|split; [exact IH1 | lia]].
      eapply Forall_impl; [|exact Hps]. intros p. apply placed_later. lia.
    + destruct (pieceOfChar ch) as [[k colour]|].
      * specialize (IH (c + 1)
                      (ps ++ [Piece_new k colour (mkPosition r c)]) Hr
                      ltac:(lia)).
        destruct (loadFEN_row r rest (c + 1)
                    (ps ++ [Piece_new k colour (mkPosition r c)]))
          as [[ok c'] ps'].
        destruct IH as [IH1 IH2]; [|split; [exact IH1 | lia]].
        apply Forall_app. split.
        -- eapply Forall_impl; [|exact Hps]. intros p. apply placed_later. lia.
        -- constructor; [|constructor]. unfold placed. simpl.
           repeat split; try lia.
      * split; [exact Hps | lia].
Qed.

Lemma loadFEN_rows_placed (rows : list string) :
  forall (r : Z) (ps : list Piece),
    0 <= r -> Forall (placed r 0) ps ->
    fst (loadFEN_rows r rows ps) = true ->
    Forall (placed (r + Z.of_nat (List.length rows)) 0)
      (snd (loadFEN_rows r rows ps)).
Proof.
  induction rows as [|chars rows IH]; intros r ps Hr Hps Hok.
  - simpl. replace (r + 0) with r by lia. exact Hps.
  - cbn [loadFEN_rows] in *.
    pose proof (loadFEN_row_placed r chars 0 ps Hr ltac:(lia) Hps) as Hrow.
    destruct (loadFEN_row r chars 0 ps) as [[ok c] ps'].
    destruct Hrow as [Hrow _].
    destruct (ok && (c =? 8)) eqn:E; [|discriminate].
    apply andb_true_iff in E as [_ E]. apply Z.eqb_eq in E. subst c.
    replace (r + Z.of_nat (List.length (chars :: rows)))
      with (r + 1 + Z.of_nat (List.length rows))
      by (cbn [List.length]; lia).
    apply IH; [lia | | exact Hok].
    eapply Forall_impl; [|exact Hrow].
    unfold placed. intros p (Hm & Hr0 & Hc0 & H). repeat split; try assumption.
    left. lia.
Qed.

Lemma board_loadFEN_built (b b' : Board) (fen : string) :
  Board_loadFEN b fen = (true, b') ->
  List.length (Js.split "/" fen) = 8%nat
  /\ Forall (fun p => onBoard p /\ hasMoved p = false) (pieces b')
  /\ enPassantTarget b' = None
  /\ capturedPieces b' = [].
Proof.
  unfold Board_loadFEN.
  destruct (Z.of_nat (List.length (Js.split "/" fen)) =? 8) eqn:E;
    [|discriminate].
  apply Z.eqb_eq in E. cbn [negb].
  pose proof (loadFEN_rows_placed (Js.split "/" fen) 0 [] ltac:(lia)
                (Forall_nil _)) as H.
  destruct (loadFEN_rows 0 (Js.split "/" fen) []) as [ok ps].
  intros [= -> <-]. cbn [pieces enPassantTarget capturedPieces].
  split; [lia|]. split; [|split; reflexivity].
  specialize (H eq_refl). cbn [snd] in H.
  eapply Forall_impl; [|exact H].
  unfold placed, onBoard. intros p (Hm & Hr & Hc & Hpos).
  split; [|exact Hm]. apply Position_isValid_bounds. lia.
Qed.

(** A text [Board.loadFEN] accepts has eight rows between its slashes,
    and the board it builds holds fresh pieces only ([hasMoved] false),
    each on a square of the board, no en-passant target and no captured
    piece. *)
Theorem board_loadFEN_accepts_eight_full_rows (b b' : Board) (fen : string) :
  Board_loadFEN b fen = (true, b') ->
  List.length (Js.split "/" fen) = 8%nat
  /\ Forall (fun p => onBoard p /\ hasMoved p = false) (pieces b')
  /\ enPassantTarget b' = None
  /\ capturedPieces b' = [].
Proof. exact (board_loadFEN_built b b' fen). Qed.

Lemma board_loadFEN_accepts_eight_full_rows_witness :
  List.length (Js.split "/" "4k3/8/8/8/8/8/8/4K3") = 8%nat
  /\ Forall (fun p => onBoard p /\ hasMoved p = false)
       (pieces (snd (Board_loadFEN Board_new "4k3/8/8/8/8/8/8/4K3")))
  /\ enPassantTarget (snd (Board_loadFEN Board_new "4k3/8/8/8/8/8/8/4K3"))
     = None
  /\ capturedPieces (snd (Board_loadFEN Board_new "4k3/8/8/8/8/8/8/4K3")) = [].
Proof.
  apply (board_loadFEN_accepts_eight_full_rows Board_new
           (snd (Board_loadFEN Board_new "4k3/8/8/8/8/8/8/4K3"))
           "4k3/8/8/8/8/8/8/4K3").
  vm_compute. reflexivity.
Defined.

(* ================================================================== *)
(** * The signature and the order of the array *)
(* ================================================================== *)

(** The position signature reads the class, the colour and the square
    of every piece and the en-passant target, and nothing else: two
    boards that hold the same pieces in any order of their arrays, with
    any [hasMoved] flags and any captured pieces, have the same
    signature. *)
Theorem signature_ignores_order_and_flags (b b' : Board) :
  Permutation (map pieceKey (pieces b)) (map pieceKey (pieces b')) ->
  enPassantTarget b = enPassantTarget b' ->
  Board_getPositionSignature b = Board_getPositionSignature b'.
Proof. intros Hp He. now apply signature_of_keys. Qed.

Lemma signature_ignores_order_and_flags_witness :
  Board_getPositionSignature
    (mkBoard [Piece_new King BLACK (mkPosition 0 4);
              Piece_new King WHITE (mkPosition 7 4)] None [])
  = Board_getPositionSignature
      (mkBoard [mkPiece King WHITE (mkPosition 7 4) true;
                mkPiece King BLACK (mkPosition 0 4) true] None
               [Piece_new Queen WHITE (mkPosition 7 3)]).
Proof.
  apply signature_ignores_order_and_flags; [|reflexivity].
  apply perm_swap.
Defined.

(* ================================================================== *)
(** * What movePiece refuses and what it touches *)
(* ================================================================== *)

(** [movePiece] refuses a move in two cases only, whatever the
    promotion key: no piece stands on the source square, or
    [isValidMove] rejects the target; it then names the case.  A valid
    move of a piece that is there is never refused. *)
Theorem movePiece_refuses_missing_piece_and_invalid_move
    (b : Board) (from to : Position) (key : string) :
  (Board_getPieceAt b from = None ->
   Board_movePiece b from to key = MoveFailure "No piece at source position")
  /\ (forall piece,
        Board_getPieceAt b from = Some piece ->
        Piece_isValidMove piece b to = false ->
        Board_movePiece b from to key = MoveFailure "Invalid move")
  /\ (forall piece error,
        Board_getPieceAt b from = Some piece ->
        Piece_isValidMove piece b to = true ->
        Board_movePiece b from to key <> MoveFailure error).
Proof.
  unfold Board_movePiece. repeat split.
  - intros ->. reflexivity.
  - intros piece -> ->. reflexivity.
  - intros piece error -> ->. cbn [negb].
    destruct (isPromotionMove piece to).
    + destruct (pieceConstructors key); cbv zeta;
        try destruct (castleRook _ _ _ _); discriminate.
    + cbv zeta. destruct (castleRook _ _ _ _); discriminate.
Qed.

Lemma removeFirst_keeps {A : Type} (f : A -> bool) (l : list A) (x : A) :
  In x l -> f x = false -> In x (removeFirst f l).
Proof.
  induction l as [|y l IH]; intros Hin Hf; [destruct Hin|].
  simpl. destruct Hin as [->|Hin].
  - rewrite Hf. now left.
  - destruct (f y); [exact Hin | right; now apply IH].
Qed.

Lemma updateFirst_keeps {A : Type} (f : A -> bool) (g : A -> A) (l : list A)
    (x : A) :
  In x l -> f x = false -> In x (updateFirst f g l).
Proof.
  induction l as [|y l IH]; intros Hin Hf; [destruct Hin|].
  simpl. destruct Hin as [->|Hin].
  - rewrite Hf. now left.
  - destruct (f y); right; [exact Hin | now apply IH].
Qed.

Lemma isAt_false_col (pos : Position) (q : Piece) :
  col (position q) <> col pos -> isAt pos q = false.
Proof.
  intros H. unfold isAt. apply andb_false_iff. right. now apply Z.eqb_neq.
Qed.

Lemma isAt_false_row (pos : Position) (q : Piece) :
  row (position q) <> row pos -> isAt pos q = false.
Proof.
  intros H. unfold isAt. apply andb_false_iff. left. now apply Z.eqb_neq.
Qed.

Lemma castleRook_keeps (piece : Piece) (from to : Position) (ps : list Piece)
    (q : Piece) :
  In q ps -> row (position q) <> row from ->
  In q (fst (castleRook piece from to ps)).
Proof.
  intros Hin Hrow. unfold castleRook.
  destruct (Kind_eqb (kind piece) King && (Js.abs (col to - col from) =? 2));
    [|exact Hin].
  destruct (pieceAt ps _); [|exact Hin].
  cbn [fst]. apply updateFirst_keeps; [exact Hin|].
  now apply isAt_false_row.
Qed.

(** A call of [movePiece], whatever its outcome, leaves in the array
    every piece that stands neither on the column of the target nor on
    the row of the source: the squares it takes a piece from are the
    target, the square behind it on its column, the source, and a
    corner of the source's row. *)
Theorem movePiece_leaves_bystanders
    (b : Board) (from to : Position) (key : string) (q : Piece) :
  In q (pieces b) ->
  col (position q) <> col to ->
  row (position q) <> row from ->
  In q (pieces (boardAfter b (Board_movePiece b from to key))).
Proof.
  intros Hin Hcol Hrow. unfold Board_movePiece.
  destruct (Board_getPieceAt b from) as [piece|]; [|exact Hin].
  destruct (negb (Piece_isValidMove piece b to)); [exact Hin|].
  set (ps1 := if isSome (Board_getPieceAt b to)
              then removeFirst (isAt to) (pieces b) else pieces b).
  assert (H1 : In q ps1).
  { subst ps1. destruct (isSome _); [|exact Hin].
    apply removeFirst_keeps; [exact Hin | now apply isAt_false_col]. }
  set (capturePosition :=
         mkPosition
           match color piece with WHITE => row to + 1 | BLACK => row to - 1 end
           (col to)).
  set (capturedPawn :=
         if Kind_eqb (kind piece) Pawn
            && match enPassantTarget b with
               | Some ep => Position_equals to ep
               | None => false
               end
         then pieceAt ps1 capturePosition else None).
  set (ps2 := if isSome capturedPawn
              then removeFirst (isAt capturePosition) ps1 else ps1).
  assert (H2 : In q ps2).
  { subst ps2. destruct (isSome capturedPawn); [|exact H1].
    apply removeFirst_keeps; [exact H1 | now apply isAt_false_col]. }
  set (moverCaptured := isSome capturedPawn
                        && Position_equals capturePosition from).
  destruct (isPromotionMove piece to).
  - assert (H3 : In q (if moverCaptured then ps2
                       else removeFirst (isAt from) ps2)).
    { destruct moverCaptured; [exact H2|].
      apply removeFirst_keeps; [exact H2 | now apply isAt_false_row]. }
    destruct (pieceConstructors key); cbv zeta; cbn [boardAfter pieces];
      try exact H2; try exact H3.
    + pose proof (castleRook_keeps piece from to
                    ((if moverCaptured then ps2
                      else removeFirst (isAt from) ps2)
                     ++ [mkPiece k (color piece) (Position_clone to) true]) q
                    (in_or_app _ _ _ (or_introl H3)) Hrow) as H4.
      destruct (castleRook _ _ _ _). exact H4.
    + pose proof (castleRook_keeps piece from to
                    ((if moverCaptured then ps2
                      else removeFirst (isAt from) ps2)
                     ++ [mkPiece Queen (color piece) (Position_clone to) true])
                    q (in_or_app _ _ _ (or_introl H3)) Hrow) as H4.
      destruct (castleRook _ _ _ _). exact H4.
  - cbv zeta.
    assert (H3 : In q (if moverCaptured then ps2
                       else updateFirst (isAt from)
                              (fun p => Piece_moveTo p (Position_clone to))
                              ps2)).
    { destruct moverCaptured; [exact H2|].
      apply updateFirst_keeps; [exact H2 | now apply isAt_false_row]. }
    pose proof (castleRook_keeps piece from to _ q H3 Hrow) as H4.
    destruct (castleRook _ _ _ _). exact H4.
Qed.

Lemma movePiece_leaves_bystanders_witness :
  In (Piece_new King BLACK (mkPosition 0 4))
     (pieces (boardAfter Board_new
                (Board_movePiece Board_new (mkPosition 6 0) (mkPosition 4 0)
                   "Q"))).
Proof.
  apply (movePiece_leaves_bystanders Board_new (mkPosition 6 0)
           (mkPosition 4 0) "Q" (Piece_new King BLACK (mkPosition 0 4))).
  - vm_compute. tauto.
  - vm_compute. discriminate.
  - vm_compute. discriminate.
Defined.

Lemma removeFirst_length {A : Type} (f : A -> bool) (l : list A) :
  List.length (removeFirst f l)
  = (List.length l - if isSome (find f l) then 1 else 0)%nat.
Proof.
  induction l as [|x l IH]; [reflexivity|].
  simpl. destruct (f x); simpl; [lia|].
  rewrite IH. destruct (isSome (find f l)) eqn:E; [|lia].
  destruct l; [discriminate | simpl; lia].
Qed.

Lemma updateFirst_length {A : Type} (f : A -> bool) (g : A -> A) (l : list A) :
  List.length (updateFirst f g l) = List.length l.
Proof.
  induction l as [|x l IH]; [reflexivity|].
  simpl. destruct (f x); simpl; [reflexivity | now rewrite IH].
Qed.

Lemma castleRook_length (piece : Piece) (from to : Position) (ps : list Piece) :
  List.length (fst (castleRook piece from to ps)) = List.length ps.
Proof.
  unfold castleRook.
  destruct (Kind_eqb (kind piece) King && (Js.abs (col to - col from) =? 2));
    [|reflexivity].
  destruct (pieceAt ps _); [|reflexivity].
  cbn [fst]. apply updateFirst_length.
Qed.

Lemma find_In_isSome {A : Type} (f : A -> bool) (l : list A) (x : A) :
  In x l -> f x = true -> isSome (find f l) = true.
Proof.
  intros Hin Hf. destruct (find f l) eqn:E; [reflexivity|].
  pose proof (find_none _ _ E x Hin). congruence.
Qed.

Lemma isSome_length {A : Type} (f : A -> bool) (l : list A) :
  isSome (find f l) = true -> (0 < List.length l)%nat.
Proof. destruct l; [discriminate | simpl; lia]. Qed.

(** A successful [movePiece] never adds a piece to the board: the
    array keeps its length when the result names no captured piece and
    is not longer otherwise; the captured pieces of before stay at the
    front of the captured list, followed by at most two new ones. *)
Theorem movePiece_never_adds_a_piece
    (b b' : Board) (from to : Position) (key : string) (r : MoveResult) :
  Board_movePiece b from to key = MoveSuccess r b' ->
  (List.length (pieces b') <= List.length (pieces b))%nat
  /\ (res_capturedPiece r = None ->
      List.length (pieces b') = List.length (pieces b)
      /\ capturedPieces b' = capturedPieces b)
  /\ exists added,
       capturedPieces b' = capturedPieces b ++ added
       /\ (List.length added <= 2)%nat.
Proof.
  unfold Board_movePiece.
  destruct (Board_getPieceAt b from) as [piece|] eqn:Hfrom; [|discriminate].
  destruct (Piece_isValidMove piece b to) eqn:Hvalid; [|discriminate].
  cbn [negb].
  apply pieceAt_Some in Hfrom as [Hin Hpos].
  apply isValidMove_inv in Hvalid as (_ & Hne & _). rewrite Hpos in Hne.
  assert (Hat : isAt from piece = true) by now apply isAt_iff.
  assert (Hnot : isAt to piece = false).
  { apply not_true_is_false. intros H. apply isAt_iff in H. congruence. }
  set (capturedPiece := Board_getPieceAt b to).
  set (ps1 := if isSome capturedPiece
              then removeFirst (isAt to) (pieces b) else pieces b).
  set (cs1 := match capturedPiece with
              | Some c => capturedPieces b ++ [c]
              | None => capturedPieces b
              end).
  set (capturePosition :=
         mkPosition
           match color piece with WHITE => row to + 1 | BLACK => row to - 1 end
           (col to)).
  set (capturedPawn :=
         if Kind_eqb (kind piece) Pawn
            && match enPassantTarget b with
               | Some ep => Position_equals to ep
               | None => false
               end
         then pieceAt ps1 capturePosition else None).
  set (ps2 := if isSome capturedPawn
              then removeFirst (isAt capturePosition) ps1 else ps1).
  set (moverCaptured := isSome capturedPawn
                        && Position_equals capturePosition from).
  assert (L1 : (List.length ps1 <= List.length (pieces b))%nat
               /\ (capturedPiece = None -> ps1 = pieces b)
               /\ In piece ps1).
  { subst ps1. destruct capturedPiece; cbn [isSome].
    - rewrite removeFirst_length.
      split; [lia | split; [discriminate | now apply removeFirst_keeps]].
    - split; [lia | split; [reflexivity | exact Hin]]. }
  destruct L1 as (L1 & L1' & Hin1).
  assert (L2 : (List.length ps2 <= List.length ps1)%nat
               /\ (capturedPawn = None -> ps2 = ps1)).
  { subst ps2. destruct capturedPawn; cbn [isSome].
    - rewrite removeFirst_length. split; [lia | discriminate].
    - split; [lia | reflexivity]. }
  destruct L2 as (L2 & L2').
  assert (L3 : forall x : Piece,
             exists added,
               match capturedPawn with
               | Some c => cs1 ++ [if moverCaptured then x else c]
               | None => cs1
               end = capturedPieces b ++ added
               /\ (List.length added <= 2)%nat).
  { intros x. subst cs1.
    destruct capturedPiece as [c|], capturedPawn as [c'|].
    - exists [c; if moverCaptured then x else c'].
      rewrite <- app_assoc. split; [reflexivity | simpl; lia].
    - exists [c]. split; [reflexivity | simpl; lia].
    - exists [if moverCaptured then x else c'].
      split; [reflexivity | simpl; lia].
    - exists []. rewrite app_nil_r. split; [reflexivity | simpl; lia]. }
  assert (L3' : exists added,
             match capturedPawn with
             | Some c => cs1 ++ [c]
             | None => cs1
             end = capturedPieces b ++ added
             /\ (List.length added <= 2)%nat).
  { destruct capturedPawn as [c|] eqn:E.
    - destruct (L3 c) as (added & Ha & Hl). exists added.
      split; [|exact Hl]. rewrite <- Ha. now destruct moverCaptured.
    - destruct (L3 piece) as (added & Ha & Hl). exists added. now split. }
  assert (Hmover : moverCaptured = true ->
                   (List.length ps2 < List.length ps1)%nat).
  { intros Hm. subst moverCaptured ps2.
    apply andb_true_iff in Hm as [Hsome Heq].
    rewrite Hsome, removeFirst_length.
    destruct capturedPawn as [c|] eqn:Ec; [|discriminate].
    assert (Hfind : find (isAt capturePosition) ps1 = Some c).
    { subst capturedPawn. destruct (_ && _); [exact Ec | discriminate]. }
    rewrite Hfind. cbn [isSome].
    destruct ps1; [discriminate | simpl; lia]. }
  assert (Hstays : moverCaptured = false ->
                   isSome (find (isAt from) ps2) = true).
  { intros Hm. apply find_In_isSome with piece; [|exact Hat].
    subst ps2. destruct (isSome capturedPawn) eqn:Es; [|exact Hin1].
    apply removeFirst_keeps; [exact Hin1|].
    subst moverCaptured. rewrite ?Es in Hm. cbn [andb] in Hm.
    apply not_true_is_false. intros H. apply isAt_iff in H.
    rewrite Hpos in H. subst from.
    assert (Position_equals capturePosition capturePosition = true)
      by now apply Position_equals_iff.
    congruence. }
  assert (Hnone : forall f : Piece -> Piece,
             match capturedPawn with
             | Some c => Some (f c)
             | None => capturedPiece
             end = None ->
             capturedPawn = None /\ capturedPiece = None).
  { intros f. destruct capturedPawn; [discriminate | now split]. }
  destruct (isPromotionMove piece to).
  - set (withoutPawn := if moverCaptured then ps2
                        else removeFirst (isAt from) ps2).
    assert (L4 : (List.length withoutPawn + 1 <= List.length (pieces b))%nat
                 /\ (capturedPiece = None -> capturedPawn = None ->
                     List.length withoutPawn + 1
                     = List.length (pieces b))%nat).
    { subst withoutPawn. destruct moverCaptured eqn:Em.
      - specialize (Hmover eq_refl). split; [lia|].
        intros _ Hn. subst moverCaptured. rewrite Hn in Em. discriminate.
      - specialize (Hstays eq_refl). rewrite removeFirst_length, Hstays.
        pose proof (isSome_length _ _ Hstays). split; [lia|].
        intros H1 H2. rewrite (L2' H2), (L1' H1) in *. lia. }
    destruct L4 as [L4 L4'].
    assert (Hcapt : match capturedPawn with
                    | Some c => Some c
                    | None => capturedPiece
                    end = None ->
                    capturedPawn = None /\ capturedPiece = None).
    { destruct capturedPawn; [discriminate | now split]. }
    destruct (pieceConstructors key) as [k| | |]; try discriminate.
    + cbv zeta.
      pose proof (castleRook_length piece from to
                    (withoutPawn
                     ++ [mkPiece k (color piece) (Position_clone to) true]))
        as Hlen.
      destruct (castleRook _ _ _ _) as [ps4 rookMove]. cbn [fst] in Hlen.
      intros [= <- <-]. cbn [pieces capturedPieces res_capturedPiece].
      rewrite Hlen, length_app. cbn [List.length].
      split; [lia|]. split; [|exact L3'].
      intros Hc. destruct (Hcapt Hc) as [Hp Hq].
      split; [now apply L4'|]. rewrite Hp. subst cs1. now rewrite Hq.
    + cbv zeta.
      pose proof (castleRook_length piece from to
                    (withoutPawn
                     ++ [mkPiece Queen (color piece) (Position_clone to) true]))
        as Hlen.
      destruct (castleRook _ _ _ _) as [ps4 rookMove]. cbn [fst] in Hlen.
      intros [= <- <-]. cbn [pieces capturedPieces res_capturedPiece].
      rewrite Hlen, length_app. cbn [List.length].
      split; [lia|]. split; [|exact L3'].
      intros Hc. destruct (Hcapt Hc) as [Hp Hq].
      split; [now apply L4'|]. rewrite Hp. subst cs1. now rewrite Hq.
  - cbv zeta.
    set (ps3 := if moverCaptured then ps2
                else updateFirst (isAt from)
                       (fun p => Piece_moveTo p (Position_clone to)) ps2).
    assert (L4 : List.length ps3 = List.length ps2).
    { subst ps3. destruct moverCaptured; [reflexivity|].
      apply updateFirst_length. }
    pose proof (castleRook_length piece from to ps3) as Hlen.
    destruct (castleRook _ _ _ _) as [ps4 rookMove]. cbn [fst] in Hlen.
    intros [= <- <-]. cbn [pieces capturedPieces res_capturedPiece].
    rewrite Hlen, L4. split; [lia|]. split; [|apply L3].
    intros Hc.
    destruct (Hnone (fun c => if moverCaptured
                              then Piece_moveTo piece (Position_clone to)
                              else c) Hc) as [Hp Hq].
    rewrite (L2' Hp), (L1' Hq). split; [reflexivity|].
    rewrite Hp. subst cs1. now rewrite Hq.
Qed.

Lemma movePiece_never_adds_a_piece_witness :
  (List.length
     (pieces (boardAfter Board_new
                (Board_movePiece Board_new (mkPosition 6 4) (mkPosition 4 4)
                   "Q")))
   <= List.length (pieces Board_new))%nat.
Proof.
  destruct (Board_movePiece Board_new (mkPosition 6 4) (mkPosition 4 4) "Q")
    as [r b'| | |] eqn:E; try (vm_compute in E; discriminate).
  exact (proj1 (movePiece_never_adds_a_piece _ _ _ _ _ _ E)).
Defined.

(* ================================================================== *)
(** * The en-passant target after a move *)
(* ================================================================== *)

Lemma pawn_double_step_inv (p : Piece) (b : Board) (to : Position) :
  Pawn_canMoveTo p b to = true ->
  Js.abs (row to - row (position p)) = 2 ->
  col to = col (position p)
  /\ row to
     = row (position p) + 2 * match color p with WHITE => -1 | BLACK => 1 end
  /\ row (position p) = match color p with WHITE => 6 | BLACK => 1 end
  /\ Board_getPieceAt b
       (mkPosition
          (row (position p) + match color p with WHITE => -1 | BLACK => 1 end)
          (col (position p))) = None
  /\ Board_getPieceAt b to = None.
Proof.
  intros H Habs. pose proof (pawn_double_step _ _ _ H Habs) as Hstep.
  unfold Pawn_canMoveTo in H. unfold Js.abs in *.
  destruct ((col to - col (position p) =? 0)
            && (row to - row (position p)
                =? match color p with WHITE => -1 | BLACK => 1 end)) eqn:E1.
  { apply andb_true_iff in E1 as [_ E1]. apply Z.eqb_eq in E1.
    destruct (color p); lia. }
  destruct ((col to - col (position p) =? 0)
            && (row to - row (position p)
                =? 2 * match color p with WHITE => -1 | BLACK => 1 end)
            && (row (position p)
                =? match color p with WHITE => 6 | BLACK => 1 end)) eqn:E2.
  { apply andb_true_iff in E2 as [E2 E2c].
    apply andb_true_iff in E2 as [E2a E2b].
    apply Z.eqb_eq in E2a, E2b, E2c.
    apply andb_true_iff in H as [Hmid Hto].
    repeat split; try lia.
    - match goal with
      | |- ?x = None => destruct x; [discriminate | reflexivity]
      end.
    - destruct (Board_getPieceAt b to); [discriminate | reflexivity]. }
  destruct ((Z.abs (col to - col (position p)) =? 1)
            && (row to - row (position p)
                =? match color p with WHITE => -1 | BLACK => 1 end)) eqn:E3;
    [|discriminate].
  apply andb_true_iff in E3 as [_ E3]. apply Z.eqb_eq in E3.
  destruct (color p); lia.
Qed.

(** After a successful [movePiece] the board has an en-passant target
    exactly when a pawn moved two rows; the target is then the square
    the pawn passed, on its column and half way between source and
    target, the pawn came from its starting rank, and the passed square
    and the target were empty.  The result reports the same target. *)
Theorem movePiece_sets_enPassant_target_behind_double_step
    (b b' : Board) (from to : Position) (key : string) (r : MoveResult) :
  Board_movePiece b from to key = MoveSuccess r b' ->
  (forall ep,
     enPassantTarget b' = Some ep <->
     (kind (res_piece r) = Pawn
      /\ Js.abs (row to - row from) = 2
      /\ ep = mkPosition ((row from + row to) / 2) (col from)))
  /\ (forall ep,
        enPassantTarget b' = Some ep ->
        col to = col from
        /\ row from
           = match color (res_piece r) with WHITE => 6 | BLACK => 1 end
        /\ Board_getPieceAt b ep = None
        /\ Board_getPieceAt b to = None).
Proof.
  intros H.
  destruct (movePiece_success_inv _ _ _ _ _ _ H)
    as (piece & Hget & Hvalid & Hkind & Hnext).
  assert (Hcolor : color (res_piece r) = color piece).
  { revert H. unfold Board_movePiece. rewrite Hget, Hvalid. cbn [negb].
    cbv zeta. destruct (isPromotionMove piece to).
    - destruct (pieceConstructors key); try discriminate;
        destruct (castleRook _ _ _ _); intros [= <- <-]; reflexivity.
    - destruct (castleRook _ _ _ _); intros [= <- <-]; reflexivity. }
  apply pieceAt_Some in Hget as [Hin Hpos].
  destruct (isValidMove_inv _ _ _ Hvalid) as (_ & _ & Hcan).
  rewrite Hnext, Hkind, Hcolor. unfold nextEnPassantTarget.
  assert (Hdouble :
    kind piece = Pawn -> Js.abs (row to - row from) = 2 ->
    col to = col from
    /\ row to
       = row from + 2 * match color piece with WHITE => -1 | BLACK => 1 end
    /\ row from = match color piece with WHITE => 6 | BLACK => 1 end
    /\ Board_getPieceAt b
         (mkPosition
            (row from + match color piece with WHITE => -1 | BLACK => 1 end)
            (col from)) = None
    /\ Board_getPieceAt b to = None).
  { intros Hk Hd. unfold Piece_canMoveTo in Hcan. rewrite Hk in Hcan.
    rewrite <- Hpos in Hd |- *. now apply pawn_double_step_inv. }
  split.
  - intros ep. split.
    + destruct (Kind_eqb (kind piece) Pawn) eqn:Hk; [|discriminate].
      destruct (Js.abs (row to - row from) =? 2) eqn:Hd; [|discriminate].
      cbn [andb]. intros [= <-].
      apply Kind_eqb_eq in Hk. apply Z.eqb_eq in Hd.
      destruct (Hdouble Hk Hd) as (_ & Hrow & _).
      repeat split; try assumption. f_equal.
      destruct (color piece); rewrite Hrow;
        [replace (row from + (row from + 2 * -1)) with ((row from - 1) * 2)
           by lia
        |replace (row from + (row from + 2 * 1)) with ((row from + 1) * 2)
           by lia];
        now rewrite Z.div_mul.
    + intros (Hk & Hd & ->).
      destruct (Hdouble Hk Hd) as (_ & Hrow & _).
      apply Kind_eqb_eq in Hk. rewrite Hk.
      apply Z.eqb_eq in Hd. rewrite Hd. cbn [andb]. f_equal. f_equal.
      destruct (color piece); rewrite Hrow;
        [replace (row from + (row from + 2 * -1)) with ((row from - 1) * 2)
           by lia
        |replace (row from + (row from + 2 * 1)) with ((row from + 1) * 2)
           by lia];
        now rewrite Z.div_mul.
  - intros ep.
    destruct (Kind_eqb (kind piece) Pawn) eqn:Hk; [|discriminate].
    destruct (Js.abs (row to - row from) =? 2) eqn:Hd; [|discriminate].
    cbn [andb]. intros [= <-].
    apply Kind_eqb_eq in Hk. apply Z.eqb_eq in Hd.
    destruct (Hdouble Hk Hd) as (Hc & Hrow & Hstart & Hmid & Hto).
    repeat split; try assumption.
    destruct (color piece); exact Hmid.
Qed.

Lemma movePiece_sets_enPassant_target_behind_double_step_witness :
  enPassantTarget
    (boardAfter Board_new
       (Board_movePiece Board_new (mkPosition 6 4) (mkPosition 4 4) "Q"))
  = Some (mkPosition 5 4).
Proof.
  destruct (Board_movePiece Board_new (mkPosition 6 4) (mkPosition 4 4) "Q")
    as [r b'| | |] eqn:E; try (vm_compute in E; discriminate).
  apply (proj1 (movePiece_sets_enPassant_target_behind_double_step
                  _ _ _ _ _ _ E)).
  assert (Hr : kind (res_piece r) = Pawn).
  { vm_compute in E. injection E as <- _. reflexivity. }
  split; [exact Hr | split; reflexivity].
Defined.

(* ================================================================== *)
(** * The bookkeeping of makeMove *)
(* ================================================================== *)

Lemma movePiece_result_piece (b b' : Board) (from to : Position)
    (key : string) (r : MoveResult) (piece : Piece) :
  Board_getPieceAt b from = Some piece ->
  Board_movePiece b from to key = MoveSuccess r b' ->
  kind (res_piece r) = kind piece /\ color (res_piece r) = color piece.
Proof.
  intros Hget. unfold Board_movePiece. rewrite Hget.
  destruct (negb (Piece_isValidMove piece b to)); [discriminate|].
  cbv zeta. destruct (isPromotionMove piece to).
  - destruct (pieceConstructors key); try discriminate;
      destruct (castleRook _ _ _ _); intros [= <- <-]; split; reflexivity.
  - destruct (castleRook _ _ _ _); intros [= <- <-]; split; reflexivity.
Qed.

(** A successful [makeMove] hands the turn to the other side, appends
    the returned move to the move history and its notation to the
    notations, appends the signature of the new board to the position
    history, counts a full move after Black's moves only, and sets the
    half-move clock to zero after a pawn move or a capture and one
    higher otherwise.  The moved piece belongs to the side that was to
    move, and the returned status is the status of the game. *)
Theorem makeMove_records_the_move
    (g g' : Game) (from to : SquareArg) (promo : string)
    (move : Move) (status : GameStatus) :
  Game_makeMove g from to promo = (MoveMade move status, g') ->
  currentTurn g' = opponent (currentTurn g)
  /\ color (move_piece move) = currentTurn g
  /\ moveHistory g' = moveHistory g ++ [move]
  /\ Game_getMoveNotations g'
     = Game_getMoveNotations g ++ [move_notation move]
  /\ positionHistory g'
     = positionHistory g ++ [Board_getPositionSignature (board g')]
  /\ fullMoveNumber g'
     = match currentTurn g with
       | BLACK => Js.incr (fullMoveNumber g)
       | WHITE => fullMoveNumber g
       end
  /\ halfMoveClock g'
     = (if Kind_eqb (kind (move_piece move)) Pawn
           || isSome (move_capturedPiece move)
        then Js.Num 0
        else Js.incr (halfMoveClock g))
  /\ status = gameStatus g'.
Proof.
  intros H.
  destruct (makeMove_made_inv _ _ _ _ _ _ _ H)
    as (fromPos & toPos & piece & result & b' & _ & _ & Hget & Hcol & Hmove
        & _ & Hm & Hg & Hs).
  destruct (movePiece_result_piece _ _ _ _ _ _ _ Hget Hmove) as [Hk Hc].
  subst g'. unfold Game_getMoveNotations. cbn.
  rewrite map_app. cbn [map].
  repeat split; try reflexivity; try assumption.
  - rewrite Hm. cbn. congruence.
  - rewrite Hm. cbn. unfold nextHalfMoveClock. now rewrite Hk.
Qed.

Lemma makeMove_records_the_move_witness :
  currentTurn
    (snd (Game_makeMove Game_new (Algebraic "e2") (Algebraic "e4") "Q"))
  = opponent (currentTurn Game_new).
Proof.
  destruct (Game_makeMove Game_new (Algebraic "e2") (Algebraic "e4") "Q")
    as [res g'] eqn:E.
  assert (Hres : exists m s, res = MoveMade m s).
  { apply (f_equal fst) in E. vm_compute in E. subst res. eauto. }
  destruct Hres as (m & s & ->).
  exact (proj1 (makeMove_records_the_move _ _ _ _ _ _ _ E)).
Defined.

Lemma opponent_involutive (c : Color) : opponent (opponent c) = c.
Proof. destruct c; reflexivity. Qed.

Lemma Game_new_counted : Counted Game_new.
Proof.
  constructor; try reflexivity.
  exists 0. split; [reflexivity | simpl; lia].
Qed.

Lemma makeMove_counted (g g' : Game) (from to : SquareArg) (promo : string)
    (move : Move) (status : GameStatus) :
  Counted g ->
  Game_makeMove g from to promo = (MoveMade move status, g') ->
  Counted g'.
Proof.
  intros C H.
  destruct (makeMove_made_inv _ _ _ _ _ _ _ H)
    as (fromPos & toPos & piece & result & b' & _ & _ & _ & _ & _
        & Hsafe & _ & Hg & _).
  destruct C as [Cp Ct Cn (h & Ch & Hh) Cl Cm].
  subst g'.
  constructor; unfold Game_updateGameStatus;
    cbn [board currentTurn moveHistory positionHistory halfMoveClock
         fullMoveNumber gameStatus].
  - rewrite !length_app. cbn [List.length]. lia.
  - rewrite length_app. cbn [List.length]. rewrite Nat.add_1_r, Nat.even_succ.
    rewrite <- Nat.negb_even. rewrite Ct.
    now destruct (Nat.even (List.length (moveHistory g))).
  - rewrite length_app. cbn [List.length]. rewrite Ct, Cn.
    destruct (Nat.even (List.length (moveHistory g))) eqn:E.
    + apply Nat.even_spec in E as [k Ek]. rewrite Ek. do 2 f_equal.
      zify. Z.div_mod_to_equations. lia.
    + assert (Ho : Nat.odd (List.length (moveHistory g)) = true)
        by (rewrite <- Nat.negb_even, E; reflexivity).
      apply Nat.odd_spec in Ho as [k Ek]. rewrite Ek. cbn [Js.incr].
      f_equal. zify. Z.div_mod_to_equations. lia.
  - unfold nextHalfMoveClock. rewrite length_app. cbn [List.length].
    destruct (_ || _).
    + exists 0. split; [reflexivity | lia].
    + exists (h + 1). rewrite Ch. split; [reflexivity | lia].
  - now rewrite last_last.
  - now rewrite opponent_involutive.
Qed.

Lemma reachable_counted (g : Game) : Reachable g -> Counted g.
Proof.
  induction 1 as [|g g' from to promo move status _ IH H].
  - exact Game_new_counted.
  - eapply makeMove_counted; eassumption.
Qed.

(** In every game reachable from the initial position the position
    history is one longer than the move history and ends with the
    signature of the board, White is to move exactly after an even
    number of moves, the full-move number is one more than the number
    of Black's moves, the half-move clock lies between zero and the
    number of moves, and the king of the side that is not to move is
    not in check: no successful [makeMove] leaves the mover's own king
    attacked. *)
Theorem reachable_game_counts_its_moves (g : Game) :
  Reachable g ->
  let n := List.length (moveHistory g) in
  List.length (positionHistory g) = S n
  /\ last (positionHistory g) EmptyString
     = Board_getPositionSignature (board g)
  /\ currentTurn g = (if Nat.even n then WHITE else BLACK)
  /\ fullMoveNumber g = Js.Num (1 + Z.of_nat n / 2)
  /\ (exists h, halfMoveClock g = Js.Num h /\ 0 <= h <= Z.of_nat n)
  /\ Board_isKingInCheck (board g) (opponent (currentTurn g)) = false.
Proof.
  intros R. destruct (reachable_counted g R) as [Cp Ct Cn Cc Cl Cm].
  cbv zeta. auto 10.
Qed.

Lemma reachable_game_counts_its_moves_witness :
  List.length (moveHistory pawnTakesToPromote) = 8%nat
  /\ List.length (positionHistory pawnTakesToPromote) = 9%nat
  /\ last (positionHistory pawnTakesToPromote) EmptyString
     = Board_getPositionSignature (board pawnTakesToPromote)
  /\ currentTurn pawnTakesToPromote = WHITE
  /\ fullMoveNumber pawnTakesToPromote = Js.Num 5
  /\ (exists h, halfMoveClock pawnTakesToPromote = Js.Num h /\ 0 <= h <= 8)
  /\ Board_isKingInCheck (board pawnTakesToPromote) BLACK = false.
Proof.
  pose proof (reachable_game_counts_its_moves pawnTakesToPromote
                (playFrom_reachable _ Game_new Reachable_new)) as H.
  assert (Hn : List.length (moveHistory pawnTakesToPromote) = 8%nat)
    by (vm_compute; reflexivity).
  cbv zeta in H. rewrite Hn in H.
  destruct H as (Hp & Hl & Ht & Hm & Hc & Hk).
  split; [exact Hn|]. split; [exact Hp|]. split; [exact Hl|].
  split; [exact Ht|]. split; [exact Hm|]. split; [exact Hc|].
  rewrite Ht in Hk. exact Hk.
Defined.

(* ================================================================== *)
(** * Undoing every move *)
(* ================================================================== *)

Lemma undoTimes_reachable (g : Game) :
  Reachable g -> undoTimes (List.length (moveHistory g)) g = Game_new.
Proof.
  induction 1 as [|g g' from to promo move status R IH H].
  - reflexivity.
  - pose proof (undo_after_move _ _ _ _ _ _ _ (reachable_sound _ R) H) as Hu.
    destruct (makeMove_made_inv _ _ _ _ _ _ _ H)
      as (fromPos & toPos & piece & result & b' & _ & _ & _ & _ & _
          & _ & _ & Hg & _).
    assert (Hlen : List.length (moveHistory g')
                   = S (List.length (moveHistory g))).
    { subst g'. cbn. rewrite length_app. cbn. lia. }
    rewrite Hlen. cbn [undoTimes]. rewrite Hu. exact IH.
Qed.

(** Undoing is exact on reachable games: as many [undoLastMove] calls
    as the game has moves lead back to [new Game()], with its board,
    turn, histories, clocks and status, which is also the state
    [reset()] gives; one more call returns false and changes
    nothing. *)
Theorem undoing_every_move_returns_to_the_start (g : Game) :
  Reachable g ->
  undoTimes (List.length (moveHistory g)) g = Game_new
  /\ undoTimes (List.length (moveHistory g)) g = Game_reset g
  /\ Game_undoLastMove (undoTimes (List.length (moveHistory g)) g)
     = (UndoReturned false, Game_new).
Proof.
  intros R. rewrite (undoTimes_reachable g R). repeat split; reflexivity.
Qed.

Lemma undoing_every_move_returns_to_the_start_witness :
  undoTimes (List.length (moveHistory pinnedPawnGame)) pinnedPawnGame
  = Game_new.
Proof.
  exact (proj1 (undoing_every_move_returns_to_the_start pinnedPawnGame
                  (playFrom_reachable _ Game_new Reachable_new))).
Defined.

(* ================================================================== *)
(** * The en-passant target of a reachable game *)
(* ================================================================== *)

Lemma vacant_pieceAt_None (ps : list Piece) (pos : Position) :
  vacant ps pos -> pieceAt ps pos = None.
Proof.
  intros Hv. destruct (pieceAt ps pos) as [q|] eqn:E; [|reflexivity].
  apply pieceAt_Some in E as [Hin Hpos]. now apply Hv in Hin.
Qed.

Lemma pieceAt_updateFirst_moved (ps : list Piece) (from to : Position)
    (p : Piece) :
  pieceAt ps from = Some p ->
  pieceAt ps to = None ->
  pieceAt (updateFirst (isAt from) (fun q => Piece_moveTo q to) ps) to
  = Some (Piece_moveTo p to).
Proof.
  unfold pieceAt. induction ps as [|x ps IH]; [discriminate|].
  cbn [find updateFirst]. destruct (isAt from x) eqn:Ef.
  - intros [= ->] _. cbn [find].
    replace (isAt to (Piece_moveTo p to)) with true; [reflexivity|].
    symmetry. now apply isAt_iff.
  - intros Hp Hto. destruct (isAt to x) eqn:Et; [discriminate|].
    cbn [find]. rewrite Et. now apply IH.
Qed.

Lemma movePiece_double_step_board (b b' : Board) (from to : Position)
    (key : string) (r : MoveResult) (piece : Piece) :
  Board_getPieceAt b from = Some piece ->
  Piece_isValidMove piece b to = true ->
  kind piece = Pawn ->
  Js.abs (row to - row from) = 2 ->
  Board_movePiece b from to key = MoveSuccess r b' ->
  pieces b'
  = updateFirst (isAt from) (fun p => Piece_moveTo p to) (pieces b).
Proof.
  intros Hget Hvalid Hk Hd.
  pose proof (pieceAt_Some _ _ _ Hget) as [Hin Hpos].
  destruct (isValidMove_inv _ _ _ Hvalid) as (_ & _ & Hcan).
  unfold Piece_canMoveTo in Hcan. rewrite Hk in Hcan.
  rewrite <- Hpos in Hd.
  destruct (pawn_double_step_inv _ _ _ Hcan Hd)
    as (Hcol & Hrow & Hstart & Hmid & Hto).
  rewrite Hpos in *.
  unfold Board_movePiece. rewrite Hget, Hvalid, Hto. cbn [negb isSome].
  cbv zeta.
  assert (Hcapture :
    pieceAt (pieces b)
      (mkPosition
         match color piece with WHITE => row to + 1 | BLACK => row to - 1 end
         (col to)) = None).
  { unfold Board_getPieceAt in Hmid. rewrite <- Hmid. f_equal.
    rewrite Hcol. f_equal. destruct (color piece); lia. }
  rewrite Hcapture.
  assert (Hpromo : isPromotionMove piece to = false).
  { unfold isPromotionMove. rewrite Hk. cbn [Kind_eqb andb].
    destruct (color piece); cbn [Color_eqb andb orb];
      rewrite ?orb_false_r; apply Z.eqb_neq; lia. }
  rewrite Hpromo.
  replace (if Kind_eqb (kind piece) Pawn
              && match enPassantTarget b with
                 | Some ep => Position_equals to ep
                 | None => false
                 end
           then @None Piece else None) with (@None Piece)
    by now destruct (_ && _).
  cbn [isSome andb].
  rewrite castleRook_not_king by (rewrite Hk; discriminate).
  rewrite Position_clone_id. intros [= _ <-]. reflexivity.
Qed.

(** The en-passant target a successful [makeMove] leaves is the empty
    square behind the pawn that made the double step. *)
Lemma makeMove_enPassant_behind (g0 g : Game) (from to : SquareArg)
    (promo : string) (move : Move) (status : GameStatus) (ep : Position) :
  Game_makeMove g0 from to promo = (MoveMade move status, g) ->
  enPassantTarget (board g) = Some ep ->
  Board_getPieceAt (board g) ep = None
  /\ row ep = match currentTurn g with WHITE => 2 | BLACK => 5 end
  /\ exists pawn,
       Board_getPieceAt (board g)
         (mkPosition (row ep - rowDirectionOf (currentTurn g)) (col ep))
       = Some pawn
       /\ kind pawn = Pawn
       /\ color pawn = opponent (currentTurn g)
       /\ hasMoved pawn = true.
Proof.
  intros H.
  destruct (makeMove_made_inv _ _ _ _ _ _ _ H)
    as (fromPos & toPos & piece & result & b' & _ & _ & Hget & Hcol & Hmove
        & _ & _ & Hg & _).
  subst g. unfold Game_updateGameStatus. cbn [board currentTurn].
  intros Hep.
  destruct (movePiece_success_inv _ _ _ _ _ _ Hmove)
    as (piece' & Hget' & Hvalid & _ & Hnext).
  rewrite Hget in Hget'. injection Hget' as <-.
  rewrite Hnext in Hep. unfold nextEnPassantTarget in Hep.
  destruct (Kind_eqb (kind piece) Pawn) eqn:Hk; [|discriminate].
  destruct (Js.abs (row toPos - row fromPos) =? 2) eqn:Hd; [|discriminate].
  cbn [andb] in Hep. injection Hep as <-.
  apply Kind_eqb_eq in Hk. apply Z.eqb_eq in Hd.
  pose proof (movePiece_double_step_board _ _ _ _ _ _ _ Hget Hvalid Hk Hd Hmove)
    as Hps.
  pose proof (pieceAt_Some _ _ _ Hget) as [Hin Hpos].
  destruct (isValidMove_inv _ _ _ Hvalid) as (_ & _ & Hcan).
  unfold Piece_canMoveTo in Hcan. rewrite Hk in Hcan.
  assert (Hd' : Js.abs (row toPos - row (position piece)) = 2)
    by now rewrite Hpos.
  destruct (pawn_double_step_inv _ _ _ Hcan Hd')
    as (Hc & Hrow & Hstart & Hmid & Hto).
  rewrite Hpos in *. unfold Board_getPieceAt in *. rewrite Hps.
  cbn [row col]. rewrite <- Hcol.
  split; [|split].
  - apply vacant_pieceAt_None. apply updateFirst_moveTo_vacant.
    + apply pieceAt_None_vacant.
      destruct (color piece); exact Hmid.
    + intros E. apply (f_equal row) in E. cbn in E.
      destruct (color piece); lia.
  - destruct (color piece); cbn [opponent]; lia.
  - exists (Piece_moveTo piece toPos).
    replace (mkPosition _ (col fromPos)) with toPos.
    + split; [now apply pieceAt_updateFirst_moved|].
      cbn. repeat split; [exact Hk | now destruct (color piece)].
    + destruct toPos as [tr tc]. cbn in *. unfold rowDirectionOf.
      f_equal; destruct (color piece); cbn [opponent]; lia.
Qed.

(** In every game reachable from the initial position an en-passant
    target is an empty square on the third row of the side that just
    moved, and on the square next to it towards the side to move
    stands a pawn of the side that just moved, which has moved. *)
Theorem reachable_enPassant_target_is_behind_a_pawn
    (g : Game) (ep : Position) :
  Reachable g ->
  enPassantTarget (board g) = Some ep ->
  Board_getPieceAt (board g) ep = None
  /\ row ep = match currentTurn g with WHITE => 2 | BLACK => 5 end
  /\ exists pawn,
       Board_getPieceAt (board g)
         (mkPosition (row ep - rowDirectionOf (currentTurn g)) (col ep))
       = Some pawn
       /\ kind pawn = Pawn
       /\ color pawn = opponent (currentTurn g)
       /\ hasMoved pawn = true.
Proof.
  intros R Hep. destruct R as [|g g' from to promo move status _ H];
    [discriminate|].
  exact (makeMove_enPassant_behind _ _ _ _ _ _ _ _ H Hep).
Qed.

Lemma reachable_enPassant_target_is_behind_a_pawn_witness :
  Board_getPieceAt (board (playFrom Game_new [("e2", "e4")]%string))
    (mkPosition 5 4) = None
  /\ row (mkPosition 5 4)
     = match currentTurn (playFrom Game_new [("e2", "e4")]%string) with
       | WHITE => 2
       | BLACK => 5
       end
  /\ exists pawn,
       Board_getPieceAt (board (playFrom Game_new [("e2", "e4")]%string))
         (mkPosition
            (row (mkPosition 5 4)
             - rowDirectionOf
                 (currentTurn (playFrom Game_new [("e2", "e4")]%string)))
            (col (mkPosition 5 4)))
       = Some pawn
       /\ kind pawn = Pawn
       /\ color pawn
          = opponent (currentTurn (playFrom Game_new [("e2", "e4")]%string))
       /\ hasMoved pawn = true.
Proof.
  apply (reachable_enPassant_target_is_behind_a_pawn
           (playFrom Game_new [("e2", "e4")]%string) (mkPosition 5 4)).
  - apply playFrom_reachable. exact Reachable_new.
  - vm_compute. reflexivity.
Defined.

(* ================================================================== *)
(** * A game loaded from FEN *)
(* ================================================================== *)

Lemma Forall_onBoard_positions (ps qs : list Piece) :
  map position ps = map position qs ->
  Forall onBoard ps -> Forall onBoard qs.
Proof.
  revert qs. induction ps as [|p ps IH]; intros [|q qs] E H;
    try discriminate; [constructor|].
  cbn [map] in E. injection E as Ep E. apply Forall_cons_iff in H as [Hp H].
  constructor; [|now apply IH]. unfold onBoard in *. now rewrite <- Ep.
Qed.

(** When [Game.loadFEN] succeeds the text had six fields, the move
    history is empty, the position history holds the signature of the
    loaded board only, both counters are numbers, the pieces stand on
    squares of the board, so does the en-passant target if there is
    one, nothing is recorded as captured, the side to move is White
    exactly when the second field is the text w, and the status is the
    one [updateGameStatus] computes. *)
Theorem game_loadFEN_success_starts_a_fresh_history
    (g g' : Game) (fen : string) :
  Game_loadFEN g fen = (true, g') ->
  List.length (fieldsOf fen) = 6%nat
  /\ moveHistory g' = []
  /\ positionHistory g' = [Board_getPositionSignature (board g')]
  /\ Js.isNaN (halfMoveClock g') = false
  /\ Js.isNaN (fullMoveNumber g') = false
  /\ Forall onBoard (pieces (board g'))
  /\ (forall ep, enPassantTarget (board g') = Some ep ->
                 Position_isValid ep = true)
  /\ capturedPieces (board g') = []
  /\ (currentTurn g' = WHITE <-> nth 1 (fieldsOf fen) EmptyString = "w"%string)
  /\ gameStatus g'
     = computeStatus (board g') (currentTurn g') (positionHistory g')
         (halfMoveClock g').
Proof.
  unfold Game_loadFEN, fieldsOf.
  destruct (Js.split " " (Js.trim fen))
    as [|placement [|active [|castling [|enPassant [|halfMove [|fullMove
        [|extra rest]]]]]]]; try discriminate.
  destruct (Board_loadFEN (board g) placement) as [ok b1] eqn:Hload.
  destruct ok; [|discriminate]. cbn [negb].
  destruct (board_loadFEN_built _ _ _ Hload) as (_ & Hon & Hep & Hcs).
  destruct (if negb (String.eqb enPassant "-")
            then option_map Some (Position_fromAlgebraic enPassant)
            else Some None) as [ep|] eqn:Htarget; [|discriminate].
  destruct (Js.isNaN (Js.parseInt halfMove)) eqn:Hclock; [discriminate|].
  destruct (Js.isNaN (Js.parseInt fullMove)) eqn:Hnumber; [discriminate|].
  intros [= <-]. unfold Game_updateGameStatus.
  cbn [board moveHistory positionHistory halfMoveClock fullMoveNumber
       currentTurn gameStatus pieces enPassantTarget capturedPieces
       List.length nth].
  repeat split; try reflexivity; try assumption.
  - eapply Forall_onBoard_positions;
      [symmetry; apply applyCastlingField_positions|].
    eapply Forall_impl; [|exact Hon]. now intros p [H _].
  - intros ep' ->.
    destruct (negb (String.eqb enPassant "-")); [|discriminate].
    destruct (Position_fromAlgebraic enPassant) as [p|] eqn:Hp;
      [|discriminate].
    injection Htarget as <-. now apply fromAlgebraic_inv in Hp.
  - destruct (String.eqb active "w") eqn:E; [|discriminate].
    intros _. now apply String.eqb_eq.
  - intros ->. reflexivity.
Qed.

Lemma game_loadFEN_success_starts_a_fresh_history_witness :
  moveHistory
    (snd (Game_loadFEN pinnedPawnGame "4k3/8/8/8/8/8/8/4K3 w - - 0 1"))
  = [].
Proof.
  destruct (Game_loadFEN pinnedPawnGame "4k3/8/8/8/8/8/8/4K3 w - - 0 1")
    as [ok g'] eqn:E.
  assert (Hok : ok = true).
  { apply (f_equal fst) in E. vm_compute in E. now subst ok. }
  subst ok.
  exact (proj1 (proj2 (game_loadFEN_success_starts_a_fresh_history _ _ _ E))).
Defined.

(* ================================================================== *)
(** * A capture is an attack *)
(* ================================================================== *)

Lemma isValidMove_enemy (p : Piece) (b : Board) (to : Position) (q : Piece) :
  Piece_isValidMove p b to = true ->
  Board_getPieceAt b to = Some q ->
  color q <> color p.
Proof.
  intros H Hq Hcol.
  pose proof (isValidMove_inv _ _ _ H) as (Hv & _ & _).
  unfold Piece_isValidMove in H. rewrite Hv in H. cbn [negb] in H.
  destruct (Position_equals (position p) to); [discriminate|].
  rewrite Hq in H. apply Color_eqb_eq in Hcol. rewrite Hcol in H. discriminate.
Qed.

Lemma forallb_range (f : Z -> bool) (lo hi c : Z) :
  forallb f (range lo hi) = true -> lo <= c < hi -> f c = true.
Proof.
  intros H Hc. rewrite forallb_forall in H. apply H. now apply In_range.
Qed.

Lemma castling_never_captures (p : Piece) (b : Board) (to : Position)
    (q : Piece) :
  Piece_isValidMove p b to = true ->
  King_canMoveTo p b to = true ->
  Board_getPieceAt b to = Some q ->
  Js.abs (row to - row (position p)) <= 1
  /\ Js.abs (col to - col (position p)) <= 1.
Proof.
  intros Hvalid Hcan Hq.
  pose proof (isValidMove_enemy _ _ _ _ Hvalid Hq) as Henemy.
  pose proof (isValidMove_inv _ _ _ Hvalid) as (Hv & _ & _).
  apply Position_isValid_bounds in Hv.
  unfold King_canMoveTo, Js.abs in *.
  destruct ((Z.abs (row to - row (position p)) <=? 1)
            && (Z.abs (col to - col (position p)) <=? 1)) eqn:E.
  { bool_to_Z. split; assumption. }
  exfalso.
  destruct (negb (hasMoved p)
            && (Z.abs (row to - row (position p)) =? 0)
            && (Z.abs (col to - col (position p)) =? 2)) eqn:E';
    [|discriminate].
  apply andb_true_iff in E' as [E' Hc2]. apply andb_true_iff in E' as [_ Hr0].
  apply Z.eqb_eq in Hc2, Hr0.
  assert (Hto : to = mkPosition (row (position p)) (col to)).
  { destruct to as [tr tc]. cbn in *. f_equal. lia. }
  destruct (col (position p) <? col to) eqn:Hside.
  - apply Z.ltb_lt in Hside.
    destruct (Board_getPieceAt b (mkPosition (row (position p)) 7))
      as [rook|] eqn:Hrook; [|discriminate].
    destruct (negb (Ascii.eqb (Js.toLowerCase (Piece_symbol rook)) "r")
              || negb (Color_eqb (color rook) (color p))
              || hasMoved rook) eqn:Hr; [discriminate|].
    apply orb_false_iff in Hr as [Hr _]. apply orb_false_iff in Hr as [_ Hr].
    apply negb_false_iff, Color_eqb_eq in Hr.
    destruct (Z.eq_dec (col to) 7) as [E7|N7].
    + rewrite Hto, E7, Hrook in Hq. injection Hq as <-. contradiction.
    + pose proof (forallb_range _ _ _ (col to) Hcan) as Hempty.
      cbv beta in Hempty. rewrite <- Hto, Hq in Hempty. cbn in Hempty.
      enough (false = true) by discriminate. apply Hempty. lia.
  - apply Z.ltb_ge in Hside.
    destruct (Board_getPieceAt b (mkPosition (row (position p)) 0))
      as [rook|] eqn:Hrook; [|discriminate].
    destruct (negb (Ascii.eqb (Js.toLowerCase (Piece_symbol rook)) "r")
              || negb (Color_eqb (color rook) (color p))
              || hasMoved rook) eqn:Hr; [discriminate|].
    apply orb_false_iff in Hr as [Hr _]. apply orb_false_iff in Hr as [_ Hr].
    apply negb_false_iff, Color_eqb_eq in Hr.
    destruct (Z.eq_dec (col to) 0) as [E0|N0].
    + rewrite Hto, E0, Hrook in Hq. injection Hq as <-. contradiction.
    + pose proof (forallb_range _ _ _ (col to) Hcan) as Hempty.
      cbv beta in Hempty. rewrite <- Hto, Hq in Hempty. cbn in Hempty.
      enough (false = true) by discriminate. apply Hempty. lia.
Qed.

Lemma valid_capture_attacks (p : Piece) (b : Board) (to : Position)
    (q : Piece) :
  Piece_isValidMove p b to = true ->
  Board_getPieceAt b to = Some q ->
  attacks b to (color p) p = true.
Proof.
  intros Hvalid Hq.
  pose proof (isValidMove_inv _ _ _ Hvalid) as (_ & _ & Hcan).
  unfold attacks. unfold Piece_canMoveTo in Hcan.
  destruct (kind p); try exact Hvalid.
  - unfold Pawn_canMoveTo in Hcan. rewrite Hq in Hcan. cbn [isSome negb] in Hcan.
    rewrite andb_false_r in Hcan. unfold Js.abs in Hcan.
    destruct ((col to - col (position p) =? 0)
              && (row to - row (position p)
                  =? match color p with WHITE => -1 | BLACK => 1 end));
      [discriminate|].
    destruct ((col to - col (position p) =? 0)
              && (row to - row (position p)
                  =? 2 * match color p with WHITE => -1 | BLACK => 1 end)
              && (row (position p)
                  =? match color p with WHITE => 6 | BLACK => 1 end));
      [discriminate|].
    destruct ((Z.abs (col to - col (position p)) =? 1)
              && (row to - row (position p)
                  =? match color p with WHITE => -1 | BLACK => 1 end)) eqn:E;
      [|discriminate].
    apply andb_true_iff in E as [E1 E2]. apply Z.eqb_eq in E1, E2.
    apply andb_true_iff. split.
    + apply Z.eqb_eq. lia.
    + apply orb_true_iff.
      destruct (Z.eq_dec (col (position p) - 1) (col to));
        [left | right]; apply Z.eqb_eq; lia.
  - destruct (castling_never_captures _ _ _ _ Hvalid Hcan Hq) as [Hr Hc].
    unfold Js.abs in *.
    apply andb_true_iff. split; apply Z.leb_le; assumption.
Qed.

Lemma existsb_In {A : Type} (f : A -> bool) (l : list A) (x : A) :
  In x l -> f x = true -> existsb f l = true.
Proof. intros Hin Hf. apply existsb_exists. eauto. Qed.

(** A capture is an attack: when [isValidMove] accepts a move of a
    piece of the board onto an occupied square, the piece on that
    square is of the other colour, [isSquareAttacked] reports the
    square as attacked by the mover's colour, and [findAttackers] lists
    the mover.  So castling never captures, and a pawn captures only
    where it attacks. *)
Theorem capturing_move_attacks_its_target
    (b : Board) (p : Piece) (to : Position) (q : Piece) :
  In p (pieces b) ->
  Piece_isValidMove p b to = true ->
  Board_getPieceAt b to = Some q ->
  color q <> color p
  /\ Board_isSquareAttacked b to (color p) = true
  /\ In p (Board_findAttackers b to (color p)).
Proof.
  intros Hin Hvalid Hq.
  pose proof (valid_capture_attacks _ _ _ _ Hvalid Hq) as Hatt.
  assert (Hmine : In p (Board_getPiecesByColor b (color p))).
  { unfold Board_getPiecesByColor. apply filter_In.
    split; [exact Hin | apply Color_eqb_refl]. }
  split; [now apply isValidMove_enemy with b to|]. split.
  - unfold Board_isSquareAttacked. now apply existsb_In with p.
  - unfold Board_findAttackers. apply filter_In. split; [exact Hmine|].
    now rewrite <- attacks_canAttack.
Qed.

Lemma capturing_move_attacks_its_target_witness :
  color (Piece_new Rook BLACK (mkPosition 0 0))
  <> color (Piece_new Rook WHITE (mkPosition 7 0))
  /\ Board_isSquareAttacked
       (mkBoard [Piece_new Rook WHITE (mkPosition 7 0);
                 Piece_new Rook BLACK (mkPosition 0 0)] None [])
       (mkPosition 0 0) (color (Piece_new Rook WHITE (mkPosition 7 0))) = true
  /\ In (Piece_new Rook WHITE (mkPosition 7 0))
       (Board_findAttackers
          (mkBoard [Piece_new Rook WHITE (mkPosition 7 0);
                    Piece_new Rook BLACK (mkPosition 0 0)] None [])
          (mkPosition 0 0) (color (Piece_new Rook WHITE (mkPosition 7 0)))).
Proof.
  apply (capturing_move_attacks_its_target
           (mkBoard [Piece_new Rook WHITE (mkPosition 7 0);
                     Piece_new Rook BLACK (mkPosition 0 0)] None [])
           (Piece_new Rook WHITE (mkPosition 7 0)) (mkPosition 0 0)
           (Piece_new Rook BLACK (mkPosition 0 0))).
  - now left.
  - vm_compute. reflexivity.
  - vm_compute. reflexivity.
Defined.

(* ================================================================== *)
(** * Kings are never taken *)
(* ================================================================== *)

Lemma countKings_removeFirst (c : Color) (f : Piece -> bool)
    (ps : list Piece) :
  (forall x, find f ps = Some x -> isKingOf c x = false) ->
  countKings c (removeFirst f ps) = countKings c ps.
Proof.
  unfold countKings. induction ps as [|x ps IH]; intros H; [reflexivity|].
  cbn [removeFirst find filter] in *. destruct (f x).
  - now rewrite (H x eq_refl).
  - cbn [filter]. destruct (isKingOf c x); cbn [List.length]; now rewrite IH.
Qed.

Lemma countKings_updateFirst (c : Color) (f : Piece -> bool)
    (g : Piece -> Piece) (ps : list Piece) :
  (forall x, isKingOf c (g x) = isKingOf c x) ->
  countKings c (updateFirst f g ps) = countKings c ps.
Proof.
  unfold countKings. intros Hg. induction ps as [|x ps IH]; [reflexivity|].
  cbn [updateFirst filter]. destruct (f x).
  - cbn [filter]. rewrite Hg. now destruct (isKingOf c x).
  - cbn [filter]. destruct (isKingOf c x); cbn [List.length]; now rewrite IH.
Qed.

Lemma find_removeFirst_other {A : Type} (f g : A -> bool) (l : list A) :
  (forall x, g x = true -> f x = false) ->
  find f (removeFirst g l) = find f l.
Proof.
  intros H. induction l as [|x l IH]; [reflexivity|].
  cbn [removeFirst find]. destruct (g x) eqn:E.
  - now rewrite (H x E).
  - cbn [find]. now rewrite IH.
Qed.

Lemma isAt_other (pos pos' : Position) (x : Piece) :
  pos <> pos' -> isAt pos x = true -> isAt pos' x = false.
Proof.
  intros Hne H. apply isAt_iff in H. apply not_true_is_false. intros H'.
  apply isAt_iff in H'. congruence.
Qed.

Lemma countKings_app (c : Color) (ps : list Piece) (x : Piece) :
  isKingOf c x = false -> countKings c (ps ++ [x]) = countKings c ps.
Proof.
  unfold countKings. intros H. rewrite filter_app. cbn [filter].
  rewrite H. now rewrite app_nil_r.
Qed.

Lemma isKingOf_moveTo (c : Color) (x : Piece) (pos : Position) :
  isKingOf c (Piece_moveTo x pos) = isKingOf c x.
Proof. reflexivity. Qed.

Lemma countKings_castleRook (c : Color) (piece : Piece) (from to : Position)
    (ps : list Piece) :
  countKings c (fst (castleRook piece from to ps)) = countKings c ps.
Proof.
  unfold castleRook.
  destruct (Kind_eqb (kind piece) King && (Js.abs (col to - col from) =? 2));
    [|reflexivity].
  destruct (pieceAt ps _); [|reflexivity].
  cbn [fst]. apply countKings_updateFirst. intros x. apply isKingOf_moveTo.
Qed.

Lemma isKingOf_pawn (c : Color) (x : Piece) :
  kind x = Pawn -> isKingOf c x = false.
Proof. unfold isKingOf. now intros ->. Qed.

(** A successful [movePiece] keeps the number of kings of a colour when
    neither the piece on the target nor the piece behind an en-passant
    target is a king of that colour. *)
Lemma movePiece_countKings (b b' : Board) (from to : Position) (key : string)
    (r : MoveResult) (c : Color) (piece : Piece) :
  Board_getPieceAt b from = Some piece ->
  Board_movePiece b from to key = MoveSuccess r b' ->
  (forall q, Board_getPieceAt b to = Some q -> isKingOf c q = false) ->
  (forall q,
     kind piece = Pawn -> enPassantTarget b = Some to ->
     In q (pieces b) ->
     position q
     = mkPosition
         match color piece with WHITE => row to + 1 | BLACK => row to - 1 end
         (col to) ->
     isKingOf c q = false) ->
  countKings c (pieces b') = countKings c (pieces b).
Proof.
  intros Hget Hmove Hto Hpass. revert Hmove. unfold Board_movePiece.
  rewrite Hget.
  destruct (Piece_isValidMove piece b to) eqn:Hvalid; [|discriminate].
  cbn [negb].
  pose proof (pieceAt_Some _ _ _ Hget) as [_ Hpos].
  apply isValidMove_inv in Hvalid as (_ & Hne & _). rewrite Hpos in Hne.
  set (capturedPiece := Board_getPieceAt b to).
  set (ps1 := if isSome capturedPiece
              then removeFirst (isAt to) (pieces b) else pieces b).
  set (capturePosition :=
         mkPosition
           match color piece with WHITE => row to + 1 | BLACK => row to - 1 end
           (col to)).
  set (capturedPawn :=
         if Kind_eqb (kind piece) Pawn
            && match enPassantTarget b with
               | Some ep => Position_equals to ep
               | None => false
               end
         then pieceAt ps1 capturePosition else None).
  set (ps2 := if isSome capturedPawn
              then removeFirst (isAt capturePosition) ps1 else ps1).
  set (moverCaptured := isSome capturedPawn
                        && Position_equals capturePosition from).
  assert (K1 : countKings c ps1 = countKings c (pieces b)).
  { subst ps1. destruct (isSome capturedPiece); [|reflexivity].
    apply countKings_removeFirst. exact Hto. }
  assert (F1 : find (isAt from) ps1 = Some piece).
  { subst ps1. destruct (isSome capturedPiece); [|exact Hget].
    rewrite find_removeFirst_other; [exact Hget|].
    intros x. apply isAt_other. congruence. }
  assert (Hincl : forall q, In q ps1 -> In q (pieces b)).
  { subst ps1. destruct (isSome capturedPiece); [|auto].
    intros q. apply removeFirst_incl. }
  assert (K2 : countKings c ps2 = countKings c ps1).
  { subst ps2. destruct (isSome capturedPawn) eqn:Es; [|reflexivity].
    apply countKings_removeFirst. intros x Hx.
    subst capturedPawn.
    destruct (Kind_eqb (kind piece) Pawn) eqn:Hk; [|discriminate].
    destruct (enPassantTarget b) as [ep|] eqn:Hep; [|discriminate].
    destruct (Position_equals to ep) eqn:Heq; [|discriminate].
    apply Kind_eqb_eq in Hk. apply Position_equals_iff in Heq. subst ep.
    apply pieceAt_Some in Hx as [Hin Hpos'].
    apply (Hpass x Hk eq_refl (Hincl _ Hin) Hpos'). }
  assert (F2 : moverCaptured = false -> find (isAt from) ps2 = Some piece).
  { intros Hm. subst ps2 moverCaptured.
    destruct (isSome capturedPawn); [|exact F1].
    cbn [andb] in Hm.
    rewrite find_removeFirst_other; [exact F1|].
    intros x. apply isAt_other. intros E.
    assert (Position_equals capturePosition from = true)
      by now apply Position_equals_iff.
    congruence. }
  destruct (isPromotionMove piece to) eqn:Hpromo.
  - apply isPromotionMove_pawn in Hpromo.
    set (withoutPawn := if moverCaptured then ps2
                        else removeFirst (isAt from) ps2).
    assert (K3 : countKings c withoutPawn = countKings c ps2).
    { subst withoutPawn. destruct moverCaptured; [reflexivity|].
      apply countKings_removeFirst. intros x Hx.
      rewrite (F2 eq_refl) in Hx. injection Hx as <-.
      now apply isKingOf_pawn. }
    destruct (pieceConstructors key) as [k| | |] eqn:Hkey; try discriminate.
    + cbv zeta.
      pose proof (countKings_castleRook c piece from to
                    (withoutPawn
                     ++ [mkPiece k (color piece) (Position_clone to) true]))
        as Hc.
      destruct (castleRook _ _ _ _) as [ps4 rookMove]. cbn [fst] in Hc.
      intros [= _ <-]. cbn [pieces].
      rewrite Hc, countKings_app, K3, K2, K1; [reflexivity|].
      unfold isKingOf. cbn [kind].
      pose proof (pieceConstructors_not_king _ _ Hkey).
      destruct k; try reflexivity. contradiction.
    + cbv zeta.
      pose proof (countKings_castleRook c piece from to
                    (withoutPawn
                     ++ [mkPiece Queen (color piece) (Position_clone to) true]))
        as Hc.
      destruct (castleRook _ _ _ _) as [ps4 rookMove]. cbn [fst] in Hc.
      intros [= _ <-]. cbn [pieces].
      rewrite Hc, countKings_app, K3, K2, K1; reflexivity.
  - cbv zeta.
    set (ps3 := if moverCaptured then ps2
                else updateFirst (isAt from)
                       (fun p => Piece_moveTo p (Position_clone to)) ps2).
    assert (K3 : countKings c ps3 = countKings c ps2).
    { subst ps3. destruct moverCaptured; [reflexivity|].
      apply countKings_updateFirst. intros x. apply isKingOf_moveTo. }
    pose proof (countKings_castleRook c piece from to ps3) as Hc.
    destruct (castleRook _ _ _ _) as [ps4 rookMove]. cbn [fst] in Hc.
    intros [= _ <-]. cbn [pieces]. now rewrite Hc, K3, K2, K1.
Qed.

Lemma find_hd_filter {A : Type} (f : A -> bool) (l : list A) :
  find f l = hd_error (filter f l).
Proof.
  induction l as [|x l IH]; [reflexivity|].
  cbn [find filter]. destruct (f x); [reflexivity | exact IH].
Qed.

Lemma the_only_king (c : Color) (ps : list Piece) (q : Piece) :
  countKings c ps = 1%nat -> In q ps -> isKingOf c q = true ->
  find (isKingOf c) ps = Some q.
Proof.
  unfold countKings. intros Hone Hin Hk. rewrite find_hd_filter.
  assert (Hq : In q (filter (isKingOf c) ps)) by now apply filter_In.
  destruct (filter (isKingOf c) ps) as [|x [|y l]]; try discriminate.
  destruct Hq as [->|[]]. reflexivity.
Qed.

Lemma reachable_pawn_behind (g : Game) (ep : Position) (q : Piece) :
  Reachable g ->
  enPassantTarget (board g) = Some ep ->
  In q (pieces (board g)) ->
  position q
  = mkPosition (row ep - rowDirectionOf (currentTurn g)) (col ep) ->
  kind q = Pawn.
Proof.
  intros R Hep Hin Hpos.
  pose proof (sound_unique _ (reachable_sound _ R)) as Hnd.
  destruct R as [|g0 g from0 to0 promo0 move0 status0 _ H0]; [discriminate|].
  destruct (makeMove_enPassant_behind _ _ _ _ _ _ _ _ H0 Hep)
    as (_ & _ & pawn & Hpawn & Hkp & _).
  apply pieceAt_Some in Hpawn as [Hinp Hposp].
  replace q with pawn; [exact Hkp|].
  apply (same_square_same_piece (pieces (board g))); try assumption.
  now rewrite Hposp.
Qed.

(** No successful [makeMove] of a reachable game takes a king, so the
    number of kings of each colour stays what it is. *)
Lemma makeMove_countKings (g g' : Game) (from to : SquareArg)
    (promo : string) (move : Move) (status : GameStatus) (c : Color) :
  Reachable g ->
  countKings (opponent (currentTurn g)) (pieces (board g)) = 1%nat ->
  Game_makeMove g from to promo = (MoveMade move status, g') ->
  countKings c (pieces (board g')) = countKings c (pieces (board g)).
Proof.
  intros R Hone H.
  destruct (makeMove_made_inv _ _ _ _ _ _ _ H)
    as (fromPos & toPos & piece & result & b' & _ & _ & Hget & Hcol & Hmove
        & _ & _ & Hg & _).
  assert (Hboard : board g' = b') by (subst g'; reflexivity).
  rewrite Hboard.
  destruct (movePiece_success_inv _ _ _ _ _ _ Hmove)
    as (piece' & Hget' & Hvalid & _ & _).
  rewrite Hget in Hget'. injection Hget' as <-.
  pose proof (pieceAt_Some _ _ _ Hget) as [Hin Hpos].
  apply (movePiece_countKings _ _ _ _ _ _ c piece Hget Hmove).
  - intros q Hq.
    destruct (isKingOf c q) eqn:Hking; [exfalso | reflexivity].
    unfold isKingOf in Hking. apply andb_true_iff in Hking as [Hk Hc].
    apply Color_eqb_eq in Hc.
    pose proof (isValidMove_enemy _ _ _ _ Hvalid Hq) as Henemy.
    assert (Hopp : color q = opponent (currentTurn g)).
    { rewrite Hcol in Henemy. destruct (color q), (currentTurn g);
        try reflexivity; contradiction. }
    pose proof (pieceAt_Some _ _ _ Hq) as [Hinq Hposq].
    assert (Hfind : Board_getKing (board g) (opponent (currentTurn g)) = Some q).
    { apply the_only_king; [exact Hone | exact Hinq |].
      unfold isKingOf. rewrite Hk, Hopp. now rewrite Color_eqb_refl. }
    pose proof (counted_mover _ (reachable_counted _ R)) as Hsafe.
    unfold Board_isKingInCheck in Hsafe. rewrite Hfind in Hsafe.
    rewrite opponent_involutive, Hposq in Hsafe.
    unfold Board_isSquareAttacked in Hsafe.
    rewrite (existsb_In _ _ piece) in Hsafe; [discriminate | |].
    + unfold Board_getPiecesByColor. apply filter_In. split; [exact Hin|].
      now apply Color_eqb_eq.
    + rewrite <- Hcol. now apply valid_capture_attacks with q.
  - intros q Hk Hep Hinq Hposq.
    apply isKingOf_pawn.
    apply (reachable_pawn_behind g toPos q R Hep Hinq).
    rewrite Hposq. unfold rowDirectionOf. rewrite Hcol.
    f_equal. destruct (currentTurn g); lia.
Qed.

Lemma reachable_one_king (g : Game) :
  Reachable g -> forall c, countKings c (pieces (board g)) = 1%nat.
Proof.
  induction 1 as [|g g' from to promo move status R IH H]; intros c.
  - destruct c; reflexivity.
  - rewrite (makeMove_countKings _ _ _ _ _ _ _ c R (IH _) H). apply IH.
Qed.

(** Kings are never taken: every game reachable from the initial
    position has exactly one king of each colour on its board, it is
    the piece [getKing] returns, and it stands on a square of the
    board. *)
Theorem reachable_game_has_one_king_of_each_colour (g : Game) (c : Color) :
  Reachable g ->
  exists king,
    filter (isKingOf c) (pieces (board g)) = [king]
    /\ Board_getKing (board g) c = Some king
    /\ kind king = King
    /\ color king = c
    /\ onBoard king.
Proof.
  intros R. pose proof (reachable_one_king g R c) as Hone.
  pose proof (sound_onBoard _ (reachable_sound _ R)) as Hon.
  unfold countKings in Hone. unfold Board_getKing. rewrite find_hd_filter.
  destruct (filter (isKingOf c) (pieces (board g))) as [|king [|x l]] eqn:E;
    try discriminate.
  exists king. split; [reflexivity|]. split; [reflexivity|].
  assert (Hin : In king (filter (isKingOf c) (pieces (board g))))
    by (rewrite E; now left).
  apply filter_In in Hin as [Hin Hk]. unfold isKingOf in Hk.
  apply andb_true_iff in Hk as [Hk Hc].
  apply Kind_eqb_eq in Hk. apply Color_eqb_eq in Hc.
  rewrite Forall_forall in Hon. auto.
Qed.

Lemma reachable_game_has_one_king_of_each_colour_witness :
  exists king,
    filter (isKingOf BLACK) (pieces (board pinnedPawnGame)) = [king]
    /\ Board_getKing (board pinnedPawnGame) BLACK = Some king
    /\ kind king = King
    /\ color king = BLACK
    /\ onBoard king.
Proof.
  apply (reachable_game_has_one_king_of_each_colour pinnedPawnGame BLACK).
  apply playFrom_reachable. exact Reachable_new.
Defined.

(* ================================================================== *)
(** * The FEN text reads back *)
(* ================================================================== *)

Lemma digitValue_digitChar (d : Z) :
  0 <= d < 10 -> Js.digitValue (Js.digitChar d) = d.
Proof.
  intros H.
  assert (Hd : d = 0 \/ d = 1 \/ d = 2 \/ d = 3 \/ d = 4 \/ d = 5 \/ d = 6
               \/ d = 7 \/ d = 8 \/ d = 9) by lia.
  repeat (destruct Hd as [->|Hd]); try subst d; reflexivity.
Qed.

Lemma readDigits_digit (d : Z) (rest : string) (a : Z) :
  0 <= d < 10 ->
  Js.readDigits (String (Js.digitChar d) rest) a
  = Js.readDigits rest (10 * a + d).
Proof.
  intros H. cbn [Js.readDigits].
  rewrite (proj2 (digitChar_plain d H)). now rewrite digitValue_digitChar.
Qed.

Lemma readDigits_digitsFuel (fuel : nat) :
  forall z acc a,
    0 <= z < 10 ^ (Z.of_nat fuel + 1) ->
    exists k,
      0 <= k
      /\ Js.readDigits (Js.digitsFuel fuel z acc) a
         = Js.readDigits acc (a * 10 ^ k + z).
Proof.
  induction fuel as [|f IH]; intros z acc a Hz.
  - cbn [Js.digitsFuel]. change (10 ^ (Z.of_nat 0 + 1)) with 10 in Hz.
    rewrite Z.mod_small by lia. rewrite readDigits_digit by lia.
    exists 1. split; [lia|]. f_equal. lia.
  - cbn [Js.digitsFuel]. destruct (z <? 10) eqn:E.
    + apply Z.ltb_lt in E. rewrite Z.mod_small by lia.
      rewrite readDigits_digit by lia.
      exists 1. split; [lia|]. f_equal. lia.
    + apply Z.ltb_ge in E.
      assert (Hq : 0 <= z / 10 < 10 ^ (Z.of_nat f + 1)).
      { split; [apply Z.div_pos; lia|].
        apply Z.div_lt_upper_bound; [lia|].
        replace (Z.of_nat (S f) + 1) with (Z.succ (Z.of_nat f + 1)) in Hz
          by lia.
        rewrite Z.pow_succ_r in Hz by lia. lia. }
      destruct (IH (z / 10) (String (Js.digitChar (z mod 10)) acc) a Hq)
        as (k & Hk & Hread).
      rewrite Hread, readDigits_digit by (apply Z.mod_pos_bound; lia).
      exists (k + 1). split; [lia|]. f_equal.
      rewrite Z.pow_add_r, Z.pow_1_r by lia.
      pose proof (Z.div_mod z 10 ltac:(lia)). lia.
Qed.

Lemma log2_fuel (z : Z) :
  0 <= z -> z < 10 ^ (Z.of_nat (Z.to_nat (Z.log2 z)) + 1).
Proof.
  intros Hz. rewrite Z2Nat.id by apply Z.log2_nonneg.
  destruct (Z.eq_dec z 0) as [->|Hne]; [reflexivity|].
  pose proof (Z.log2_spec z ltac:(lia)) as [_ Hlt].
  eapply Z.lt_le_trans; [exact Hlt|].
  replace (Z.log2 z + 1) with (Z.succ (Z.log2 z)) by lia.
  apply Z.pow_le_mono_l. lia.
Qed.

Lemma parseInt_numberToString_value (z : Z) :
  0 <= z -> Js.parseInt (Js.numberToString (Js.Num z)) = Js.Num z.
Proof.
  intros Hz. unfold Js.numberToString, Js.digitsOf.
  replace (z <? 0) with false by (symmetry; apply Z.ltb_ge; lia).
  set (fuel := Z.to_nat (Z.log2 z)).
  pose proof (digitsFuel_starts fuel z EmptyString (or_intror eq_refl)) as Hs.
  pose proof (digitsFuel_plain fuel z EmptyString eq_refl) as Hp.
  destruct (readDigits_digitsFuel fuel z EmptyString 0 (conj Hz (log2_fuel z Hz)))
    as (k & _ & Hread).
  cbn [Js.readDigits] in Hread. rewrite Z.mul_0_l, Z.add_0_l in Hread.
  unfold Js.parseInt.
  rewrite trimStart_clean
    by (eapply allChars_impl; [apply plain_nonWhite | exact Hp]).
  destruct (Js.digitsFuel fuel z EmptyString) as [|c r] eqn:E;
    [discriminate|].
  assert (Hc : c <> "-"%char /\ c <> "+"%char).
  { cbn in Hs. split; intros ->; discriminate. }
  destruct Hc as [Hm Hpl].
  destruct (Ascii.eqb c "-") eqn:E1; [apply Ascii.eqb_eq in E1; contradiction|].
  destruct (Ascii.eqb c "+") eqn:E2; [apply Ascii.eqb_eq in E2; contradiction|].
  assert (Hgoal :
    (if Js.startsWithDigit (String c r)
     then Js.Num (Js.readDigits (String c r) 0) else Js.NaN) = Js.Num z)
    by now rewrite Hs, Hread.
  destruct c as [[] [] [] [] [] [] [] []];
    try exact Hgoal; try discriminate.
Qed.

Lemma find_map_same {A : Type} (p : A -> bool) (h : A -> A) (l : list A) :
  (forall x, p (h x) = p x) ->
  find p (map h l) = option_map h (find p l).
Proof.
  intros H. induction l as [|x l IH]; [reflexivity|].
  cbn [map find]. rewrite H. destruct (p x); [reflexivity | exact IH].
Qed.

Lemma find_updateFirst_same {A : Type} (p : A -> bool) (g : A -> A)
    (l : list A) :
  (forall x, p (g x) = p x) ->
  find p (updateFirst p g l) = option_map g (find p l).
Proof.
  intros H. induction l as [|x l IH]; [reflexivity|].
  cbn [updateFirst find]. destruct (p x) eqn:E.
  - cbn [find]. now rewrite H, E.
  - cbn [find]. now rewrite E.
Qed.

Lemma find_updateFirst_cases {A : Type} (p f : A -> bool) (g : A -> A)
    (l : list A) :
  (forall x, p (g x) = p x) ->
  match find p l with
  | None => find p (updateFirst f g l) = None
  | Some y =>
      find p (updateFirst f g l) = Some y
      \/ (find f l = Some y /\ find p (updateFirst f g l) = Some (g y))
  end.
Proof.
  intros H. induction l as [|x l IH]; [reflexivity|].
  cbn [updateFirst find]. destruct (f x) eqn:Ef.
  - cbn [find]. rewrite H. destruct (p x) eqn:Ep.
    + right. split; reflexivity.
    + destruct (find p l); [now left | reflexivity].
  - cbn [find]. destruct (p x) eqn:Ep; [now left | exact IH].
Qed.

Lemma castlingRight_flags (b : Board) (c : Color) (column : Z)
    (letter : string) :
  castlingRight b c column letter
  = match kingFlag c (pieces b), rookFlag c column (pieces b) with
    | Some k, Some r => if negb k && negb r then letter else EmptyString
    | _, _ => EmptyString
    end.
Proof.
  unfold castlingRight, kingFlag, rookFlag, Board_getKing, findRook,
    Board_getPieceAt. cbn [pieces].
  destruct (find (isKingOf c) (pieces b)) as [k|]; [|reflexivity].
  cbn [option_map].
  destruct (pieceAt (pieces b) (mkPosition (homeRow c) column)) as [r|];
    [|reflexivity].
  destruct (Kind_eqb (kind r) Rook && Color_eqb (color r) c); reflexivity.
Qed.

Lemma isKingOf_setHasMoved (c : Color) (v : bool) (x : Piece) :
  isKingOf c (setHasMoved v x) = isKingOf c x.
Proof. reflexivity. Qed.

Lemma isAt_setHasMoved (pos : Position) (v : bool) (x : Piece) :
  isAt pos (setHasMoved v x) = isAt pos x.
Proof. reflexivity. Qed.

Lemma kingFlag_mark (c : Color) (ps : list Piece) :
  kingFlag c (markKingsAndRooks ps) = overwrite true (kingFlag c ps).
Proof.
  unfold kingFlag, markKingsAndRooks, overwrite.
  rewrite find_map_same.
  - destruct (find (isKingOf c) ps) as [k|] eqn:E; [|reflexivity].
    apply find_some in E as [_ E]. unfold isKingOf in E.
    apply andb_true_iff in E as [E _]. cbn [option_map]. now rewrite E.
  - intros x. now destruct (_ || _).
Qed.

Lemma rookFlag_mark (c : Color) (column : Z) (ps : list Piece) :
  rookFlag c column (markKingsAndRooks ps)
  = overwrite true (rookFlag c column ps).
Proof.
  unfold rookFlag, findRook, Board_getPieceAt, pieceAt, markKingsAndRooks,
    overwrite. cbn [pieces].
  rewrite find_map_same by (intros x; now destruct (_ || _)).
  destruct (find _ ps) as [r|]; [|reflexivity]. cbn [option_map].
  destruct (Kind_eqb (kind r) King || Kind_eqb (kind r) Rook) eqn:E.
  - cbn [setHasMoved kind color].
    destruct (Kind_eqb (kind r) Rook && Color_eqb (color r) c); reflexivity.
  - apply orb_false_iff in E as [_ E]. now rewrite E.
Qed.

Lemma kingFlag_restoreKing (castling : string) (c c' : Color) (l1 l2 : ascii)
    (ps : list Piece) :
  kingFlag c (restoreKing castling c' l1 l2 ps)
  = if (Js.includes castling l1 || Js.includes castling l2) && Color_eqb c c'
    then overwrite false (kingFlag c ps)
    else kingFlag c ps.
Proof.
  unfold restoreKing, kingFlag, overwrite.
  destruct (Js.includes castling l1 || Js.includes castling l2);
    [|reflexivity].
  cbn [andb]. destruct (Color_eqb c c') eqn:E.
  - apply Color_eqb_eq in E. subst c'.
    rewrite find_updateFirst_same by reflexivity.
    now destruct (find (isKingOf c) ps).
  - pose proof (find_updateFirst_cases (isKingOf c) (isKingOf c')
                  (setHasMoved false) ps (isKingOf_setHasMoved c false)) as H.
    destruct (find (isKingOf c) ps) as [y|] eqn:Ey; [|now rewrite H].
    destruct H as [->|[Hf _]]; [reflexivity|].
    apply find_some in Ey as [_ Ey]. apply find_some in Hf as [_ Hf].
    unfold isKingOf in Ey, Hf.
    apply andb_true_iff in Ey as [_ Ey]. apply andb_true_iff in Hf as [_ Hf].
    apply Color_eqb_eq in Ey, Hf. subst c c'.
    now rewrite Color_eqb_refl in E.
Qed.

Lemma findRook_king (ps : list Piece) (c c' : Color) (column : Z) (y : Piece) :
  isKingOf c' y = true ->
  Board_getPieceAt (mkBoard ps None []) (mkPosition (homeRow c) column)
  = Some y ->
  findRook (mkBoard ps None []) c column = None.
Proof.
  intros Hk Hy. unfold findRook. rewrite Hy.
  unfold isKingOf in Hk. apply andb_true_iff in Hk as [Hk _].
  apply Kind_eqb_eq in Hk. now rewrite Hk.
Qed.

Lemma rookFlag_restoreKing (castling : string) (c c' : Color) (column : Z)
    (l1 l2 : ascii) (ps : list Piece) :
  rookFlag c column (restoreKing castling c' l1 l2 ps) = rookFlag c column ps.
Proof.
  unfold restoreKing.
  destruct (Js.includes castling l1 || Js.includes castling l2);
    [|reflexivity].
  unfold rookFlag.
  pose proof (find_updateFirst_cases
                (isAt (mkPosition (homeRow c) column)) (isKingOf c')
                (setHasMoved false) ps
                (isAt_setHasMoved (mkPosition (homeRow c) column) false)) as H.
  destruct (find (isAt (mkPosition (homeRow c) column)) ps) as [y|] eqn:Ey.
  - destruct H as [H|[Hf H]].
    + unfold findRook, Board_getPieceAt, pieceAt. cbn [pieces].
      now rewrite H, Ey.
    + apply find_some in Hf as [_ Hf].
      rewrite (findRook_king _ c c' column (setHasMoved false y));
        [|exact Hf | exact H].
      now rewrite (findRook_king ps c c' column y).
  - unfold findRook, Board_getPieceAt, pieceAt. cbn [pieces].
    now rewrite H, Ey.
Qed.

Lemma updateFirst_none {A : Type} (f : A -> bool) (g : A -> A) (l : list A) :
  find f l = None -> updateFirst f g l = l.
Proof.
  induction l as [|x l IH]; [reflexivity|].
  cbn [find updateFirst]. destruct (f x); [discriminate|].
  intros H. now rewrite IH.
Qed.

Lemma findRook_Some (ps : list Piece) (c : Color) (column : Z) (r : Piece) :
  findRook (mkBoard ps None []) c column = Some r ->
  find (isAt (mkPosition (homeRow c) column)) ps = Some r
  /\ kind r = Rook /\ color r = c.
Proof.
  unfold findRook, Board_getPieceAt, pieceAt. cbn [pieces].
  destruct (find _ ps) as [x|]; [|discriminate].
  destruct (Kind_eqb (kind x) Rook && Color_eqb (color x) c) eqn:E;
    [|discriminate].
  intros [= <-]. apply andb_true_iff in E as [E1 E2].
  apply Kind_eqb_eq in E1. apply Color_eqb_eq in E2. auto.
Qed.

Lemma kingFlag_restoreRook (castling : string) (letter : ascii)
    (c c' : Color) (column : Z) (ps : list Piece) :
  kingFlag c (restoreRook castling letter c' column ps) = kingFlag c ps.
Proof.
  unfold restoreRook. destruct (Js.includes castling letter); [|reflexivity].
  destruct (findRook (mkBoard ps None []) c' column) as [r|] eqn:Er;
    [|reflexivity].
  apply findRook_Some in Er as (Hr & Hk & _).
  unfold kingFlag.
  pose proof (find_updateFirst_cases (isKingOf c)
                (isAt (mkPosition (homeRow c') column)) (setHasMoved false) ps
                (isKingOf_setHasMoved c false)) as H.
  destruct (find (isKingOf c) ps) as [y|] eqn:Ey; [|now rewrite H].
  destruct H as [->|[Hf _]]; [reflexivity|].
  rewrite Hr in Hf. injection Hf as ->.
  apply find_some in Ey as [_ Ey]. unfold isKingOf in Ey.
  rewrite Hk in Ey. discriminate.
Qed.

Lemma rookFlag_restoreRook (castling : string) (letter : ascii)
    (c c' : Color) (column column' : Z) (ps : list Piece) :
  rookFlag c column (restoreRook castling letter c' column' ps)
  = if Js.includes castling letter && sameCorner c c' column column'
    then overwrite false (rookFlag c column ps)
    else rookFlag c column ps.
Proof.
  unfold restoreRook. destruct (Js.includes castling letter); [|reflexivity].
  cbn [andb].
  destruct (findRook (mkBoard ps None []) c' column') as [r|] eqn:Er.
  - pose proof (findRook_Some _ _ _ _ Er) as (Hr & Hk & Hc).
    destruct (sameCorner c c' column column') eqn:Es.
    + unfold sameCorner in Es. apply andb_true_iff in Es as [E1 E2].
      apply Color_eqb_eq in E1. apply Z.eqb_eq in E2.
      rewrite <- E1, <- E2 in *. clear E1 E2.
      unfold rookFlag at 2. rewrite Er. cbn [option_map overwrite].
      unfold rookFlag, findRook, Board_getPieceAt, pieceAt. cbn [pieces].
      rewrite find_updateFirst_same by reflexivity. rewrite Hr.
      cbn [option_map setHasMoved kind color].
      now rewrite Hk, Hc, Color_eqb_refl.
    + unfold rookFlag, findRook, Board_getPieceAt, pieceAt. cbn [pieces].
      pose proof (find_updateFirst_cases
                    (isAt (mkPosition (homeRow c) column))
                    (isAt (mkPosition (homeRow c') column'))
                    (setHasMoved false) ps
                    (isAt_setHasMoved (mkPosition (homeRow c) column) false))
        as H.
      destruct (find (isAt (mkPosition (homeRow c) column)) ps) as [y|] eqn:Ey;
        [|now rewrite H].
      destruct H as [->|[Hf _]]; [reflexivity|].
      rewrite Hr in Hf. injection Hf as ->.
      apply find_some in Ey as [_ Ey]. apply find_some in Hr as [_ Hr].
      apply isAt_iff in Ey, Hr. rewrite Ey in Hr.
      injection Hr as Hrow Hcol. unfold sameCorner in Es.
      rewrite Hcol, Z.eqb_refl, andb_true_r in Es.
      destruct c, c'; try discriminate; cbn in Hrow; lia.
  - destruct (sameCorner c c' column column') eqn:Es; [|reflexivity].
    unfold sameCorner in Es. apply andb_true_iff in Es as [E1 E2].
    apply Color_eqb_eq in E1. apply Z.eqb_eq in E2. subst c' column'.
    unfold rookFlag. now rewrite Er.
Qed.

Lemma overwrite_twice (v w : bool) (flag : option bool) :
  overwrite v (overwrite w flag) = overwrite v flag.
Proof. now destruct flag. Qed.

Lemma kingFlag_applyCastlingField (castling : string) (c : Color)
    (ps : list Piece) :
  kingFlag c (applyCastlingField castling ps)
  = overwrite (negb (namesKing castling c)) (kingFlag c ps).
Proof.
  unfold applyCastlingField, namesKing.
  destruct (String.eqb castling "-"); cbn [negb andb].
  - apply kingFlag_mark.
  - rewrite !kingFlag_restoreRook, !kingFlag_restoreKing, kingFlag_mark.
    destruct c; cbn [Color_eqb castlingLetter Z.eqb];
      rewrite ?andb_true_r, ?andb_false_r;
      change (7 =? 7) with true; change (0 =? 7) with false; cbv iota;
      destruct (_ || _); cbn [negb]; now rewrite ?overwrite_twice.
Qed.

Lemma rookFlag_applyCastlingField (castling : string) (c : Color)
    (column : Z) (ps : list Piece) :
  column = 7 \/ column = 0 ->
  rookFlag c column (applyCastlingField castling ps)
  = overwrite (negb (namesRook castling c column)) (rookFlag c column ps).
Proof.
  intros Hcol. unfold applyCastlingField, namesRook.
  destruct (String.eqb castling "-"); cbn [negb andb].
  - apply rookFlag_mark.
  - rewrite !rookFlag_restoreRook, !rookFlag_restoreKing, rookFlag_mark.
    destruct c, Hcol as [-> | ->]; cbn [castlingLetter];
      unfold sameCorner; cbn [Color_eqb andb];
      change (7 =? 7) with true; change (0 =? 7) with false;
      change (7 =? 0) with false; change (0 =? 0) with true;
      cbv iota; rewrite ?andb_true_r, ?andb_false_r;
      match goal with
      | |- context [Js.includes castling ?l] =>
          destruct (Js.includes castling l)
      end; cbn [negb]; now rewrite ?overwrite_twice.
Qed.

Lemma castlingRight_hasRight (b : Board) (c : Color) (column : Z)
    (letter : string) :
  castlingRight b c column letter
  = if hasRight (pieces b) c column then letter else EmptyString.
Proof.
  rewrite castlingRight_flags. unfold hasRight.
  destruct (kingFlag c (pieces b)), (rookFlag c column (pieces b));
    reflexivity.
Qed.

Lemma castlingField_names (b : Board) (c : Color) (column : Z) :
  column = 7 \/ column = 0 ->
  namesRook (castlingField b) c column = hasRight (pieces b) c column
  /\ (hasRight (pieces b) c column = true ->
      namesKing (castlingField b) c = true).
Proof.
  intros Hcol. unfold namesRook, namesKing, castlingField.
  rewrite !castlingRight_hasRight.
  destruct c, Hcol as [-> | ->];
    destruct (hasRight (pieces b) WHITE 7), (hasRight (pieces b) WHITE 0),
      (hasRight (pieces b) BLACK 7), (hasRight (pieces b) BLACK 0);
    split; try reflexivity; intros H; try discriminate H; reflexivity.
Qed.

Lemma existsb_keys (pk : Kind * Color * Position -> bool) (l l' : list Piece) :
  Permutation (map pieceKey l) (map pieceKey l') ->
  existsb (fun x => pk (pieceKey x)) l = existsb (fun x => pk (pieceKey x)) l'.
Proof.
  intros H.
  assert (E : forall l0, existsb (fun x => pk (pieceKey x)) l0
                         = existsb pk (map pieceKey l0)).
  { induction l0 as [|x l0 IH]; [reflexivity|]. cbn. now rewrite IH. }
  rewrite !E. clear E.
  induction H as [|k m m' _ IH|k k' m|m m' m'' _ IH1 _ IH2].
  - reflexivity.
  - cbn. now rewrite IH.
  - cbn. now destruct (pk k), (pk k').
  - congruence.
Qed.

Lemma isSome_find {A : Type} (p : A -> bool) (l : list A) :
  isSome (find p l) = existsb p l.
Proof.
  induction l as [|x l IH]; [reflexivity|].
  cbn. destruct (p x); [reflexivity | exact IH].
Qed.

Lemma reloaded_fresh (b : Board) (x : Piece) :
  In x (reloaded b) -> hasMoved x = false.
Proof.
  rewrite reloaded_squares. intros H.
  apply in_flat_map in H as (sq & _ & H). unfold reloadSquare in H.
  destruct (Board_getPieceAt b sq); [|destruct H].
  destruct H as [<-|[]]. reflexivity.
Qed.

Lemma kingFlag_reloaded (b : Board) (c : Color) :
  noSharedSquare (pieces b) -> Forall onBoard (pieces b) ->
  kingFlag c (reloaded b) = overwrite false (kingFlag c (pieces b)).
Proof.
  intros Hnd Hon. unfold kingFlag, overwrite.
  assert (E : isSome (find (isKingOf c) (reloaded b))
              = isSome (find (isKingOf c) (pieces b))).
  { rewrite !isSome_find.
    exact (existsb_keys
             (fun k => Kind_eqb (fst (fst k)) King
                       && Color_eqb (snd (fst k)) c)
             _ _ (reloaded_keys b Hnd Hon)). }
  destruct (find (isKingOf c) (reloaded b)) as [k|] eqn:Ek;
    destruct (find (isKingOf c) (pieces b)) as [k0|]; try discriminate;
    [|reflexivity].
  apply find_some in Ek as [Hin _]. cbn [option_map].
  now rewrite (reloaded_fresh b k Hin).
Qed.

Lemma rookFlag_reloaded (b : Board) (c : Color) (column : Z) :
  column = 7 \/ column = 0 ->
  rookFlag c column (reloaded b) = overwrite false (rookFlag c column (pieces b)).
Proof.
  intros Hcol. unfold rookFlag, findRook, Board_getPieceAt. cbn [pieces].
  rewrite pieceAt_reloaded
    by (destruct c, Hcol as [-> | ->]; reflexivity).
  unfold Board_getPieceAt.
  destruct (pieceAt (pieces b) (mkPosition (homeRow c) column)) as [r|];
    [|reflexivity].
  cbn [option_map reloadPiece Piece_new kind color].
  destruct (Kind_eqb (kind r) Rook && Color_eqb (color r) c); reflexivity.
Qed.

(** The castling part of [loadFEN], applied to the array read from the
    text the board printed, gives back every castling right. *)
Lemma hasRight_reloaded (b : Board) (c : Color) (column : Z) :
  noSharedSquare (pieces b) -> Forall onBoard (pieces b) ->
  column = 7 \/ column = 0 ->
  hasRight (applyCastlingField (castlingField b) (reloaded b)) c column
  = hasRight (pieces b) c column.
Proof.
  intros Hnd Hon Hcol.
  destruct (castlingField_names b c column Hcol) as [Hrook Hking].
  unfold hasRight at 1.
  rewrite kingFlag_applyCastlingField, rookFlag_applyCastlingField by exact Hcol.
  rewrite kingFlag_reloaded, rookFlag_reloaded by assumption.
  rewrite !overwrite_twice, Hrook.
  destruct (hasRight (pieces b) c column) eqn:E.
  - rewrite (Hking eq_refl). unfold hasRight in E.
    destruct (kingFlag c (pieces b)), (rookFlag c column (pieces b));
      try discriminate; reflexivity.
  - destruct (kingFlag c (pieces b)), (rookFlag c column (pieces b));
      cbn [overwrite option_map negb]; try reflexivity.
    now rewrite andb_false_r.
Qed.

Lemma castlingField_reloaded (b : Board) (ep : option Position)
    (cs : list Piece) :
  noSharedSquare (pieces b) -> Forall onBoard (pieces b) ->
  castlingField
    (mkBoard (applyCastlingField (castlingField b) (reloaded b)) ep cs)
  = castlingField b.
Proof.
  intros Hnd Hon. unfold castlingField at 1 3.
  rewrite !castlingRight_hasRight. cbn [pieces].
  rewrite !hasRight_reloaded; auto.
Qed.

Lemma pieceAt_keys (ps qs : list Piece) (sq : Position) :
  map pieceKey ps = map pieceKey qs ->
  option_map pieceKey (pieceAt ps sq) = option_map pieceKey (pieceAt qs sq).
Proof.
  unfold pieceAt. revert qs.
  induction ps as [|x ps IH]; intros [|y qs] H; try discriminate;
    [reflexivity|].
  cbn [map] in H.
  assert (Hk : pieceKey x = pieceKey y)
    by (apply (f_equal (hd (pieceKey x))) in H; exact H).
  assert (Ht : map pieceKey ps = map pieceKey qs)
    by (apply (f_equal (@tl _)) in H; exact H).
  cbn [find].
  assert (E : isAt sq x = isAt sq y).
  { unfold isAt. pose proof (f_equal snd Hk) as Hp. cbn in Hp.
    now rewrite Hp. }
  rewrite E. destruct (isAt sq y); [cbn; now rewrite Hk | now apply IH].
Qed.

Lemma symbol_of_key (x y : Piece) :
  pieceKey x = pieceKey y -> Piece_symbol x = Piece_symbol y.
Proof.
  unfold Piece_symbol. intros H.
  pose proof (f_equal (fun k => fst (fst k)) H) as Hk.
  pose proof (f_equal (fun k => snd (fst k)) H) as Hc.
  cbn in Hk, Hc. now rewrite Hk, Hc.
Qed.

Lemma Board_toFEN_reloaded (b : Board) (castling : string)
    (ep : option Position) (cs : list Piece) :
  Board_toFEN (mkBoard (applyCastlingField castling (reloaded b)) ep cs)
  = Board_toFEN b.
Proof.
  unfold Board_toFEN. apply toFEN_rows_symbols. intros r c Hr Hc.
  apply range_In in Hr, Hc.
  unfold Board_getPieceAt at 1. cbn [pieces].
  pose proof (pieceAt_keys _ _ (mkPosition r c)
                (applyCastlingField_keys castling (reloaded b))) as Hk.
  rewrite pieceAt_reloaded in Hk
    by (apply Position_isValid_bounds; cbn; lia).
  destruct (pieceAt (applyCastlingField castling (reloaded b))
              (mkPosition r c)) as [x|];
    destruct (Board_getPieceAt b (mkPosition r c)) as [y|];
    try discriminate; [|reflexivity].
  cbn [option_map] in Hk |- *. f_equal.
  apply (symbol_of_key x (reloadPiece y)).
  assert (Hx : Some (pieceKey x) = Some (pieceKey (reloadPiece y)))
    by exact Hk.
  congruence.
Qed.

Lemma loadFEN_getFEN_game (g0 g : Game) (h n : Z) :
  Sound g ->
  halfMoveClock g = Js.Num h -> 0 <= h ->
  fullMoveNumber g = Js.Num n -> 0 <= n ->
  Game_loadFEN g0 (Game_getFEN g)
  = (true,
     Game_updateGameStatus
       (mkGame
          (mkBoard (applyCastlingField (castlingField (board g))
                      (reloaded (board g)))
                   (enPassantTarget (board g)) [])
          (currentTurn g) []
          [Board_getPositionSignature
             (mkBoard (applyCastlingField (castlingField (board g))
                         (reloaded (board g)))
                      (enPassantTarget (board g)) [])]
          (Js.Num h) (Js.Num n) (gameStatus g0))).
Proof.
  intros S Hh Hh0 Hn Hn0. unfold Game_loadFEN.
  pose proof (getFEN_fields g) as Hf. unfold fieldsOf in Hf. rewrite Hf.
  rewrite Board_loadFEN_toFEN. cbn [negb]. cbv iota.
  rewrite Hh, Hn, !parseInt_numberToString_value by assumption.
  cbn [Js.isNaN pieces capturedPieces enPassantTarget].
  assert (Hep :
    (if negb (String.eqb (enPassantText (Board_getEnPassantTarget (board g)))
                "-")
     then option_map Some
            (Position_fromAlgebraic
               (enPassantText (Board_getEnPassantTarget (board g))))
     else Some None)
    = Some (enPassantTarget (board g))).
  { unfold Board_getEnPassantTarget.
    destruct (enPassantTarget (board g)) as [ep|] eqn:E; [|reflexivity].
    pose proof (sound_enPassant _ S ep E) as Hv. cbn [enPassantText].
    now rewrite (toAlgebraic_not_dash _ Hv), (fromAlgebraic_text _ Hv). }
  rewrite Hep.
  replace (if String.eqb (turnLetter (currentTurn g)) "w" then WHITE else BLACK)
    with (currentTurn g) by now destruct (currentTurn g).
  reflexivity.
Qed.

(** The FEN text of a game reachable from the initial position reads
    back: [loadFEN] accepts it on any game, [loadGameFromFEN] does not
    throw on it, and the game either of them gives prints the very
    same six fields; it has the side to move, the en-passant target
    and the counters of the game the text came from, and no moves. *)
Theorem fen_text_round_trip (g0 g : Game) :
  Reachable g ->
  exists g',
    Game_loadFEN g0 (Game_getFEN g) = (true, g')
    /\ Game_getFEN g' = Game_getFEN g
    /\ currentTurn g' = currentTurn g
    /\ enPassantTarget (board g') = enPassantTarget (board g)
    /\ halfMoveClock g' = halfMoveClock g
    /\ fullMoveNumber g' = fullMoveNumber g
    /\ moveHistory g' = []
    /\ exists g'',
         loadGameFromFEN (Game_getFEN g) = Some g''
         /\ Game_getFEN g'' = Game_getFEN g.
Proof.
  intros R. pose proof (reachable_sound _ R) as S.
  destruct (reachable_counted _ R) as [_ _ Cn (h & Ch & Hh) _ _].
  assert (Hn0 : 0 <= 1 + Z.of_nat (List.length (moveHistory g)) / 2).
  { pose proof (Z.div_pos (Z.of_nat (List.length (moveHistory g))) 2). lia. }
  assert (Htext : forall st,
    Game_getFEN
      (Game_updateGameStatus
         (mkGame
            (mkBoard (applyCastlingField (castlingField (board g))
                        (reloaded (board g)))
                     (enPassantTarget (board g)) [])
            (currentTurn g) []
            [Board_getPositionSignature
               (mkBoard (applyCastlingField (castlingField (board g))
                           (reloaded (board g)))
                        (enPassantTarget (board g)) [])]
            (halfMoveClock g) (fullMoveNumber g) st))
    = Game_getFEN g).
  { intros st. unfold Game_getFEN, Game_updateGameStatus.
    cbn [board currentTurn halfMoveClock fullMoveNumber].
    rewrite Board_toFEN_reloaded.
    rewrite castlingField_reloaded
      by (apply (sound_unique _ S) || apply (sound_onBoard _ S)).
    reflexivity. }
  eexists. split.
  { apply (loadFEN_getFEN_game g0 g h _ S Ch (proj1 Hh) Cn Hn0). }
  rewrite <- Ch, <- Cn.
  split; [apply Htext|].
  repeat (split; [reflexivity|]).
  unfold loadGameFromFEN.
  rewrite (loadFEN_getFEN_game Game_new g h _ S Ch (proj1 Hh) Cn Hn0).
  cbn [negb]. eexists. split; [reflexivity|].
  rewrite <- Ch, <- Cn. apply Htext.
Qed.

Lemma fen_text_round_trip_witness :
  exists g',
    Game_loadFEN Game_new (Game_getFEN bishopEyesF1) = (true, g')
    /\ Game_getFEN g' = Game_getFEN bishopEyesF1
    /\ currentTurn g' = currentTurn bishopEyesF1
    /\ enPassantTarget (board g') = enPassantTarget (board bishopEyesF1)
    /\ halfMoveClock g' = halfMoveClock bishopEyesF1
    /\ fullMoveNumber g' = fullMoveNumber bishopEyesF1
    /\ moveHistory g' = []
    /\ exists g'',
         loadGameFromFEN (Game_getFEN bishopEyesF1) = Some g''
         /\ Game_getFEN g'' = Game_getFEN bishopEyesF1.
Proof.
  apply (fen_text_round_trip Game_new bishopEyesF1).
  apply playFrom_reachable. exact Reachable_new.
Defined.

(* ================================================================== *)
(** * The marks of check and mate *)
(* ================================================================== *)

Lemma lastChar_app (s t : string) :
  lastChar (s ++ t)
  = match lastChar t with Some d => Some d | None => lastChar s end.
Proof.
  induction s as [|c s IH]; cbn [String.append lastChar].
  - now destruct (lastChar t).
  - rewrite IH. destruct (lastChar t); [reflexivity|].
    reflexivity.
Qed.

Lemma lastChar_index (arr : list ascii) (i : Z) :
  forallb (fun c => negb (Ascii.eqb c "#") && negb (Ascii.eqb c "+")) arr
  = true ->
  exists d, lastChar (Js.index arr i) = Some d /\ d <> "#"%char
            /\ d <> "+"%char.
Proof.
  intros Harr. unfold Js.index.
  assert (Hu : exists d, lastChar "undefined" = Some d /\ d <> "#"%char
                         /\ d <> "+"%char).
  { exists "d"%char. repeat split; discriminate. }
  destruct (i <? 0); [exact Hu|].
  destruct (nth_error arr (Z.to_nat i)) as [c|] eqn:E; [|exact Hu].
  exists c. split; [reflexivity|].
  apply nth_error_In in E. rewrite forallb_forall in Harr.
  specialize (Harr c E). apply andb_true_iff in Harr as [H1 H2].
  split; intros ->; discriminate.
Qed.

Lemma lastChar_square (p : Position) (promotion : string) :
  promotion = EmptyString
  \/ (exists k, promotion = String.append "=" (Kind_abbreviation k)) ->
  exists d,
    lastChar (Js.toString (Position_toAlgebraic p) ++ promotion) = Some d
    /\ d <> "#"%char /\ d <> "+"%char.
Proof.
  intros [->|[k ->]].
  - rewrite append_empty_r. unfold Position_toAlgebraic.
    destruct (Js.inRange FILES (col p) || Js.inRange RANKS (7 - row p)).
    + cbn [Js.toString]. rewrite lastChar_app.
      destruct (lastChar_index RANKS (7 - row p) eq_refl) as (d & -> & Hd).
      now exists d.
    + exists "N"%char. repeat split; discriminate.
  - rewrite lastChar_app.
    destruct k; cbn; eexists; (split; [reflexivity|]);
      split; discriminate.
Qed.

Lemma append_assoc_r (s t u : string) :
  ((s ++ t) ++ u)%string = (s ++ (t ++ u))%string.
Proof. induction s as [|c s IH]; cbn; [reflexivity | now rewrite IH]. Qed.

Lemma notation_suffix (b : Board) (turn : Color) (r : MoveResult) :
  res_isCastling r = false ->
  exists body d,
    Game_generateMoveNotation b turn r
    = String.append body (checkSuffix b turn)
    /\ lastChar body = Some d /\ d <> "#"%char /\ d <> "+"%char.
Proof.
  intros Hc. unfold Game_generateMoveNotation. rewrite Hc. cbv zeta.
  match goal with
  | |- exists body d,
         String.append ?pre
           (String.append ?cm
              (String.append ?sq (String.append ?promo ?suf))) = _ /\ _ =>
      assert (Hp : promo = EmptyString
                   \/ exists k,
                        promo = String.append "=" (Kind_abbreviation k));
      [ destruct (res_isPromotion r); [|now left];
        destruct (res_promotedTo r) as [q|]; [|now left];
        right; now exists (kind q) |];
      destruct (lastChar_square (res_to r) promo Hp) as (d & Hd & Hne);
      exists (pre ++ cm ++ sq ++ promo)%string, d;
      split;
      [ change String.append with (fun s t => (s ++ t)%string); cbv beta;
        now rewrite !append_assoc_r
      | split; [now rewrite (lastChar_app pre), (lastChar_app cm), Hd
               | exact Hne] ]
  end.
Qed.

(** The check and mate marks of the notation agree with the status.
    For a committed move that is no castling, the notation ends with
    # exactly when the status is a checkmate, the status CHECK implies
    that it ends with +, and it ends with + only if the side to move
    is in check.  The notation of a castling move is O-O or O-O-O and
    never carries a mark. *)
Theorem notation_marks_check_and_mate
    (g g' : Game) (from to : SquareArg) (promo : string)
    (move : Move) (status : GameStatus) :
  Game_makeMove g from to promo = (MoveMade move status, g') ->
  (move_isCastling move = false ->
   (lastChar (move_notation move) = Some "#"%char
    <-> (status = CHECKMATE_WHITE \/ status = CHECKMATE_BLACK))
   /\ (status = CHECK -> lastChar (move_notation move) = Some "+"%char)
   /\ (lastChar (move_notation move) = Some "+"%char ->
       Board_isKingInCheck (board g') (currentTurn g') = true))
  /\ (move_isCastling move = true ->
      move_notation move = "O-O"%string
      \/ move_notation move = "O-O-O"%string).
Proof.
  intros H.
  destruct (makeMove_made_inv _ _ _ _ _ _ _ H)
    as (fromPos & toPos & piece & result & b' & _ & _ & _ & _ & _
        & _ & Hm & Hg & Hs).
  subst move. cbn [move_isCastling move_notation].
  split.
  - intros Hc.
    destruct (notation_suffix b' (currentTurn g) result Hc)
      as (body & d & -> & Hd & Hn1 & Hn2).
    change (String.append body) with (fun t => (body ++ t)%string).
    cbv beta. rewrite lastChar_app.
    assert (Hst : status
                  = computeStatus b' (opponent (currentTurn g))
                      (positionHistory g' ) (halfMoveClock g')).
    { subst status g'. reflexivity. }
    assert (Hb : board g' = b') by (subst g'; reflexivity).
    assert (Ht : currentTurn g' = opponent (currentTurn g))
      by (subst g'; reflexivity).
    rewrite Hb, Ht. clear Hg Hs.
    unfold checkSuffix. unfold computeStatus in Hst.
    destruct (Board_isCheckmate b' (opponent (currentTurn g))) eqn:Emate.
    + cbn [lastChar]. split; [|split].
      * split; [intros _ | reflexivity].
        rewrite Hst. destruct (opponent (currentTurn g)); auto.
      * intros Hcheck. rewrite Hcheck in Hst.
        destruct (opponent (currentTurn g)); discriminate.
      * discriminate.
    + destruct (Board_isKingInCheck b' (opponent (currentTurn g))) eqn:Echeck.
      * cbn [lastChar]. split; [|split].
        -- split; [discriminate|]. intros [Hw|Hw]; rewrite Hw in Hst.
           ++ unfold Board_isStalemate in Hst. rewrite Echeck in Hst.
              repeat match type of Hst with
                     | _ = (if ?x then _ else _) => destruct x
                     end; discriminate.
           ++ unfold Board_isStalemate in Hst. rewrite Echeck in Hst.
              repeat match type of Hst with
                     | _ = (if ?x then _ else _) => destruct x
                     end; discriminate.
        -- reflexivity.
        -- reflexivity.
      * cbn [lastChar]. rewrite Hd. split; [|split].
        -- split; [intros [= ->]; contradiction|].
           intros [Hw|Hw]; rewrite Hw in Hst;
             repeat match type of Hst with
                    | _ = (if ?x then _ else _) => destruct x
                    end; discriminate.
        -- intros Hcheck. rewrite Hcheck in Hst.
           repeat match type of Hst with
                  | _ = (if ?x then _ else _) => destruct x
                  end; discriminate.
        -- intros [= ->]. contradiction.
  - intros Hc. unfold Game_generateMoveNotation. rewrite Hc.
    destruct (_ <? _); auto.
Qed.

Lemma notation_marks_check_and_mate_witness :
  match fst (Game_makeMove beforeFoolsMate (Algebraic "d8") (Algebraic "h4")
               "Q") with
  | MoveMade move status => lastChar (move_notation move) = Some "#"%char
  | _ => False
  end.
Proof.
  destruct (Game_makeMove beforeFoolsMate (Algebraic "d8") (Algebraic "h4")
              "Q") as [res g'] eqn:E.
  assert (Hres : exists m, res = MoveMade m CHECKMATE_BLACK
                           /\ move_isCastling m = false).
  { apply (f_equal fst) in E. vm_compute in E. subst res. eauto. }
  destruct Hres as (m & -> & Hc). cbn [fst].
  destruct (notation_marks_check_and_mate _ _ _ _ _ _ _ E) as [Hmark _].
  apply (Hmark Hc). now right.
Defined.

(* ================================================================== *)
(** * The PGN text *)
(* ================================================================== *)




